(** * Shape detector: a shallow embedding of [src/main.ts]

    The development follows the [ShapeDetector] class of [src/main.ts]:
    grayscale conversion, Otsu binarisation, contour tracing, the geometric
    utilities, Ramer-Douglas-Peucker simplification, the rule-based
    classifier, non-maximum suppression and [detectShapes], which composes
    them.

    Numbers.  A JavaScript [number] is an IEEE 754 binary64 value, which is
    what Rocq's primitive [float] is, so every computation of the source
    that leaves the integers (luminance, histogram weights, square roots,
    ratios, confidences, tolerances, times) is carried out on [float] with
    the operations of [PrimFloat].  Quantities that the source only ever
    holds as integers (pixel coordinates, array indices, byte values, cross
    products and shoelace sums of pixel coordinates, bounding boxes of
    pixel coordinates) are kept in [Z]; binary64 represents them exactly
    while they stay below 2^53, which they do for every raster a browser
    can allocate.  They are converted with [JS.of_Z] at the point where the
    source mixes them with fractional values.

    The functions that multiply coordinates (the area, the cross product
    of the hull, the distance of the simplification) are given a second
    time in module [Binary64], with every operation in binary64 as the
    code does it.  The last part of the development proves from the
    specification of the binary64 operations that the two agree while
    the coordinates stay in range, and states the properties of these
    functions for the arithmetic of the code. *)

From Stdlib Require Import ZArith List Bool Lia Floats Sorted Permutation.
Import ListNotations.
Set Warnings "-inexact-float".
Local Open Scope Z_scope.

(** ** JavaScript numbers and the [Math] functions used by the detector *)

Module JS.

(** The binary64 value nearest to an integer (exact below 2^53). *)
Definition of_Z (z : Z) : float :=
  SF2Prim (binary_normalize prec emax z 0 false).

Definition of_nat (n : nat) : float := of_Z (Z.of_nat n).

Definition NaN : float := nan.

Definition Math_PI : float := 3.141592653589793%float.

(** [Math.min] and [Math.max]: NaN when an argument is NaN, and -0 is
    below +0. *)
Definition Math_min (a b : float) : float :=
  if is_nan a || is_nan b then NaN
  else if (b <? a)%float then b
  else if (a <? b)%float then a
  else if get_sign a then a else b.

Definition Math_max (a b : float) : float :=
  if is_nan a || is_nan b then NaN
  else if (a <? b)%float then b
  else if (b <? a)%float then a
  else if get_sign a then b else a.

Definition Math_abs (a : float) : float := abs a.
Definition Math_sqrt (a : float) : float := sqrt a.

(** The signed integer mantissa of a finite value. *)
Definition signed (s : bool) (m : positive) : Z :=
  if s then Z.neg m else Z.pos m.

(** [Math.round] as an integer: the nearest integer, ties towards
    +infinity; [None] on NaN and the infinities, which [Math.round]
    returns unchanged. *)
Definition round_Z (a : float) : option Z :=
  match Prim2SF a with
  | S754_zero _ => Some 0
  | S754_finite s m e =>
      let v := signed s m in
      Some (if 0 <=? e then v * 2 ^ e
            else (2 * v + 2 ^ (- e)) / 2 ^ (- e + 1))
  | _ => None
  end.

Definition Math_round (a : float) : float :=
  match round_Z a with
  | Some 0 => if get_sign a then neg_zero else zero
  | Some z => of_Z z
  | None => a
  end.

(** [Math.fround]: the value a [Float32Array] element holds after a
    store (round to nearest binary32, ties to even). *)
Definition fround (a : float) : float :=
  match Prim2SF a with
  | S754_finite s m e => SF2Prim (binary_normalize 24 128 (signed s m) e s)
  | _ => a
  end.

(** The array index a number denotes when it is used as a property key:
    a non-negative integer, or nothing (the key names no element). *)
Definition to_index (a : float) : option nat :=
  match Prim2SF a with
  | S754_zero _ => Some 0%nat
  | S754_finite false m e =>
      if 0 <=? e then Some (Z.to_nat (Z.pos m * 2 ^ e))
      else if (Z.pos m) mod 2 ^ (- e) =? 0
           then Some (Z.to_nat (Z.pos m / 2 ^ (- e)))
           else None
  | _ => None
  end.

(** Truthiness of a number: 0, -0 and NaN are falsy. *)
Definition truthy (a : float) : bool :=
  negb (is_nan a || is_zero a).

(** [a > b] and [a >= b] are [b < a] and [b <= a]. *)
Definition gt (a b : float) : bool := (b <? a)%float.
Definition ge (a b : float) : bool := (b <=? a)%float.

(** [Array.prototype.sort] with a comparator, given as the test
    "comparator(a, b) < 0".  The sort is stable; for the consistent
    comparators of this program every stable sort yields this list. *)
Section Sort.
Context {A : Type} (before : A -> A -> bool).

Fixpoint insert (a : A) (l : list A) : list A :=
  match l with
  | [] => [a]
  | b :: l' => if before b a then b :: insert a l' else a :: l
  end.

Definition sort (l : list A) : list A := fold_right insert [] l.
End Sort.

(** Exceptions the modelled code can raise: a typed array allocated with
    a negative length, and a recursion that never returns (which the
    engine ends with a stack overflow). *)
Inductive Error : Type :=
| RangeError_length
| RangeError_stack.

Inductive Completion (A : Type) : Type :=
| Normal (a : A)
| Throw (e : Error).
Arguments Normal {A} a.
Arguments Throw {A} e.

Definition bind {A B} (c : Completion A) (k : A -> Completion B)
  : Completion B :=
  match c with
  | Normal a => k a
  | Throw e => Throw e
  end.

End JS.

Notation "x <- c ;; k" := (JS.bind c (fun x => k))
  (at level 61, c at next level, right associativity).

Import JS.

(** ** Data model *)

(** A pixel position; contour and polygon vertices are pixel positions. *)
Record Point : Type := mkPoint { px : Z; py : Z }.

Definition Point_eqb (a b : Point) : bool :=
  (px a =? px b) && (py a =? py b).

(** [DetectedShape["type"]], with the [square] member the interface
    declares. *)
Inductive ShapeType : Type :=
| circle | triangle | rectangle | square | pentagon | star.

Record BBox : Type := mkBBox {
  bb_x : Z; bb_y : Z; bb_width : Z; bb_height : Z }.

(** The rounded centroid, a pair of numbers. *)
Record Center : Type := mkCenter { cx : float; cy : float }.

Record DetectedShape : Type := mkShape {
  type : ShapeType;
  confidence : float;
  boundingBox : BBox;
  center : Center;
  area : float }.

Record DetectionResult : Type := mkResult {
  shapes : list DetectedShape;
  processingTime : float;
  imageWidth : Z;
  imageHeight : Z }.

(** [ImageData]: the RGBA bytes of a [Uint8ClampedArray], row-major. *)
Record ImageData : Type := mkImage {
  width : Z;
  height : Z;
  data : list Z }.

(** ** Arrays *)

(** The integers [0, 1, ..., n-1], the values a counting loop visits. *)
Definition upto (n : Z) : list Z := map Z.of_nat (seq 0 (Z.to_nat n)).

(** Reading an element: [None] is JavaScript's [undefined]. *)
Definition aget {A} (a : list A) (i : Z) : option A :=
  if i <? 0 then None else nth_error a (Z.to_nat i).

(** Writing an element of a typed array: a store outside the array is
    ignored. *)
Fixpoint aset_nat {A} (a : list A) (i : nat) (v : A) : list A :=
  match a, i with
  | [], _ => []
  | _ :: a', O => v :: a'
  | b :: a', S i' => b :: aset_nat a' i' v
  end.

Definition aset {A} (a : list A) (i : Z) (v : A) : list A :=
  if i <? 0 then a else aset_nat a (Z.to_nat i) v.

(** ** Grayscale conversion ([toGrayscale]) *)

(** A byte read from the buffer as a number; reading past the end gives
    [undefined], which arithmetic turns into NaN. *)
Definition byte_at (data : list Z) (i : Z) : float :=
  match aget data i with
  | Some b => of_Z b
  | None => NaN
  end.

Definition luma (data : list Z) (i : Z) : float :=
  let idx := i * 4 in
  fround (0.299 * byte_at data idx + 0.587 * byte_at data (idx + 1)
          + 0.114 * byte_at data (idx + 2))%float.

(** [new Float32Array(n)] throws a RangeError on a negative length.  The
    model takes an array of any other length to be allocated; an engine
    refuses lengths beyond its own limit with the same error. *)
Definition toGrayscale (data : list Z) (width height : Z)
  : Completion (list float) :=
  if width * height <? 0 then Throw RangeError_length
  else Normal (map (luma data) (upto (width * height))).

(** ** Otsu threshold ([otsuThreshold]) *)

(** [for (let i = from; i <= maxVal; i++) body(i)], where [maxVal] is a
    number that may be NaN.  [maxVal] never exceeds 255 in
    [otsuThreshold], so 256 rounds of fuel from [from >= 0] are never
    used up. *)
Fixpoint for_upto {S : Type} (fuel : nat) (i : Z) (maxVal : float)
    (body : Z -> S -> S) (s : S) : S :=
  match fuel with
  | O => s
  | Datatypes.S fuel' =>
      if (of_Z i <=? maxVal)%float
      then for_upto fuel' (i + 1) maxVal body (body i s)
      else s
  end.

(** [histogram[i]] as an operand. *)
Definition hget (h : list float) (i : Z) : float :=
  match aget h i with
  | Some v => v
  | None => NaN
  end.

(** [histogram[val]++]: when [val] is NaN the statement sets the property
    "NaN" and leaves every bin as it was. *)
Definition hist_incr (h : list float) (val : float) : list float :=
  match to_index val with
  | Some n => aset h (Z.of_nat n) (hget h (Z.of_nat n) + 1)%float
  | None => h
  end.

Definition bin_of (g : float) : float :=
  Math_min 255 (Math_max 0 (Math_round g)).

(** The first loop: the histogram of counts and the largest bin seen. *)
Definition otsu_histogram (gray : list float) : list float * float :=
  fold_left
    (fun '(h, maxVal) g =>
       let val := bin_of g in
       (hist_incr h val, Math_max maxVal val))
    gray (repeat 0%float 256, 0%float).

(** The class weight and mean accumulated over the bins [from..to]. *)
Definition otsu_class (h : list float) (from : Z) (cnt : nat)
  : float * float :=
  fold_left
    (fun '(w, mu) i => ((w + hget h i)%float, (mu + of_Z i * hget h i)%float))
    (map (fun k => from + Z.of_nat k) (seq 0 cnt)) (0%float, 0%float).

Definition otsu_mean (w mu : float) : float :=
  if gt w 0 then (mu / w)%float else mu.

Definition otsuThreshold (gray : list float) : Z :=
  let '(counts, maxVal) := otsu_histogram gray in
  let total := of_nat (length gray) in
  let h :=
    for_upto 256 0 maxVal (fun i h => aset h i (hget h i / total)%float)
      counts in
  let '(bestThreshold, _) :=
    for_upto 256 0 maxVal
      (fun t '(bestThreshold, maxVariance) =>
         let '(w0, mu0) := otsu_class h 0 (Z.to_nat (t + 1)) in
         let mu0 := otsu_mean w0 mu0 in
         let '(w1, mu1) :=
           for_upto 256 (t + 1) maxVal
             (fun i '(w, mu) =>
                ((w + hget h i)%float, (mu + of_Z i * hget h i)%float))
             (0%float, 0%float) in
         let mu1 := otsu_mean w1 mu1 in
         let variance := (w0 * w1 * (mu0 - mu1) * (mu0 - mu1))%float in
         if gt variance maxVariance then (t, variance)
         else (bestThreshold, maxVariance))
      (0, 0%float) in
  bestThreshold.

(** ** Binarisation (the first block of [detectShapes]) *)

(** The number of pixels whose luminance is below a threshold. *)
Definition count_below (grayscale : list float) (t : Z) : Z :=
  fold_left (fun n g => if (g <? of_Z t)%float then n + 1 else n)
    grayscale 0.

Definition otsuRatio (grayscale : list float) (width height : Z) : float :=
  (of_Z (count_below grayscale (otsuThreshold grayscale))
   / of_Z (width * height))%float.

Definition chooseThreshold (grayscale : list float) (width height : Z) : Z :=
  let r := otsuRatio grayscale width height in
  if gt r 0.05 && (r <? 0.50)%float then otsuThreshold grayscale else 128.

(** The mask: 255 marks foreground, 0 background. *)
Definition binarize (grayscale : list float) (threshold : Z) : list Z :=
  map (fun g => if (g <? of_Z threshold)%float then 255 else 0) grayscale.

(** ** Contour extraction ([traceContours], [borderFollowing]) *)

Definition in_bounds (width height nx ny : Z) : bool :=
  (0 <=? nx) && (nx <? width) && (0 <=? ny) && (ny <? height).

(** [binary[y * width + x] === v]. *)
Definition pixel_is (binary : list Z) (width x y v : Z) : bool :=
  match aget binary (y * width + x) with
  | Some b => b =? v
  | None => false
  end.

(** [visited[idx]] as a condition. *)
Definition is_visited (visited : list Z) (idx : Z) : bool :=
  match aget visited idx with
  | Some v => negb (v =? 0)
  | None => false
  end.

(** right, top-right, top, top-left, left, bottom-left, bottom,
    bottom-right. *)
Definition directions : list (Z * Z) :=
  [(1, 0); (1, -1); (0, -1); (-1, -1); (-1, 0); (-1, 1); (0, 1); (1, 1)].

Fixpoint first_some {A B : Type} (f : A -> option B) (l : list A)
  : option B :=
  match l with
  | [] => None
  | a :: l' => match f a with
               | Some b => Some b
               | None => first_some f l'
               end
  end.

(** One probe of the inner [for] loop of [borderFollowing]: the neighbour
    in direction [(dir + i) % 8], and the next search direction when that
    neighbour is foreground. *)
Definition try_dir (binary : list Z) (width height : Z) (current : Point)
    (dir i : Z) : option (Point * Z) :=
  let checkDir := (dir + i) mod 8 in
  let '(dx, dy) := nth (Z.to_nat checkDir) directions (0, 0) in
  let nx := px current + dx in
  let ny := py current + dy in
  if in_bounds width height nx ny && pixel_is binary width nx ny 255
  then Some (mkPoint nx ny, (checkDir + 6) mod 8)
  else None.

Definition next_step (binary : list Z) (width height : Z) (current : Point)
    (dir : Z) : option (Point * Z) :=
  first_some (try_dir binary width height current dir) (upto 8).

(** The [do ... while] loop.  [more] is [maxIterations - iterations - 1]
    on entry to the body, so the loop is repeated exactly while
    [iterations < maxIterations] allows it. *)
Fixpoint bf_loop (more : nat) (binary : list Z) (width height : Z)
    (start current : Point) (dir : Z) (contour : list Point)
    (visited : list Z) : list Point * list Z :=
  let contour := contour ++ [current] in
  let visited := aset visited (py current * width + px current) 1 in
  match next_step binary width height current dir with
  | None => (contour, visited)
  | Some (current', dir') =>
      if Point_eqb current' start then (contour, visited)
      else match more with
           | O => (contour, visited)
           | S more' =>
               bf_loop more' binary width height start current' dir'
                 contour visited
           end
  end.

(** Returns the contour and the visited mask it has marked. *)
Definition borderFollowing (binary visited : list Z)
    (startX startY width height : Z) : list Point * list Z :=
  let start := mkPoint startX startY in
  bf_loop (Z.to_nat (width * height - 1)) binary width height start start 0
    [] visited.

(** Some in-bounds neighbour of (x, y) is background. *)
Definition isEdge (binary : list Z) (width height x y : Z) : bool :=
  existsb
    (fun dy =>
       existsb
         (fun dx =>
            negb ((dx =? 0) && (dy =? 0))
            && in_bounds width height (x + dx) (y + dy)
            && pixel_is binary width (x + dx) (y + dy) 0)
         [-1; 0; 1])
    [-1; 0; 1].

(** The pixels the two scanning loops visit, row by row. *)
Definition interior_pixels (width height : Z) : list (Z * Z) :=
  flat_map (fun y => map (fun x => (x + 1, y + 1)) (upto (width - 2)))
    (upto (height - 2)).

Definition trace_pixel (binary : list Z) (width height : Z)
    (st : list Z * list (list Point)) (xy : Z * Z)
  : list Z * list (list Point) :=
  let '(visited, contours) := st in
  let '(x, y) := xy in
  let idx := y * width + x in
  if pixel_is binary width x y 255 && negb (is_visited visited idx) then
    if isEdge binary width height x y then
      let '(contour, visited') :=
        borderFollowing binary visited x y width height in
      if (10 <=? length contour)%nat
      then (visited', contours ++ [contour])
      else (visited', contours)
    else st
  else st.

(** [traceContours] is reached only after the allocations of
    [toGrayscale] succeeded, so [width * height] is not negative here. *)
Definition traceContours (binary : list Z) (width height : Z)
  : list (list Point) :=
  snd (fold_left (trace_pixel binary width height)
         (interior_pixels width height)
         (repeat 0 (Z.to_nat (width * height)), [])).

(** ** Geometric utilities *)

(** [points[i]]; every use below has [i] inside the array. *)
Definition pt (points : list Point) (i : nat) : Point :=
  nth i points (mkPoint 0 0).

(** The signed shoelace sum (twice the signed area), as an integer.  The
    code accumulates it in binary64 ([Binary64.calculateArea] below); the
    two agree as long as no partial sum leaves the integers binary64
    holds exactly (lemma [calculateArea_binary64]). *)
Definition shoelace (contour : list Point) : Z :=
  let n := length contour in
  fold_left
    (fun area i =>
       let j := ((i + 1) mod n)%nat in
       area + px (pt contour i) * py (pt contour j)
       - px (pt contour j) * py (pt contour i))
    (seq 0 n) 0.

Definition calculateArea (contour : list Point) : float :=
  (Math_abs (of_Z (shoelace contour)) / 2)%float.

Definition calculatePerimeter (points : list Point) : float :=
  let n := length points in
  fold_left
    (fun perimeter i =>
       let j := ((i + 1) mod n)%nat in
       let dx := px (pt points j) - px (pt points i) in
       let dy := py (pt points j) - py (pt points i) in
       (perimeter + Math_sqrt (of_Z (dx * dx + dy * dy)))%float)
    (seq 0 n) 0%float.

Definition calculateCentroid (contour : list Point) : Center :=
  let sumX := fold_left (fun s p => s + px p) contour 0 in
  let sumY := fold_left (fun s p => s + py p) contour 0 in
  mkCenter (Math_round (of_Z sumX / of_nat (length contour))%float)
           (Math_round (of_Z sumY / of_nat (length contour))%float).

(** The bounds of a non-empty point list.  On an empty list the source
    returns infinite bounds, which no [Z] stands for; [detectShapes] calls
    [getBoundingBox] only on lists it has checked to hold three points or
    more. *)
Definition getBoundingBox (contour : list Point) : BBox :=
  match contour with
  | [] => mkBBox 0 0 0 0
  | p :: _ =>
      let minX := fold_left (fun m q => Z.min m (px q)) contour (px p) in
      let minY := fold_left (fun m q => Z.min m (py q)) contour (py p) in
      let maxX := fold_left (fun m q => Z.max m (px q)) contour (px p) in
      let maxY := fold_left (fun m q => Z.max m (py q)) contour (py p) in
      mkBBox minX minY (maxX - minX) (maxY - minY)
  end.

(** The cross product as an integer.  The code computes it in binary64
    ([Binary64.crossProduct] below), which is this integer for
    coordinates below 2^25 (lemma [crossProduct_binary64]) and can differ
    from it beyond. *)
Definition crossProduct (o a b : Point) : Z :=
  (px a - px o) * (py b - py o) - (py a - py o) * (px b - px o).

(** The distance with the integer expressions of the source evaluated as
    integers and rounded once; [x ** 2] is taken as the square.  The code
    rounds after each operation ([Binary64.perpendicularDistance] below);
    for coordinates below 2^25 no operation on integers rounds and the
    two agree (lemma [perpendicularDistance_binary64]). *)
Definition perpendicularDistance (point lineStart lineEnd : Point) : float :=
  let dx := px lineEnd - px lineStart in
  let dy := py lineEnd - py lineStart in
  let norm := Math_sqrt (of_Z (dx * dx + dy * dy)) in
  if (norm =? 0)%float then
    Math_sqrt (of_Z ((px point - px lineStart) ^ 2
                     + (py point - py lineStart) ^ 2))
  else
    (Math_abs (of_Z (dy * px point - dx * py point
                     + px lineEnd * py lineStart
                     - py lineEnd * px lineStart)) / norm)%float.

(** ** Polygon simplification ([approximatePolygon]) *)

(** The scan for the farthest point of a span: the largest distance seen
    so far and the first index that reached it. *)
Definition farthest (points : list Point) (start end_ : nat) : float * nat :=
  fold_left
    (fun '(maxDist, maxIndex) i =>
       let dist :=
         perpendicularDistance (pt points i) (pt points start)
           (pt points end_) in
       if gt dist maxDist then (dist, i) else (maxDist, maxIndex))
    (seq (start + 1) (end_ - start - 1)) (0%float, start).

(** The recursive closure [rdp].  The recursion of the source is not
    bounded by its text (a span whose farthest point is its start point is
    handed to [rdp] again unchanged), so the model counts the depth:
    [None] is a recursion deeper than [depth]. *)
Fixpoint rdp (depth : nat) (points : list Point) (start end_ : nat)
    (eps : float) : option (list Point) :=
  match depth with
  | O => None
  | S depth' =>
      if (end_ - start <? 2)%nat then Some [pt points start]
      else
        let '(maxDist, maxIndex) := farthest points start end_ in
        if gt maxDist eps then
          match rdp depth' points start maxIndex eps with
          | None => None
          | Some lft =>
              match rdp depth' points maxIndex end_ eps with
              | None => None
              | Some rgt => Some (lft ++ rgt)
              end
          end
        else Some [pt points start]
  end.

(** [None]: the call does not return.  A recursion that returns is never
    deeper than the contour is long (lemma [rdp_depth_enough]), so the
    depth allowed here cuts off only recursions that never end. *)
Definition approximatePolygon (contour : list Point) (epsilon : float)
  : option (list Point) :=
  if (length contour <? 3)%nat then Some contour
  else
    match rdp (length contour) contour 0 (length contour - 1) epsilon with
    | None => None
    | Some simplified =>
        let simplified := simplified ++ [pt contour (length contour - 1)] in
        Some (if (3 <=? length simplified)%nat then simplified else contour)
    end.

(** ** Convex hull ([convexHull]) *)

(** The comparison of [Math.atan2(y1, x1)] with [Math.atan2(y2, x2)] for
    integer arguments.  ECMAScript leaves the digits of [Math.atan2] to
    the implementation; the model takes the order of its results on
    integer directions to be the order of the angles themselves: the
    angle is negative below the x-axis, 0 on the non-negative x-axis
    (and at the origin), in (0, pi) above the axis and pi on the negative
    x-axis, and inside an open half-plane the sign of the cross product
    orders two directions.  Two different directions with coordinates up
    to 2^21 are more than 2^-43 radians apart, far more than the last
    digits of a binary64 angle; directions with larger coordinates can
    be closer than binary64 tells apart, and the statements about the
    code keep to the first range. *)
Definition atan2_sector (y x : Z) : Z :=
  if y <? 0 then 0
  else if 0 <? y then 2
  else if 0 <=? x then 1 else 3.

Definition atan2_compare (y1 x1 y2 x2 : Z) : comparison :=
  let s1 := atan2_sector y1 x1 in
  let s2 := atan2_sector y2 x2 in
  if s1 <? s2 then Lt
  else if s2 <? s1 then Gt
  else if (s1 =? 1) || (s1 =? 3) then Eq
  else 0 ?= x1 * y2 - y1 * x2.

(** The pivot: the lowest point, and the leftmost of those. *)
Definition hull_start (points : list Point) : Point :=
  fold_left
    (fun start point =>
       if (py point <? py start)
          || ((py point =? py start) && (px point <? px start))
       then point else start)
    points (pt points 0).

(** "comparator(a, b) < 0" for the comparator of the sort: by angle
    around [start], then by squared distance from it. *)
Definition hull_before (start a b : Point) : bool :=
  match atan2_compare (py a - py start) (px a - px start)
                      (py b - py start) (px b - px start) with
  | Lt => true
  | Gt => false
  | Eq =>
      let distA := (px a - px start) ^ 2 + (py a - py start) ^ 2 in
      let distB := (px b - px start) ^ 2 + (py b - py start) ^ 2 in
      distA - distB <? 0
  end.

(** The [while] loop of the sweep, on the stack kept top first. *)
Fixpoint hull_pop (stack : list Point) (p : Point) : list Point :=
  match stack with
  | top :: ((below :: _) as rest) =>
      if crossProduct below top p <=? 0 then hull_pop rest p else stack
  | _ => stack
  end.

(** One round of the [for] loop: pop, then push. *)
Definition hull_step (stack : list Point) (p : Point) : list Point :=
  p :: hull_pop stack p.

(** The array [hull] of the source grows at its end; the model keeps it
    reversed while sweeping and restores the order at the end. *)
Definition convexHull (points : list Point) : list Point :=
  if (length points <? 3)%nat then points
  else
    let start := hull_start points in
    let sorted := sort (hull_before start) points in
    rev (fold_left hull_step (skipn 2 sorted) [pt sorted 1; pt sorted 0]).

(** ** Classification ([classifyShapeAdvanced]) *)

Definition aspect_of (bbox : BBox) : float :=
  if 0 <? bb_width bbox
  then (of_Z (bb_height bbox) / of_Z (bb_width bbox))%float
  else 1%float.

(** [distances[i]]; the indices used are inside the array. *)
Definition fnth (l : list float) (i : nat) : float := nth i l NaN.

(** The star test of the classifier: [Some confidence] when the radial
    distances alternate enough. *)
Definition star_confidence (approx : list Point) : option float :=
  let c := calculateCentroid approx in
  let distances :=
    map (fun point =>
           let dx := (of_Z (px point) - cx c)%float in
           let dy := (of_Z (py point) - cy c)%float in
           Math_sqrt (dx * dx + dy * dy)%float)
      approx in
  let n := length distances in
  let alternations :=
    fold_left
      (fun alternations i =>
         let prev := fnth distances ((i + n - 1) mod n)%nat in
         let curr := fnth distances i in
         let next := fnth distances ((i + 1) mod n)%nat in
         if (gt curr prev && gt curr next)
            || ((curr <? prev)%float && (curr <? next)%float)
         then alternations + 1 else alternations)
      (seq 0 n) 0 in
  let alternationScore := (of_Z alternations / of_nat n)%float in
  let sorted := sort (fun a b => (a - b <? 0)%float) distances in
  let shortDist := fnth sorted (n / 4)%nat in
  let longDist := fnth sorted (3 * n / 4)%nat in
  let alternationRatio :=
    (longDist / (if truthy shortDist then shortDist else 1))%float in
  if gt alternationRatio 1.15 && gt alternationScore 0.5
  then Some (Math_min 0.90
               (0.60 + (alternationRatio - 1) * 0.20
                + alternationScore * 0.10)%float)
  else None.

Definition classifyShapeAdvanced (approx : list Point) (area perimeter : float)
    (bbox : BBox) : option (ShapeType * float) :=
  let vertices := length approx in
  let circularity := (4 * Math_PI * area / (perimeter * perimeter))%float in
  let aspectRatio := aspect_of bbox in
  let normalizedAspect := Math_min aspectRatio (1 / aspectRatio)%float in
  let hull := convexHull approx in
  let hullArea := calculateArea hull in
  let convexity := if gt hullArea 0 then (area / hullArea)%float else 0%float in
  let bboxArea := bb_width bbox * bb_height bbox in
  let extent :=
    if 0 <? bboxArea then (area / of_Z bboxArea)%float else 0%float in
  let relaxed :=
    if gt circularity 0.60 && gt extent 0.55 then Some (circle, 0.60%float)
    else if (vertices =? 3)%nat && gt convexity 0.60 then
      Some (triangle, Math_min 0.75 (0.55 + convexity * 0.20)%float)
    else if (vertices =? 4)%nat && gt convexity 0.65 then
      Some (rectangle, 0.60%float)
    else if (vertices =? 5)%nat && gt convexity 0.65 then
      Some (pentagon, 0.60%float)
    else None in
  let starOrRelaxed :=
    if (8 <=? vertices)%nat && (vertices <=? 12)%nat
       && ge convexity 0.30 && (convexity <=? 0.75)%float
    then match star_confidence approx with
         | Some c => Some (star, c)
         | None => relaxed
         end
    else relaxed in
  let circleOrLater :=
    if gt circularity 0.75 && gt extent 0.65
    then Some (circle, Math_min 0.95 (0.70 + circularity * 0.25)%float)
    else starOrRelaxed in
  if gt convexity 0.75 then
    if (vertices =? 3)%nat then
      Some (triangle, Math_min 0.95 (0.80 + convexity * 0.15)%float)
    else if (vertices =? 4)%nat then
      if (circularity <? 0.65)%float && (extent <? 0.60)%float
      then Some (triangle, Math_min 0.85 (0.70 + convexity * 0.15)%float)
      else Some (rectangle, Math_min 0.95 (0.80 + convexity * 0.15)%float)
    else if (vertices =? 5)%nat then
      let isSquareLike :=
        gt circularity 0.75 && gt extent 0.95 && gt normalizedAspect 0.95 in
      let isRectLike :=
        gt extent 0.85
        && (gt circularity 0.50 && (circularity <? 0.80)%float) in
      let isRotatedRect :=
        gt circularity 0.50 && (circularity <? 0.70)%float
        && gt convexity 0.90 && (extent <? 0.70)%float in
      if isSquareLike || isRectLike || isRotatedRect
      then Some (rectangle, Math_min 0.90 (0.75 + convexity * 0.15)%float)
      else Some (pentagon, Math_min 0.95 (0.75 + convexity * 0.20)%float)
    else if (vertices =? 6)%nat then
      Some (pentagon, Math_min 0.88 (0.70 + convexity * 0.18)%float)
    else circleOrLater
  else circleOrLater.

(** ** Duplicate suppression ([nonMaxSuppression], [calculateIoU]) *)

Definition calculateIoU (a b : BBox) : float :=
  let x1 := Z.max (bb_x a) (bb_x b) in
  let y1 := Z.max (bb_y a) (bb_y b) in
  let x2 := Z.min (bb_x a + bb_width a) (bb_x b + bb_width b) in
  let y2 := Z.min (bb_y a + bb_height a) (bb_y b + bb_height b) in
  let intersection := Z.max 0 (x2 - x1) * Z.max 0 (y2 - y1) in
  let union :=
    bb_width a * bb_height a + bb_width b * bb_height b - intersection in
  if 0 <? union then (of_Z intersection / of_Z union)%float else 0%float.

(** The inner [for] loop: the shapes of [sorted] that survive [current]. *)
Definition nms_survivors (iouThreshold : float) (current : DetectedShape)
    (sorted : list DetectedShape) : list DetectedShape :=
  filter
    (fun s =>
       negb (gt (calculateIoU (boundingBox current) (boundingBox s))
               iouThreshold))
    sorted.

(** The [while] loop.  Every round removes the head of [sorted], so
    [rounds = length sorted] rounds empty it (lemma [nms_loop_rounds]). *)
Fixpoint nms_loop (rounds : nat) (iouThreshold : float)
    (sorted keep : list DetectedShape) : list DetectedShape :=
  match rounds, sorted with
  | S rounds', current :: rest =>
      nms_loop rounds' iouThreshold
        (nms_survivors iouThreshold current rest) (keep ++ [current])
  | _, _ => keep
  end.

Definition nonMaxSuppression (shapes : list DetectedShape)
    (iouThreshold : float) : list DetectedShape :=
  match shapes with
  | [] => []
  | _ =>
      let sorted :=
        sort (fun a b => (confidence b - confidence a <? 0)%float) shapes in
      nms_loop (length sorted) iouThreshold sorted []
  end.

(** ** The pipeline ([detectShapes]) *)

(** [performance.now()]: the clock is the one effect of the pipeline.  A
    clock is the sequence of its readings and the number of readings
    taken so far. *)
Record Clock : Type := mkClock { reading : nat -> float; taken : nat }.

Definition performance_now (c : Clock) : float * Clock :=
  (reading c (taken c), mkClock (reading c) (S (taken c))).

(** The tolerances tried for one contour, as fractions of its
    perimeter. *)
Definition tolerances : list float :=
  [0.008; 0.01; 0.012; 0.015; 0.02; 0.025; 0.03; 0.035; 0.04; 0.045;
   0.05]%float.

Definition vertex_bonus (v : nat) : float :=
  if (v =? 3)%nat then 0.30%float
  else if (v =? 4)%nat then 0.25%float
  else if (v =? 5)%nat then 0.10%float
  else if (8 <=? v)%nat && (v <=? 12)%nat then 0.08%float
  else 0%float.

(** [bestShape] (null or a classification with its polygon) and
    [bestScore]. *)
Definition Best : Type := option (ShapeType * float * list Point) * float.

(** One round of the loop over the tolerances. *)
Definition try_tolerance (contour : list Point) (area perimeter : float)
    (best : Best) (eps : float) : Completion Best :=
  match approximatePolygon contour (eps * perimeter)%float with
  | None => Throw RangeError_stack
  | Some approx =>
      if (length approx <? 3)%nat then Normal best
      else
        match classifyShapeAdvanced approx area perimeter
                (getBoundingBox approx) with
        | None => Normal best
        | Some (ty, conf) =>
            let v := length approx in
            let score := (conf + vertex_bonus v)%float in
            if gt score (snd best) then Normal (Some (ty, conf, approx), score)
            else Normal best
        end
  end.

Fixpoint foldM {A B : Type} (f : A -> B -> Completion A) (l : list B)
    (a : A) : Completion A :=
  match l with
  | [] => Normal a
  | b :: l' => a' <- f a b ;; foldM f l' a'
  end.

(** One round of the loop over the contours: the shapes found so far and
    the next contour. *)
Definition process_contour (width height : Z)
    (shapes : list DetectedShape) (contour : list Point)
  : Completion (list DetectedShape) :=
  let minArea := Math_max 50 (of_Z (width * height) * 0.0005)%float in
  let maxArea := (of_Z (width * height) * 0.9)%float in
  if (length contour <? 10)%nat then Normal shapes
  else
    let area := calculateArea contour in
    if (area <? minArea)%float || gt area maxArea then Normal shapes
    else
      let perimeter := calculatePerimeter contour in
      let bbox := getBoundingBox contour in
      let aspectRatio := aspect_of bbox in
      let normalizedAspect := Math_min aspectRatio (1 / aspectRatio)%float in
      if (normalizedAspect <? 0.15)%float then Normal shapes
      else
        best <- foldM (try_tolerance contour area perimeter) tolerances
                  (None, 0%float) ;;
        match fst best with
        | Some (ty, conf, approx) =>
            if ge conf 0.55 then
              Normal (shapes ++ [mkShape ty conf (getBoundingBox approx)
                                   (calculateCentroid approx)
                                   (Math_round area)])
            else Normal shapes
        | None => Normal shapes
        end.

(** The statements of the [try] block up to the suppression. *)
Definition detect_body (imageData : ImageData)
  : Completion (list DetectedShape) :=
  let w := width imageData in
  let h := height imageData in
  grayscale <- toGrayscale (data imageData) w h ;;
  let threshold := chooseThreshold grayscale w h in
  let binary := binarize grayscale threshold in
  let contours := traceContours binary w h in
  shapes <- foldM (process_contour w h) contours [] ;;
  Normal (nonMaxSuppression shapes 0.5).

(** [detectShapes]: the result and the clock after the call.  Both
    branches read the clock a second time, the [try] block after the
    suppression and the [catch] block when it builds its result. *)
Definition detectShapes (imageData : ImageData) (c : Clock)
  : DetectionResult * Clock :=
  let '(startTime, c) := performance_now c in
  match detect_body imageData with
  | Normal finalShapes =>
      let '(t, c) := performance_now c in
      (mkResult finalShapes (t - startTime)%float
         (width imageData) (height imageData), c)
  | Throw _ =>
      let '(t, c) := performance_now c in
      (mkResult [] (t - startTime)%float
         (width imageData) (height imageData), c)
  end.

(** ** Predicates used to state the properties *)

(** What the candidate selector relies on for a classification: it is
    never [square], and a confidence that passes the acceptance test
    [>= 0.55] is at most 1. *)
Definition classification_ok (ty : ShapeType) (conf : float) : Prop :=
  ty <> square /\ (ge conf 0.55 = true -> (conf <=? 1)%float = true).

Definition best_ok (best : Best) : Prop :=
  match fst best with
  | Some (ty, conf, _) => classification_ok ty conf
  | None => True
  end.

(** A reported shape: one of the five reported types, with a confidence
    between 0.55 and 1. *)
Definition shape_ok (s : DetectedShape) : Prop :=
  type s <> square
  /\ (0.55 <=? confidence s)%float = true
  /\ (confidence s <=? 1)%float = true.

(** A raster of black (foreground) and white pixels, as [ImageData]. *)
Definition raster (w h : Z) (black : Z -> Z -> bool) : ImageData :=
  mkImage w h
    (flat_map
       (fun i =>
          if black (i mod w) (i / w) then [0; 0; 0; 255]
          else [255; 255; 255; 255])
       (upto (w * h))).

(** The one-pixel outline of the square with corners (2,2) and (10,10),
    in a 13 x 13 raster. *)
Definition square_outline : ImageData :=
  raster 13 13
    (fun x y =>
       (((x =? 2) || (x =? 10)) && (2 <=? y) && (y <=? 10))
       || (((y =? 2) || (y =? 10)) && (2 <=? x) && (x <=? 10))).

(** A clock that reads 0, 10, 20, ... milliseconds. *)
Definition clock0 : Clock := mkClock (fun n => of_nat (10 * n)) 0.

(** A clock whose readings are 0, 1, 4, 9, ... milliseconds. *)
Definition clock_sq : Clock := mkClock (fun n => of_nat (n * n)) 0.

(** The time a call of [detectShapes] started on clock [c] reports: the
    difference of the next two readings. *)
Definition elapsed (c : Clock) : float :=
  (reading c (S (taken c)) - reading c (taken c))%float.

(** A well-formed buffer holds four bytes for each of its pixels. *)
Definition well_formed (imageData : ImageData) : Prop :=
  0 < width imageData /\ 0 < height imageData
  /\ Z.of_nat (length (data imageData))
     = 4 * width imageData * height imageData.

(** [square_outline] with the bytes of its last row missing. *)
Definition outline_missing_row : ImageData :=
  mkImage 13 13 (firstn (4 * 13 * 12) (data square_outline)).

(** A single black pixel. *)
Definition one_pixel : ImageData := mkImage 1 1 [0; 0; 0; 255].

(** The luminance test of the binary mask. *)
Definition below (t : Z) (g : float) : bool := (g <? of_Z t)%float.

(** A diagonal stroke from (6,1) down to (1,6) with one more pixel at
    (7,2), in a 9 x 8 raster. *)
Definition stroke (x y : Z) : bool :=
  ((x + y =? 7) && (1 <=? y) && (y <=? 6)) || ((x =? 7) && (y =? 2)).

Definition stroke_image : ImageData := raster 9 8 stroke.

Definition stroke_mask : list Z :=
  map (fun i => if stroke (i mod 9) (i / 9) then 255 else 0) (upto 72).

(** Two square outlines side by side in a 25 x 13 raster. *)
Definition two_outlines : ImageData :=
  raster 25 13
    (fun x y =>
       let outline x0 :=
         (((x =? x0) || (x =? x0 + 8)) && (2 <=? y) && (y <=? 10))
         || (((y =? 2) || (y =? 10)) && (x0 <=? x) && (x <=? x0 + 8)) in
       outline 2 || outline 14).

(** No overlap beyond the threshold, in the order the suppression tests
    it and in the other. *)
Definition apart (thr : float) (a b : DetectedShape) : Prop :=
  gt (calculateIoU (boundingBox a) (boundingBox b)) thr = false.

(** ** Definitions for the study of [approximatePolygon] *)

(** The scan of [farthest] over the distances of a span, each with the
    index it belongs to. *)
Definition scan (l : list (float * nat)) (init : float * nat)
  : float * nat :=
  fold_left
    (fun '(maxDist, maxIndex) '(dist, i) =>
       if gt dist maxDist then (dist, i) else (maxDist, maxIndex))
    l init.

(** The distance of [points[i]] from the chord of the span. *)
Definition span_dist (points : list Point) (start end_ i : nat) : float :=
  perpendicularDistance (pt points i) (pt points start) (pt points end_).

(** [rdp] with the indices it keeps in place of the points. *)
Fixpoint rdp_indices (depth : nat) (points : list Point) (start end_ : nat)
    (eps : float) : option (list nat) :=
  match depth with
  | O => None
  | S depth' =>
      if (end_ - start <? 2)%nat then Some [start]
      else
        let '(maxDist, maxIndex) := farthest points start end_ in
        if gt maxDist eps then
          match rdp_indices depth' points start maxIndex eps with
          | None => None
          | Some lft =>
              match rdp_indices depth' points maxIndex end_ eps with
              | None => None
              | Some rgt => Some (lft ++ rgt)
              end
          end
        else Some [start]
  end.

(** [thinned keep l' l]: [l'] is [l] with some elements left out, none of
    which satisfies [keep]. *)
Inductive thinned {A : Type} (keep : A -> Prop) : list A -> list A -> Prop :=
| thinned_nil : thinned keep [] []
| thinned_cons x l' l : thinned keep l' l -> thinned keep (x :: l') (x :: l)
| thinned_skip x l' l : ~ keep x -> thinned keep l' l -> thinned keep l' (x :: l).

(** Three points on a line, and a flat zigzag. *)
Definition collinear3 : list Point :=
  [mkPoint 0 0; mkPoint 1 0; mkPoint 2 0].

Definition zigzag4 : list Point :=
  [mkPoint 0 0; mkPoint 5 1; mkPoint 10 0; mkPoint 15 0].

(** [approximatePolygon contour eps] returned [polygon] as the result of
    simplifying: the recursion returned, and its points with the end
    point appended are three or more (otherwise the contour itself is
    returned). *)
Definition simplified_by (contour : list Point) (eps : float)
    (polygon : list Point) : Prop :=
  exists simplified,
    rdp (length contour) contour 0 (length contour - 1) eps = Some simplified
    /\ polygon = simplified ++ [pt contour (length contour - 1)]
    /\ (3 <= length polygon)%nat.

(** A binary64 value that is not below zero: a NaN, a zero of either sign,
    or a positive number. *)
Definition sf_nonneg (s : spec_float) : Prop :=
  match s with
  | S754_finite true _ _ | S754_infinity true => False
  | _ => True
  end.

(** ** Definitions for the study of [convexHull] *)

(** [above o p]: [p] is not below the pivot [o], nor left of it on its
    row; every input point is above the pivot. *)
Definition above (o p : Point) : Prop :=
  py o < py p \/ (py p = py o /\ px o <= px p).

Definition dist2 (o p : Point) : Z :=
  (px p - px o) ^ 2 + (py p - py o) ^ 2.

(** The order of the sort around the pivot: by angle, then by distance. *)
Definition ang_le (o p q : Point) : Prop :=
  0 <= crossProduct o p q
  /\ (crossProduct o p q = 0 -> dist2 o p <= dist2 o q).

(** The edges of the chain held by the sweep's stack (top first), each
    from the lower vertex to the upper one. *)
Fixpoint chain_edges (stack : list Point) : list (Point * Point) :=
  match stack with
  | t :: ((t' :: _) as rest) => (t', t) :: chain_edges rest
  | _ => []
  end.

(** The shape of the stack during the sweep: its bottom is the pivot,
    every vertex that is not the pivot is at a strictly smaller angle
    than the vertex above it, and three consecutive vertices turn
    strictly left. *)
Fixpoint chain (o : Point) (stack : list Point) : Prop :=
  match stack with
  | [] => False
  | [b] => b = o
  | t :: ((t' :: rest') as rest) =>
      (0 < crossProduct o t' t \/ t' = o)
      /\ match rest' with
         | t'' :: _ => 0 < crossProduct t'' t' t
         | [] => True
         end
      /\ chain o rest
  end.

(** During the pops for the new point [q], a point already swept is
    covered by the stack: it lies in the triangle of the pivot, the top
    and [q], or it comes before the top and is on the left of every edge
    of the chain. *)
Definition covered (o q : Point) (stack : list Point) (p : Point) : Prop :=
  (0 <= crossProduct o (hd o stack) p
   /\ 0 <= crossProduct (hd o stack) q p)
  \/ (ang_le o p (hd o stack)
      /\ Forall (fun e => 0 <= crossProduct (fst e) (snd e) p)
           (chain_edges stack)).

(** The invariant of the sweep: [swept] are the points pushed so far. *)
Definition sweep_inv (o : Point) (stack swept : list Point) : Prop :=
  chain o stack
  /\ incl stack swept
  /\ (forall p, In p swept -> ang_le o p (hd o stack))
  /\ (forall p, In p swept ->
        Forall (fun e => 0 <= crossProduct (fst e) (snd e) p)
          (chain_edges stack)).

(** The directed edges of a polygon given by its vertex list: from each
    vertex to the next, and from the last back to the first. *)
Definition polygon_edge (polygon : list Point) (a b : Point) : Prop :=
  exists i, (i < length polygon)%nat
            /\ a = pt polygon i
            /\ b = pt polygon ((i + 1) mod length polygon).

(** [p] is inside the polygon or on its boundary: on no edge is it on
    the outer side. *)
Definition contains (polygon : list Point) (p : Point) : Prop :=
  forall a b, polygon_edge polygon a b -> 0 <= crossProduct a b p.

(** A polygon is convex when it contains its own vertices. *)
Definition convex (polygon : list Point) : Prop :=
  forall v, In v polygon -> contains polygon v.

(** [p] is on the segment from [a] to [b]. *)
Definition between (a b p : Point) : Prop :=
  crossProduct a b p = 0
  /\ Z.min (px a) (px b) <= px p <= Z.max (px a) (px b)
  /\ Z.min (py a) (py b) <= py p <= Z.max (py a) (py b).

(** ** Definitions for the study of [toGrayscale] and the mask *)

(** Two buffers that hold the same colour bytes: they differ in the
    fourth byte of a pixel (its alpha) at most. *)
Definition same_colours (data data' : list Z) : Prop :=
  forall i k, 0 <= i -> 0 <= k < 3 ->
    aget data (i * 4 + k) = aget data' (i * 4 + k).

(** A white raster of 3 x 3 pixels, and a black one of 2 x 2. *)
Definition white3 : ImageData := raster 3 3 (fun _ _ => false).

Definition black2 : ImageData := raster 2 2 (fun _ _ => true).

(** Two pixels, of which the buffer holds the first. *)
Definition half_buffer : ImageData := mkImage 2 1 [0; 0; 0; 255].

(** ** Definitions for the study of [traceContours] *)

(** [p] is a pixel of the image that the mask marks as foreground. *)
Definition foreground (binary : list Z) (width height : Z) (p : Point)
  : Prop :=
  in_bounds width height (px p) (py p) = true
  /\ pixel_is binary width (px p) (py p) 255 = true.

(** [q] is one of the eight neighbours of [p]. *)
Definition adjacent (p q : Point) : Prop :=
  Z.abs (px q - px p) <= 1 /\ Z.abs (py q - py p) <= 1 /\ q <> p.

(** Each point of the list is a neighbour of the point before it. *)
Fixpoint linked (l : list Point) : Prop :=
  match l with
  | p :: ((q :: _) as l') => adjacent p q /\ linked l'
  | _ => True
  end.

(** What [traceContours] keeps of a walk of [borderFollowing]. *)
Definition traced (binary : list Z) (width height : Z)
    (contour : list Point) : Prop :=
  (10 <= length contour)%nat
  /\ Z.of_nat (length contour) <= width * height
  /\ Forall (foreground binary width height) contour
  /\ linked contour
  /\ exists x y,
       hd_error contour = Some (mkPoint x y)
       /\ 1 <= x <= width - 2 /\ 1 <= y <= height - 2
       /\ isEdge binary width height x y = true.

(** The pixel [p] is marked in the visited mask. *)
Definition marked (visited : list Z) (width : Z) (p : Point) : Prop :=
  is_visited visited (py p * width + px p) = true.

(** A contour does not hold the point at which a later one starts. *)
Definition starts_off (earlier later : list Point) : Prop :=
  forall q, hd_error later = Some q -> ~ In q earlier.

(** The state of the scan: the mask has one entry for each pixel, the
    points of the contours kept so far are marked, and no contour holds
    the start of a later one. *)
Definition scan_inv (width height : Z) (st : list Z * list (list Point))
  : Prop :=
  Z.of_nat (length (fst st)) = width * height
  /\ Forall (Forall (marked (fst st) width)) (snd st)
  /\ ForallOrdPairs starts_off (snd st).

(** ** Definitions for the study of the geometric utilities *)

(** A box that lies inside the image. *)
Definition inside (width height : Z) (b : BBox) : Prop :=
  0 <= bb_x b /\ 0 <= bb_y b /\ 0 <= bb_width b /\ 0 <= bb_height b
  /\ bb_x b + bb_width b < width /\ bb_y b + bb_height b < height.

(** The polygon of the best candidate is made of contour points. *)
Definition best_of (contour : list Point) (best : Best) : Prop :=
  match fst best with
  | Some (_, _, approx) => approx <> [] /\ incl approx contour
  | None => True
  end.

(** The point moved by (dx, dy). *)
Definition translate (dx dy : Z) (p : Point) : Point :=
  mkPoint (px p + dx) (py p + dy).

(** The term of the shoelace sum for the edge from [a] to [b]. *)
Definition lace (a b : Point) : Z := px a * py b - px b * py a.

(** The sum of [F] over the consecutive pairs of a path. *)
Fixpoint path_sum (F : Point -> Point -> Z) (l : list Point) : Z :=
  match l with
  | a :: ((b :: _) as rest) => F a b + path_sum F rest
  | _ => 0
  end.

(** The polygon as a closed path: back to its first vertex. *)
Definition closed (l : list Point) : list Point := l ++ firstn 1 l.

(** ** Definitions for the study of the simplification and the hull *)

(** [polygon] is [contour] with points left out: the points at
    [indices], in their order, the first and the last point among
    them. *)
Definition selection (contour polygon : list Point) (indices : list nat)
  : Prop :=
  polygon = map (pt contour) indices
  /\ StronglySorted lt indices
  /\ Forall (fun i => (i < length contour)%nat) indices
  /\ (contour <> [] ->
      hd_error indices = Some 0%nat
      /\ last indices 0%nat = (length contour - 1)%nat).

(** No point of [points] strictly between two consecutive indices is
    farther than [eps] from the chord between the points at them. *)
Fixpoint within (points : list Point) (eps : float) (indices : list nat)
  : Prop :=
  match indices with
  | a :: ((b :: _) as rest) =>
      (forall i, (a < i < b)%nat ->
         gt (perpendicularDistance (pt points i) (pt points a) (pt points b))
            eps = false)
      /\ within points eps rest
  | _ => True
  end.

(** Three consecutive points of the list always turn strictly left. *)
Fixpoint left_turns (l : list Point) : Prop :=
  match l with
  | a :: ((b :: c :: _) as rest) =>
      0 < crossProduct a b c /\ left_turns rest
  | _ => True
  end.

(** ** Definitions for the study of the classifier and the suppression *)

(** The numbers of vertices a polygon can have when the classifier gives
    it the type [ty]. *)
Definition vertices_of (ty : ShapeType) (vertices : nat) : Prop :=
  match ty with
  | triangle => vertices = 3%nat \/ vertices = 4%nat
  | rectangle => vertices = 4%nat \/ vertices = 5%nat
  | pentagon => vertices = 5%nat \/ vertices = 6%nat
  | star => (8 <= vertices <= 12)%nat
  | circle => True
  | square => False
  end.

(** [s] is kept, or a kept shape overlaps it beyond the threshold. *)
Definition accounted (thr : float) (kept : list DetectedShape)
    (s : DetectedShape) : Prop :=
  In s kept
  \/ exists k, In k kept
       /\ gt (calculateIoU (boundingBox k) (boundingBox s)) thr = true.

(** Two boxes whose interiors share no point. *)
Definition disjoint (a b : BBox) : Prop :=
  bb_x a + bb_width a <= bb_x b \/ bb_x b + bb_width b <= bb_x a
  \/ bb_y a + bb_height a <= bb_y b \/ bb_y b + bb_height b <= bb_y a.

(** A 10 x 10 box with its corner at (x, 0), and a shape with that
    box. *)
Definition box_at (x : Z) : BBox := mkBBox x 0 10 10.

Definition shape_at (x : Z) : DetectedShape :=
  mkShape rectangle 0.9 (box_at x) (mkCenter 5 5) 100.

(** ** Definitions for the study of the candidates *)

(** The candidate a tolerance gives for a contour: the class and the
    confidence of the simplified polygon, when the classifier gives
    one. *)
Definition candidate (contour : list Point) (area perimeter eps : float)
  : option (ShapeType * float * list Point) :=
  match approximatePolygon contour (eps * perimeter)%float with
  | Some approx =>
      if (length approx <? 3)%nat then None
      else match classifyShapeAdvanced approx area perimeter
                   (getBoundingBox approx) with
           | Some (ty, conf) => Some (ty, conf, approx)
           | None => None
           end
  | None => None
  end.

(** The score of a candidate: its confidence and the bonus of its number
    of vertices. *)
Definition score (c : ShapeType * float * list Point) : float :=
  let '(_, conf, approx) := c in (conf + vertex_bonus (length approx))%float.

(** [s] is the shape that [detectShapes] makes of a candidate of a traced
    contour. *)
Definition reported (contours : list (list Point)) (s : DetectedShape)
  : Prop :=
  exists contour eps ty conf approx,
    In contour contours /\ In eps tolerances
    /\ candidate contour (calculateArea contour)
         (calculatePerimeter contour) eps = Some (ty, conf, approx)
    /\ s = mkShape ty conf (getBoundingBox approx)
             (calculateCentroid approx)
             (Math_round (calculateArea contour)).

(** The state of the loop over the tolerances: the best score is a
    number, and the best candidate, when there is one, is the candidate
    of a tolerance and has the best score. *)
Definition best_inv (contour : list Point) (area perimeter : float)
    (best : Best) : Prop :=
  is_nan (snd best) = false
  /\ match fst best with
     | Some c =>
         snd best = score c
         /\ exists eps, In eps tolerances
              /\ candidate contour area perimeter eps = Some c
     | None => snd best = 0%float
     end.

(** ** The arithmetic of the code: binary64

    The coordinates of a point are JavaScript numbers, and the code adds
    and multiplies them in binary64.  The definitions of this module
    follow the source operation by operation; [x ** 2] is taken as the
    rounded product [x * x], and the comparison of two [Math.atan2]
    values as the order of the angles ([atan2_compare]). *)

Module Binary64.

(** The coordinates of a point as numbers. *)
Definition x (p : Point) : float := of_Z (px p).
Definition y (p : Point) : float := of_Z (py p).

Definition calculateArea (contour : list Point) : float :=
  let n := length contour in
  let area :=
    fold_left
      (fun area i =>
         let j := ((i + 1) mod n)%nat in
         let area := (area + x (pt contour i) * y (pt contour j))%float in
         (area - x (pt contour j) * y (pt contour i))%float)
      (seq 0 n) 0%float in
  (Math_abs area / 2)%float.

Definition crossProduct (o a b : Point) : float :=
  ((x a - x o) * (y b - y o) - (y a - y o) * (x b - x o))%float.

Definition perpendicularDistance (point lineStart lineEnd : Point) : float :=
  let dx := (x lineEnd - x lineStart)%float in
  let dy := (y lineEnd - y lineStart)%float in
  let norm := Math_sqrt (dx * dx + dy * dy)%float in
  if (norm =? 0)%float then
    Math_sqrt ((x point - x lineStart) * (x point - x lineStart)
               + (y point - y lineStart) * (y point - y lineStart))%float
  else
    (Math_abs (dy * x point - dx * y point
               + x lineEnd * y lineStart - y lineEnd * x lineStart)
     / norm)%float.

Definition farthest (points : list Point) (start end_ : nat) : float * nat :=
  fold_left
    (fun '(maxDist, maxIndex) i =>
       let dist :=
         perpendicularDistance (pt points i) (pt points start)
           (pt points end_) in
       if gt dist maxDist then (dist, i) else (maxDist, maxIndex))
    (seq (start + 1) (end_ - start - 1)) (0%float, start).

Fixpoint rdp (depth : nat) (points : list Point) (start end_ : nat)
    (eps : float) : option (list Point) :=
  match depth with
  | O => None
  | S depth' =>
      if (end_ - start <? 2)%nat then Some [pt points start]
      else
        let '(maxDist, maxIndex) := farthest points start end_ in
        if gt maxDist eps then
          match rdp depth' points start maxIndex eps with
          | None => None
          | Some lft =>
              match rdp depth' points maxIndex end_ eps with
              | None => None
              | Some rgt => Some (lft ++ rgt)
              end
          end
        else Some [pt points start]
  end.

Definition approximatePolygon (contour : list Point) (epsilon : float)
  : option (list Point) :=
  if (length contour <? 3)%nat then Some contour
  else
    match rdp (length contour) contour 0 (length contour - 1) epsilon with
    | None => None
    | Some simplified =>
        let simplified := simplified ++ [pt contour (length contour - 1)] in
        Some (if (3 <=? length simplified)%nat then simplified else contour)
    end.

(** "comparator(a, b) < 0" for the comparator of the sort. *)
Definition hull_before (start a b : Point) : bool :=
  match atan2_compare (py a - py start) (px a - px start)
                      (py b - py start) (px b - px start) with
  | Lt => true
  | Gt => false
  | Eq =>
      let distA := ((x a - x start) * (x a - x start)
                    + (y a - y start) * (y a - y start))%float in
      let distB := ((x b - x start) * (x b - x start)
                    + (y b - y start) * (y b - y start))%float in
      (distA - distB <? 0)%float
  end.

Fixpoint hull_pop (stack : list Point) (p : Point) : list Point :=
  match stack with
  | top :: ((below :: _) as rest) =>
      if (crossProduct below top p <=? 0)%float then hull_pop rest p
      else stack
  | _ => stack
  end.

Definition hull_step (stack : list Point) (p : Point) : list Point :=
  p :: hull_pop stack p.

Definition convexHull (points : list Point) : list Point :=
  if (length points <? 3)%nat then points
  else
    let start := hull_start points in
    let sorted := sort (hull_before start) points in
    rev (fold_left hull_step (skipn 2 sorted) [pt sorted 1; pt sorted 0]).

(** No point of [points] strictly between two consecutive indices is
    farther than [eps] from the chord between the points at them, by
    the distance the code computes. *)
Fixpoint within (points : list Point) (eps : float) (indices : list nat)
  : Prop :=
  match indices with
  | a :: ((b :: _) as rest) =>
      (forall i, (a < i < b)%nat ->
         gt (perpendicularDistance (pt points i) (pt points a) (pt points b))
            eps = false)
      /\ within points eps rest
  | _ => True
  end.

End Binary64.

(** ** Definitions for the study of the arithmetic *)

(** A point whose coordinates are at most [B] in absolute value. *)
Definition bounded_by (B : Z) (p : Point) : Prop :=
  Z.abs (px p) <= B /\ Z.abs (py p) <= B.

(** The binary64 number of a non-zero integer below 2^53: its 53-bit
    mantissa and its exponent. *)
Definition expo (z : Z) : Z := Zdigits2 z - 53.

Definition mant (z : Z) : positive :=
  Z.to_pos (Z.abs z * 2 ^ (53 - Zdigits2 z)).

Definition SFZ (z : Z) : spec_float :=
  if z =? 0 then S754_zero false
  else S754_finite (z <? 0) (mant z) (expo z).

(** The number [a] is the integer [z]: the number of [z], or the
    negative zero when [z] is 0. *)
Definition represents (a : float) (z : Z) : Prop :=
  Prim2SF a = SFZ z \/ (z = 0 /\ Prim2SF a = S754_zero true).

(** Four points with coordinates near 2^28: at the third one the path
    turns left by the least amount integers allow. *)
Definition far_points : list Point :=
  [mkPoint 0 0; mkPoint 134217728 0; mkPoint 268435456 134217727;
   mkPoint 268435457 134217728].

(** ** The pipeline on the clock

    [detectShapes] once more, statement by statement, as a computation
    that runs on the clock: any of its statements can take a reading,
    and a statement that throws leaves the clock as it found it. *)

Module Timed.

Definition Run (A : Type) : Type := Clock -> Completion A * Clock.

Definition ret {A : Type} (a : A) : Run A := fun c => (Normal a, c).

Definition bind {A B : Type} (m : Run A) (k : A -> Run B) : Run B :=
  fun c =>
    match m c with
    | (Normal a, c') => k a c'
    | (Throw e, c') => (Throw e, c')
    end.

(** [performance.now()]. *)
Definition now : Run float :=
  fun c => let '(t, c') := performance_now c in (Normal t, c').

(** The call of a method that takes no reading. *)
Definition call {A : Type} (r : Completion A) : Run A := fun c => (r, c).

(** [try { body } catch (error) { handler }]. *)
Definition try_catch {A : Type} (body : Run A) (handler : Error -> Run A)
  : Run A :=
  fun c =>
    match body c with
    | (Normal a, c') => (Normal a, c')
    | (Throw e, c') => handler e c'
    end.

Definition detectShapes (imageData : ImageData) : Run DetectionResult :=
  bind now (fun startTime =>
  let w := width imageData in
  let h := height imageData in
  try_catch
    (bind (call (toGrayscale (data imageData) w h)) (fun grayscale =>
     let threshold := chooseThreshold grayscale w h in
     let binary := binarize grayscale threshold in
     let contours := traceContours binary w h in
     bind (call (foldM (process_contour w h) contours [])) (fun shapes =>
     let finalShapes := nonMaxSuppression shapes 0.5 in
     bind now (fun t =>
     ret (mkResult finalShapes (t - startTime)%float w h)))))
    (fun _ =>
     bind now (fun t => ret (mkResult [] (t - startTime)%float w h)))).

End Timed.

(** * Properties *)

(** ** The order of binary64 values

    [PrimFloat] specifies the comparisons through [SFcompare] on the
    decoded value ([FloatAxioms]); the facts used below are derived from
    that specification. *)

Ltac sf_cases :=
  repeat match goal with
         | s : bool |- _ => destruct s
         end;
  simpl;
  repeat match goal with
         | |- context [PosDef.Pos.compare_cont Eq ?a ?b] =>
             change (PosDef.Pos.compare_cont Eq a b) with (Pos.compare a b)
         end;
  repeat match goal with
         | |- context [Z.compare ?a ?b] =>
             destruct (Z.compare_spec a b); simpl
         | |- context [Pos.compare ?a ?b] =>
             destruct (Pos.compare_spec a b); simpl
         end;
  try discriminate; try reflexivity; try tauto;
  try (intros; exfalso; lia); try (intros; discriminate).

Lemma SFcompare_trans a b c r1 r2 :
  SFcompare a b = Some r1 -> SFcompare b c = Some r2 ->
  r1 <> Gt -> r2 <> Gt ->
  SFcompare a c = Some (match r1, r2 with Eq, Eq => Eq | _, _ => Lt end).
Proof.
  destruct r1, r2; try congruence; intros H1 H2 _ _; revert H1 H2;
    destruct a as [sa|sa| |sa ma ea], b as [sb|sb| |sb mb eb],
             c as [sc|sc| |sc mc ec];
    sf_cases.
Qed.

Lemma SFcompare_swap a b r :
  SFcompare a b = Some r -> SFcompare b a = Some (CompOpp r).
Proof.
  destruct a as [sa|sa| |sa ma ea], b as [sb|sb| |sb mb eb]; simpl;
    intros [= <-]; sf_cases.
Qed.

Lemma SFcompare_refl a : a <> S754_nan -> SFcompare a a = Some Eq.
Proof.
  destruct a as [sa|sa| |sa ma ea]; try congruence; intros _; sf_cases.
Qed.

Lemma SFcompare_some a b :
  a <> S754_nan -> b <> S754_nan -> exists r, SFcompare a b = Some r.
Proof. destruct a, b; simpl; try congruence; eauto. Qed.

Lemma SFcompare_not_nan a b r :
  SFcompare a b = Some r -> a <> S754_nan /\ b <> S754_nan.
Proof. destruct a, b; simpl; try discriminate; split; congruence. Qed.

Module FloatOrder.

Definition cmp (a b : float) : option comparison :=
  SFcompare (Prim2SF a) (Prim2SF b).

Lemma ltb_cmp a b : (a <? b)%float = true <-> cmp a b = Some Lt.
Proof.
  rewrite ltb_spec. unfold SFltb, cmp.
  destruct (SFcompare _ _) as [[| |]|]; split; congruence.
Qed.

Lemma leb_cmp a b :
  (a <=? b)%float = true <-> cmp a b = Some Lt \/ cmp a b = Some Eq.
Proof.
  rewrite leb_spec. unfold SFleb, cmp.
  destruct (SFcompare _ _) as [[| |]|]; split;
    try congruence; intuition congruence.
Qed.

Lemma is_nan_spec a : is_nan a = false <-> Prim2SF a <> S754_nan.
Proof.
  unfold is_nan. rewrite eqb_spec. unfold SFeqb. split.
  - intros H E. rewrite E in H. discriminate.
  - intros H. rewrite (SFcompare_refl _ H). reflexivity.
Qed.

Lemma cmp_not_nan a b r :
  cmp a b = Some r -> is_nan a = false /\ is_nan b = false.
Proof.
  intros H. apply SFcompare_not_nan in H. now rewrite !is_nan_spec.
Qed.

Lemma ltb_not_nan a b :
  (a <? b)%float = true -> is_nan a = false /\ is_nan b = false.
Proof. rewrite ltb_cmp. apply cmp_not_nan. Qed.

Lemma leb_not_nan a b :
  (a <=? b)%float = true -> is_nan a = false /\ is_nan b = false.
Proof. rewrite leb_cmp. intros [H|H]; exact (cmp_not_nan _ _ _ H). Qed.

Lemma leb_refl a : is_nan a = false -> (a <=? a)%float = true.
Proof.
  rewrite is_nan_spec, leb_cmp. intros H. right. now apply SFcompare_refl.
Qed.

Lemma ltb_irrefl a : (a <? a)%float = false.
Proof.
  destruct (a <? a)%float eqn:E; [|reflexivity].
  pose proof (proj1 (ltb_not_nan _ _ E)) as N.
  apply ltb_cmp in E. apply is_nan_spec in N.
  unfold cmp in E. rewrite (SFcompare_refl _ N) in E. discriminate.
Qed.

Lemma ltb_leb a b : (a <? b)%float = true -> (a <=? b)%float = true.
Proof. rewrite ltb_cmp, leb_cmp. auto. Qed.

Lemma ltb_trans a b c :
  (a <? b)%float = true -> (b <? c)%float = true -> (a <? c)%float = true.
Proof.
  rewrite !ltb_cmp. unfold cmp. intros H1 H2.
  now rewrite (SFcompare_trans _ _ _ _ _ H1 H2).
Qed.

Lemma leb_ltb_trans a b c :
  (a <=? b)%float = true -> (b <? c)%float = true -> (a <? c)%float = true.
Proof.
  rewrite leb_cmp, !ltb_cmp. unfold cmp. intros [H1|H1] H2;
    now rewrite (SFcompare_trans _ _ _ _ _ H1 H2).
Qed.

Lemma ltb_leb_trans a b c :
  (a <? b)%float = true -> (b <=? c)%float = true -> (a <? c)%float = true.
Proof.
  rewrite leb_cmp, !ltb_cmp. unfold cmp. intros H1 [H2|H2];
    now rewrite (SFcompare_trans _ _ _ _ _ H1 H2).
Qed.

Lemma leb_trans a b c :
  (a <=? b)%float = true -> (b <=? c)%float = true ->
  (a <=? c)%float = true.
Proof.
  rewrite !leb_cmp. unfold cmp. intros [H1|H1] [H2|H2];
    rewrite (SFcompare_trans _ _ _ _ _ H1 H2); auto; congruence.
Qed.

(** Two numbers are comparable unless one is NaN. *)
Lemma not_ltb_leb a b :
  is_nan a = false -> is_nan b = false ->
  (a <? b)%float = false -> (b <=? a)%float = true.
Proof.
  rewrite !is_nan_spec. intros Na Nb H.
  destruct (SFcompare_some _ _ Na Nb) as [r Hr].
  apply leb_cmp. unfold cmp.
  rewrite (SFcompare_swap _ _ _ Hr).
  destruct r; simpl; auto.
  exfalso. assert (T : (a <? b)%float = true) by now apply ltb_cmp.
  congruence.
Qed.

Lemma leb_not_ltb a b :
  (a <=? b)%float = true -> (b <? a)%float = false.
Proof.
  intros H. destruct (b <? a)%float eqn:E; [|reflexivity].
  pose proof (leb_ltb_trans _ _ _ H E) as C.
  now rewrite ltb_irrefl in C.
Qed.

Lemma ltb_asym a b :
  (a <? b)%float = true -> (b <? a)%float = false.
Proof. intros H. apply leb_not_ltb. now apply ltb_leb. Qed.

End FloatOrder.

(** [Math.min] never exceeds its first argument. *)
Lemma Math_min_le_l (cap v : float) :
  is_nan (Math_min cap v) = false -> (Math_min cap v <=? cap)%float = true.
Proof.
  unfold Math_min.
  destruct (is_nan cap || is_nan v) eqn:N; [intros H; discriminate H|].
  apply orb_false_elim in N. destruct N as [Nc Nv]. intros _.
  destruct (v <? cap)%float eqn:E1.
  { now apply FloatOrder.ltb_leb. }
  destruct (cap <? v)%float eqn:E2.
  { now apply FloatOrder.leb_refl. }
  destruct (get_sign cap).
  - now apply FloatOrder.leb_refl.
  - now apply FloatOrder.not_ltb_leb.
Qed.

(** A confidence produced by [Math.min] with a cap of at most 1, once it
    has passed the test [>= 0.55], is at most 1. *)
Lemma capped_confidence (cap v lo : float) :
  (cap <=? 1)%float = true ->
  ge (Math_min cap v) lo = true ->
  (Math_min cap v <=? 1)%float = true.
Proof.
  intros Hc Hlo. unfold ge in Hlo.
  apply FloatOrder.leb_not_nan in Hlo. destruct Hlo as [_ N].
  eapply FloatOrder.leb_trans; [now apply Math_min_le_l | exact Hc].
Qed.

(** ** What the classifier can return *)

Lemma star_confidence_capped approx c :
  star_confidence approx = Some c ->
  exists v, c = Math_min 0.90 v.
Proof.
  unfold star_confidence.
  match goal with
  | |- context [if ?b then Some (Math_min _ ?v) else None] =>
      destruct b; [intros [= <-]; now exists v | discriminate]
  end.
Qed.

Lemma classification_capped ty cap v :
  ty <> square -> (cap <=? 1)%float = true ->
  classification_ok ty (Math_min cap v).
Proof.
  intros Ht Hc. split; [exact Ht|]. intros H.
  now apply capped_confidence with (lo := 0.55%float).
Qed.

Lemma classification_fixed ty :
  ty <> square -> classification_ok ty 0.60.
Proof. intros Ht. split; [exact Ht | reflexivity]. Qed.

Ltac classified :=
  first [ apply classification_capped; [discriminate | reflexivity]
        | apply classification_fixed; discriminate ].

Lemma classifyShapeAdvanced_ok approx area perimeter bbox ty conf :
  classifyShapeAdvanced approx area perimeter bbox = Some (ty, conf) ->
  classification_ok ty conf.
Proof.
  unfold classifyShapeAdvanced. cbv zeta.
  repeat match goal with
         | |- context [match star_confidence ?a with _ => _ end] =>
             let E := fresh "E" in
             destruct (star_confidence a) eqn:E;
             [apply star_confidence_capped in E; destruct E as [? ->]|]
         | |- (if ?b then _ else _) = _ -> _ => destruct b
         end;
    try discriminate; intros [= <- <-]; classified.
Qed.

(** ** Invariants of the candidate selector *)

Lemma foldM_invariant {A B : Type} (P : A -> Prop)
    (f : A -> B -> Completion A) :
  (forall a b a', P a -> f a b = Normal a' -> P a') ->
  forall l a a', P a -> foldM f l a = Normal a' -> P a'.
Proof.
  intros Hf. induction l as [|b l IH]; simpl; intros a a' Ha H.
  - now inversion H; subst.
  - destruct (f a b) as [a1|e] eqn:E; simpl in H; [|discriminate].
    eapply IH; [|exact H]. eapply Hf; eauto.
Qed.

Lemma try_tolerance_ok contour area perimeter best eps best' :
  best_ok best ->
  try_tolerance contour area perimeter best eps = Normal best' ->
  best_ok best'.
Proof.
  intros Hb. unfold try_tolerance.
  destruct (approximatePolygon _ _) as [approx|]; [|discriminate].
  destruct (length approx <? 3)%nat; [now intros [= <-]|].
  destruct (classifyShapeAdvanced _ _ _ _) as [[ty conf]|] eqn:E;
    [|now intros [= <-]].
  destruct (gt _ _); intros [= <-]; [|exact Hb].
  unfold best_ok; simpl. eapply classifyShapeAdvanced_ok; eauto.
Qed.

Lemma process_contour_ok w h shapes contour shapes' :
  Forall shape_ok shapes ->
  process_contour w h shapes contour = Normal shapes' ->
  Forall shape_ok shapes'.
Proof.
  intros Hs. unfold process_contour.
  destruct (length contour <? 10)%nat; [now intros [= <-]|].
  destruct (_ || _); [now intros [= <-]|].
  destruct (_ <? 0.15)%float; [now intros [= <-]|].
  destruct (foldM _ _ _) as [best|e] eqn:E; simpl; [|discriminate].
  assert (Hb : best_ok best).
  { eapply (foldM_invariant best_ok); [|exact (I : best_ok (None, 0%float))|exact E].
    intros; eapply try_tolerance_ok; eauto. }
  unfold best_ok in Hb.
  destruct (fst best) as [[[ty conf] approx]|]; [|now intros [= <-]].
  destruct (ge conf 0.55) eqn:G; intros [= <-]; [|exact Hs].
  apply Forall_app; split; [exact Hs|].
  constructor; [|constructor].
  destruct Hb as [Ht Hc]. unfold shape_ok; simpl. auto.
Qed.

(** ** The suppression returns shapes it was given *)

Lemma insert_In {A} (before : A -> A -> bool) a x l :
  In x (insert before a l) <-> x = a \/ In x l.
Proof.
  induction l as [|b l IH]; simpl.
  - intuition.
  - destruct (before b a); simpl; rewrite ?IH; intuition.
Qed.

Lemma sort_In {A} (before : A -> A -> bool) x l :
  In x (sort before l) <-> In x l.
Proof.
  unfold sort. induction l as [|a l IH]; simpl; [tauto|].
  rewrite insert_In, IH. intuition.
Qed.

Lemma nms_loop_In rounds thr s :
  forall sorted keep,
    In s (nms_loop rounds thr sorted keep) -> In s sorted \/ In s keep.
Proof.
  induction rounds as [|n IH]; intros sorted keep; simpl.
  - destruct sorted; auto.
  - destruct sorted as [|current rest]; [auto|].
    intros H. apply IH in H. destruct H as [H|H].
    + unfold nms_survivors in H. apply filter_In in H. simpl. tauto.
    + apply in_app_or in H. simpl in *. tauto.
Qed.

Lemma nonMaxSuppression_In shapes thr s :
  In s (nonMaxSuppression shapes thr) -> In s shapes.
Proof.
  unfold nonMaxSuppression. destruct shapes as [|s0 l]; [tauto|].
  intros H. apply nms_loop_In in H. destruct H as [H|[]].
  now apply sort_In in H.
Qed.

Lemma detect_body_ok img finalShapes :
  detect_body img = Normal finalShapes -> Forall shape_ok finalShapes.
Proof.
  unfold detect_body.
  destruct (toGrayscale _ _ _) as [g|]; simpl; [|discriminate].
  destruct (foldM _ _ _) as [shapes|] eqn:E; simpl; [|discriminate].
  intros [= <-].
  assert (Hs : Forall shape_ok shapes).
  { eapply (foldM_invariant (Forall shape_ok)); [|constructor|exact E].
    intros; eapply process_contour_ok; eauto. }
  rewrite Forall_forall in *. intros s Hin.
  apply Hs. eapply nonMaxSuppression_In; eauto.
Qed.

Lemma detectShapes_ok img c :
  Forall shape_ok (shapes (fst (detectShapes img c))).
Proof.
  unfold detectShapes. simpl.
  destruct (detect_body img) as [finalShapes|e] eqn:E; simpl.
  - eapply detect_body_ok; eauto.
  - constructor.
Qed.

(** C3.  Every shape of a result of [detectShapes] has a confidence of at
    least 0.55 and at most 1.0. *)
Theorem detectShapes_confidence_bounds (imageData : ImageData) (c : Clock) :
  Forall
    (fun s =>
       (0.55 <=? confidence s)%float = true
       /\ (confidence s <=? 1.0)%float = true)
    (shapes (fst (detectShapes imageData c))).
Proof.
  eapply Forall_impl; [|apply detectShapes_ok].
  intros s (_ & Hlo & Hhi). split; assumption.
Qed.


(** ** Determinism and the clock *)

(** [detectShapes] reads the clock twice and reports the difference of
    the readings, whatever the image. *)
Lemma detectShapes_fields img c :
  let r := fst (detectShapes img c) in
  processingTime r = elapsed c
  /\ imageWidth r = width img /\ imageHeight r = height img
  /\ shapes r = match detect_body img with
                | Normal finalShapes => finalShapes
                | Throw _ => []
                end.
Proof.
  unfold detectShapes, elapsed. simpl.
  destruct (detect_body img); simpl; auto.
Qed.


(** A call of [detectShapes] returns: what a stage throws is caught.  It
    takes two readings, at its start and when it builds its result, and
    the shapes it reports are those of the [try] block, or none when a
    stage has thrown. *)
Lemma detectShapes_run img c :
  Timed.detectShapes img c
  = (Normal (mkResult
               (match detect_body img with
                | Normal finalShapes => finalShapes
                | Throw _ => []
                end)
               (elapsed c) (width img) (height img)),
     mkClock (reading c) (S (S (taken c)))).
Proof.
  unfold Timed.detectShapes, Timed.bind, Timed.try_catch, Timed.call,
    Timed.now, Timed.ret, detect_body, elapsed, performance_now.
  cbn [reading taken].
  destruct (toGrayscale (data img) (width img) (height img))
    as [grayscale|e]; cbn [bind]; [|reflexivity].
  destruct (foldM _ _ _) as [shapes|e]; reflexivity.
Qed.

(** The statements on the clock and the function of the image and the
    clock are one program. *)
Lemma detectShapes_timed img c :
  Timed.detectShapes img c
  = (Normal (fst (detectShapes img c)), snd (detectShapes img c)).
Proof.
  rewrite detectShapes_run. unfold detectShapes, elapsed, performance_now.
  cbn [reading taken].
  destruct (detect_body img); reflexivity.
Qed.


(** ** Failures and ill-formed buffers *)

Lemma upto_nonpos n : n <= 0 -> upto n = [].
Proof.
  intros H. unfold upto. destruct n; try lia; reflexivity.
Qed.

Lemma interior_pixels_empty w h : w * h = 0 -> interior_pixels w h = [].
Proof.
  intros H. unfold interior_pixels.
  assert (C : w = 0 \/ h = 0) by lia. destruct C as [-> | ->].
  - simpl. induction (upto (h - 2)); simpl; auto.
  - reflexivity.
Qed.

Lemma detect_body_empty img :
  width img * height img = 0 -> detect_body img = Normal [].
Proof.
  intros H. unfold detect_body, toGrayscale, traceContours.
  rewrite H, interior_pixels_empty by exact H. reflexivity.
Qed.

(** C4, as stated, fails: a buffer that misses the bytes of its last row
    is ill-formed, and the square drawn in the rows it has is reported. *)
Lemma malformed_buffer_counterexample :
  ~ well_formed outline_missing_row
  /\ shapes (fst (detectShapes outline_missing_row clock0)) <> [].
Proof.
  split.
  - unfold well_formed. vm_compute. intros (_ & _ & H). discriminate H.
  - vm_compute. discriminate.
Qed.

(** C4, amended.  [detectShapes] always returns a result whose
    imageWidth and imageHeight are the input's and whose processingTime
    is the elapsed time; when a stage of the pipeline throws, and when
    the buffer is empty, the shapes list of that result is empty.  (An
    ill-formed buffer is not rejected.) *)
Theorem detectShapes_failure_result (imageData : ImageData) (c : Clock) :
  let r := fst (detectShapes imageData c) in
  (imageWidth r = width imageData
   /\ imageHeight r = height imageData
   /\ processingTime r = elapsed c)
  /\ ((exists e, detect_body imageData = Throw e) -> shapes r = [])
  /\ (width imageData * height imageData = 0 -> shapes r = []).
Proof.
  intros r.
  destruct (detectShapes_fields imageData c) as (T & W & H & S).
  fold r in T, W, H, S. repeat split; auto.
  - intros [e E]. now rewrite S, E.
  - intros Z. now rewrite S, (detect_body_empty _ Z).
Qed.

(** A buffer whose size is negative makes the first allocation throw;
    the result is the empty one. *)
Lemma detectShapes_failure_result_witness :
  (exists e, detect_body (mkImage (-1) 1 []) = Throw e)
  /\ shapes (fst (detectShapes (mkImage (-1) 1 []) clock0)) = [].
Proof.
  assert (E : exists e, detect_body (mkImage (-1) 1 []) = Throw e)
    by (exists RangeError_length; reflexivity).
  split; [exact E|].
  exact (proj1 (proj2 (detectShapes_failure_result
                         (mkImage (-1) 1 []) clock0)) E).
Defined.

(** ** Binarisation *)

Lemma count_below_filter grayscale t :
  count_below grayscale t
  = Z.of_nat (length (filter (below t) grayscale)).
Proof.
  unfold count_below.
  assert (G : forall l n,
             fold_left
               (fun n g => if (g <? of_Z t)%float then n + 1 else n) l n
             = n + Z.of_nat (length (filter (below t) l))).
  { induction l as [|g l IH]; intros n; simpl; [lia|].
    rewrite IH. unfold below at 2. destruct (g <? of_Z t)%float; simpl; lia. }
  now rewrite G.
Qed.

Lemma toGrayscale_length data w h grayscale :
  toGrayscale data w h = Normal grayscale ->
  Z.of_nat (length grayscale) = w * h.
Proof.
  unfold toGrayscale. destruct (w * h <? 0) eqn:E; [discriminate|].
  intros [= <-]. unfold upto. rewrite !length_map, length_seq. lia.
Qed.

Lemma binarize_nth grayscale threshold i g :
  nth_error grayscale i = Some g ->
  nth_error (binarize grayscale threshold) i
  = Some (if below threshold g then 255 else 0).
Proof.
  intros H. unfold binarize. rewrite nth_error_map, H. reflexivity.
Qed.

(** C6.  In the binarisation stage the Otsu threshold is used when the
    fraction of pixels whose luminance is below it lies strictly between
    0.05 and 0.50, and the fixed threshold 128 otherwise; a pixel is
    foreground (255) in the mask that is traced if and only if its
    luminance is strictly below the chosen threshold. *)
Theorem binarization_rule (imageData : ImageData) (grayscale : list float) :
  toGrayscale (data imageData) (width imageData) (height imageData)
  = Normal grayscale ->
  let otsu := otsuThreshold grayscale in
  let fraction :=
    (of_nat (length (filter (below otsu) grayscale))
     / of_nat (length grayscale))%float in
  let threshold :=
    if gt fraction 0.05 && (fraction <? 0.50)%float then otsu else 128 in
  let binary := binarize grayscale threshold in
  detect_body imageData
  = (shapes <- foldM (process_contour (width imageData) (height imageData))
                 (traceContours binary (width imageData) (height imageData))
                 [] ;;
     Normal (nonMaxSuppression shapes 0.5))
  /\ length binary = length grayscale
  /\ forall i g,
       nth_error grayscale i = Some g ->
       exists b,
         nth_error binary i = Some b
         /\ (b = 255 \/ b = 0)
         /\ (b = 255 <-> (g <? of_Z threshold)%float = true).
Proof.
  intros G otsu fraction threshold binary.
  assert (T : chooseThreshold grayscale (width imageData) (height imageData)
              = threshold).
  { unfold chooseThreshold, otsuRatio, threshold, fraction, otsu, of_nat.
    now rewrite count_below_filter, (toGrayscale_length _ _ _ _ G). }
  split; [|split].
  - unfold detect_body. rewrite G. simpl. now rewrite T.
  - apply length_map.
  - intros i g H. unfold binary. rewrite (binarize_nth _ _ _ _ H).
    unfold below.
    destruct (g <? of_Z threshold)%float; eexists; split; try reflexivity;
      split; auto; split; congruence.
Qed.

Lemma binarization_rule_witness :
  toGrayscale (data one_pixel) (width one_pixel) (height one_pixel)
  = Normal [0%float]
  /\ length (binarize [0%float] 128) = 1%nat.
Proof.
  assert (G : toGrayscale (data one_pixel) (width one_pixel)
                (height one_pixel) = Normal [0%float])
    by (vm_compute; reflexivity).
  split; [exact G|].
  exact (proj1 (proj2 (binarization_rule one_pixel [0%float] G))).
Defined.

(** ** Non-maximum suppression *)

Lemma calculateIoU_sym a b : calculateIoU a b = calculateIoU b a.
Proof.
  unfold calculateIoU.
  rewrite (Z.max_comm (bb_x a)), (Z.max_comm (bb_y a)),
    (Z.min_comm (bb_x a + _)), (Z.min_comm (bb_y a + _)),
    (Z.add_comm (bb_width a * _)).
  reflexivity.
Qed.

Lemma ForallOrdPairs_snoc {A} (R : A -> A -> Prop) l a :
  ForallOrdPairs R l -> Forall (fun b => R b a) l ->
  ForallOrdPairs R (l ++ [a]).
Proof.
  induction 1 as [|b l Hb Hl IH]; simpl; intros Ha.
  - constructor; constructor.
  - inversion Ha; subst. constructor.
    + apply Forall_app; split; [exact Hb | now constructor].
    + now apply IH.
Qed.

(** The invariant of the [while] loop: the shapes kept are pairwise
    apart, and every shape still in [sorted] is apart from each of
    them. *)
Lemma nms_loop_apart thr rounds :
  forall sorted keep,
    ForallOrdPairs (apart thr) keep ->
    Forall (fun k => Forall (apart thr k) sorted) keep ->
    ForallOrdPairs (apart thr) (nms_loop rounds thr sorted keep).
Proof.
  induction rounds as [|n IH]; intros sorted keep Hk Hs; simpl.
  - destruct sorted; exact Hk.
  - destruct sorted as [|current rest]; [exact Hk|].
    apply IH.
    + apply ForallOrdPairs_snoc; [exact Hk|].
      eapply Forall_impl; [|exact Hs].
      intros k H. now inversion H.
    + apply Forall_app; split.
      * eapply Forall_impl; [|exact Hs].
        intros k H. inversion H; subst.
        unfold nms_survivors. apply Forall_forall; intros s Hin;
        apply filter_In in Hin; destruct Hin as [Hin _];
        rewrite Forall_forall in H3; now apply H3.
      * constructor; [|constructor].
        unfold nms_survivors. apply Forall_forall.
        intros s Hin. apply filter_In in Hin. destruct Hin as [_ Hin].
        unfold apart. now apply negb_true_iff in Hin.
Qed.

Lemma ForallOrdPairs_nth {A} (R : A -> A -> Prop) l :
  ForallOrdPairs R l ->
  forall i j a b,
    (i < j)%nat -> nth_error l i = Some a -> nth_error l j = Some b ->
    R a b.
Proof.
  induction 1 as [|x l Hx Hl IH]; intros i j a b Hij Ha Hb.
  - destruct i; discriminate.
  - destruct j as [|j]; [lia|]. simpl in Hb. destruct i as [|i]; simpl in Ha.
    + inversion Ha; subst. rewrite Forall_forall in Hx.
      apply Hx. eapply nth_error_In; eauto.
    + eapply IH; [|exact Ha|exact Hb]. lia.
Qed.

Lemma nonMaxSuppression_apart shapes thr :
  ForallOrdPairs (apart thr) (nonMaxSuppression shapes thr).
Proof.
  unfold nonMaxSuppression. destruct shapes as [|s l]; [constructor|].
  apply nms_loop_apart; constructor.
Qed.

(** The rounds allowed to the [while] loop are enough: more rounds change
    nothing. *)
Lemma nms_loop_rounds thr :
  forall rounds rounds' sorted keep,
    (length sorted <= rounds)%nat -> (length sorted <= rounds')%nat ->
    nms_loop rounds thr sorted keep = nms_loop rounds' thr sorted keep.
Proof.
  induction rounds as [|n IH]; intros [|n'] sorted keep H H';
    destruct sorted as [|current rest]; simpl in *; try lia; try reflexivity.
  apply IH.
  - unfold nms_survivors.
    pose proof (filter_length_le
                  (fun s => negb (gt (calculateIoU (boundingBox current)
                                        (boundingBox s)) thr)) rest). lia.
  - unfold nms_survivors.
    pose proof (filter_length_le
                  (fun s => negb (gt (calculateIoU (boundingBox current)
                                        (boundingBox s)) thr)) rest). lia.
Qed.

(** C2.  In the shapes list of a result of [detectShapes] no two distinct
    shapes have bounding boxes whose IoU (intersection area over union
    area, 0 when the union is empty) is greater than 0.5. *)
Theorem detectShapes_no_overlap (imageData : ImageData) (c : Clock)
    (i j : nat) (a b : DetectedShape) :
  i <> j ->
  nth_error (shapes (fst (detectShapes imageData c))) i = Some a ->
  nth_error (shapes (fst (detectShapes imageData c))) j = Some b ->
  gt (calculateIoU (boundingBox a) (boundingBox b)) 0.5 = false.
Proof.
  intros Hij Ha Hb.
  assert (P : ForallOrdPairs (apart 0.5)
                (shapes (fst (detectShapes imageData c)))).
  { destruct (detectShapes_fields imageData c) as (_ & _ & _ & S).
    rewrite S. unfold detect_body.
    destruct (toGrayscale _ _ _); simpl; [|constructor].
    destruct (foldM _ _ _); simpl; [|constructor].
    apply nonMaxSuppression_apart. }
  destruct (Nat.lt_total i j) as [L|[E|L]]; [|contradiction|].
  - exact (ForallOrdPairs_nth _ _ P i j a b L Ha Hb).
  - rewrite calculateIoU_sym.
    exact (ForallOrdPairs_nth _ _ P j i b a L Hb Ha).
Qed.

Lemma detectShapes_no_overlap_witness :
  exists a b,
    nth_error (shapes (fst (detectShapes two_outlines clock0))) 0 = Some a
    /\ nth_error (shapes (fst (detectShapes two_outlines clock0))) 1 = Some b
    /\ gt (calculateIoU (boundingBox a) (boundingBox b)) 0.5 = false.
Proof.
  assert (E : exists a b,
             shapes (fst (detectShapes two_outlines clock0)) = [a; b])
    by (vm_compute; eauto).
  destruct E as (a & b & E).
  exists a, b.
  assert (Ha : nth_error (shapes (fst (detectShapes two_outlines clock0))) 0
               = Some a) by now rewrite E.
  assert (Hb : nth_error (shapes (fst (detectShapes two_outlines clock0))) 1
               = Some b) by now rewrite E.
  split; [exact Ha|]. split; [exact Hb|].
  apply (detectShapes_no_overlap two_outlines clock0 0 1 a b);
    [discriminate | exact Ha | exact Hb].
Defined.

(** ** Contour extraction *)

(** C7 fails on the code.  The walk of [borderFollowing] marks the pixels
    it visits but never consults the marks, so a later walk crosses the
    pixels of an earlier one: on the mask of [stroke_image] the two
    contours traced share the pixel (6, 1). *)
Lemma traceContours_shared_pixel :
  (exists grayscale,
      toGrayscale (data stroke_image) 9 8 = Normal grayscale
      /\ binarize grayscale (chooseThreshold grayscale 9 8) = stroke_mask)
  /\ exists c1 c2,
      traceContours stroke_mask 9 8 = [c1; c2]
      /\ In (mkPoint 6 1) c1 /\ In (mkPoint 6 1) c2.
Proof.
  split.
  - eexists. split; [vm_compute; reflexivity|]. vm_compute. reflexivity.
  - do 2 eexists. split; [vm_compute; reflexivity|]. simpl. tauto.
Qed.

(** ** Polygon simplification *)


Lemma farthest_scan points s e :
  farthest points s e
  = scan (map (fun i => (span_dist points s e i, i))
            (seq (s + 1) (e - s - 1))) (0%float, s).
Proof.
  unfold farthest, scan. generalize (0%float, s).
  induction (seq (s + 1) (e - s - 1)) as [|i l IH]; intros st; simpl.
  - reflexivity.
  - rewrite IH. destruct st as [M mi]. reflexivity.
Qed.

Lemma scan_cons d i l M0 i0 :
  scan ((d, i) :: l) (M0, i0)
  = scan l (if gt d M0 then (d, i) else (M0, i0)).
Proof. reflexivity. Qed.

Lemma scan_cases l :
  forall M0 i0 M m,
    scan l (M0, i0) = (M, m) ->
    (M = M0 /\ m = i0) \/ (In (M, m) l /\ (M0 <? M)%float = true).
Proof.
  induction l as [|[d i] l IH]; intros M0 i0 M m.
  - simpl. intros [= <- <-]. auto.
  - rewrite scan_cons. unfold gt.
    destruct (M0 <? d)%float eqn:E; intros H; apply IH in H.
    + destruct H as [[-> ->]|[H1 H2]]; right; split;
        [now left | exact E | now right |].
      eapply FloatOrder.ltb_trans; eauto.
    + destruct H as [[-> ->]|[H1 H2]]; [now left|].
      right. split; [now right | exact H2].
Qed.

Lemma farthest_cases points s e M m :
  farthest points s e = (M, m) ->
  (M = 0%float /\ m = s)
  \/ ((s < m < e)%nat /\ M = span_dist points s e m
      /\ (0 <? M)%float = true).
Proof.
  rewrite farthest_scan. intros H. apply scan_cases in H.
  destruct H as [H|[H1 H2]]; [auto|right].
  apply in_map_iff in H1. destruct H1 as (i & [= <- <-] & Hi).
  apply in_seq in Hi. repeat split; auto; lia.
Qed.

Lemma rdp_returns points eps :
  (eps <? 0)%float = false ->
  forall depth s e, (e - s < depth)%nat ->
    exists r, rdp depth points s e eps = Some r.
Proof.
  intros Heps. induction depth as [|d IH]; intros s e H; [lia|].
  simpl. destruct (e - s <? 2)%nat eqn:E; [eauto|].
  apply Nat.ltb_ge in E.
  destruct (farthest points s e) as [M m] eqn:F.
  destruct (gt M eps) eqn:G; [|eauto].
  apply farthest_cases in F. destruct F as [[-> ->]|(Hm & _ & _)].
  { unfold gt in G. congruence. }
  destruct (IH s m) as [l ->]; [lia|].
  destruct (IH m e) as [r ->]; [lia|]. eauto.
Qed.

Lemma rdp_unfold d points s e eps :
  rdp (S d) points s e eps
  = if (e - s <? 2)%nat then Some [pt points s]
    else
      let '(maxDist, maxIndex) := farthest points s e in
      if gt maxDist eps then
        match rdp d points s maxIndex eps with
        | None => None
        | Some lft =>
            match rdp d points maxIndex e eps with
            | None => None
            | Some rgt => Some (lft ++ rgt)
            end
        end
      else Some [pt points s].
Proof. reflexivity. Qed.

Lemma rdp_mono points eps :
  forall d s e r, rdp d points s e eps = Some r ->
    rdp (S d) points s e eps = Some r.
Proof.
  induction d as [|d IH]; intros s e r; [discriminate|].
  intros H. rewrite rdp_unfold in H. rewrite (rdp_unfold (S d)).
  destruct (e - s <? 2)%nat; [exact H|].
  destruct (farthest points s e) as [M m].
  destruct (gt M eps); [|exact H].
  destruct (rdp d points s m eps) as [l|] eqn:L; [|discriminate].
  destruct (rdp d points m e eps) as [r'|] eqn:R; [|discriminate].
  now rewrite (IH _ _ _ L), (IH _ _ _ R).
Qed.

Lemma rdp_mono_le points eps d d' s e r :
  (d <= d')%nat -> rdp d points s e eps = Some r ->
  rdp d' points s e eps = Some r.
Proof.
  intros Hle Hr. induction Hle; auto. apply rdp_mono. auto.
Qed.

Lemma rdp_nonempty points eps :
  forall d s e r, rdp d points s e eps = Some r -> r <> [].
Proof.
  induction d as [|d IH]; intros s e r; [discriminate|]. simpl.
  destruct (e - s <? 2)%nat; [intros [= <-]; discriminate|].
  destruct (farthest points s e) as [M m].
  destruct (gt M eps); [|intros [= <-]; discriminate].
  destruct (rdp d points s m eps) as [l|] eqn:L; [|discriminate].
  destruct (rdp d points m e eps) as [r'|] eqn:R; [|discriminate].
  intros [= <-]. apply IH in L. destruct l; [congruence|discriminate].
Qed.

(** A recursion that returns makes progress: the point that splits a span
    is not its start point. *)
Lemma rdp_no_stall points eps d s e r M m :
  rdp d points s e eps = Some r ->
  (e - s <? 2)%nat = false ->
  farthest points s e = (M, m) -> gt M eps = true -> m <> s.
Proof.
  intros H E F G ->. destruct d as [|d]; [discriminate|].
  pose proof H as H'. simpl in H. rewrite E, F, G in H.
  destruct (rdp d points s s eps) as [l|] eqn:L; [|discriminate].
  destruct (rdp d points s e eps) as [r'|] eqn:R; [|discriminate].
  apply rdp_mono in R. rewrite R in H'. inversion H'; subst r'.
  inversion H as [H1]. apply rdp_nonempty in L.
  apply (f_equal (@length _)) in H1. rewrite length_app in H1.
  destruct l; [congruence|simpl in H1; lia].
Qed.

(** A recursion that returns is no deeper than its span is long. *)
Lemma rdp_depth_enough points eps :
  forall d s e r, rdp d points s e eps = Some r ->
    forall d', (e - s < d')%nat -> rdp d' points s e eps = Some r.
Proof.
  induction d as [|d IH]; intros s e r H d' Hd; [discriminate|].
  pose proof H as H0.
  destruct d' as [|d']; [lia|]. simpl in H |- *.
  destruct (e - s <? 2)%nat eqn:E; [exact H|].
  destruct (farthest points s e) as [M m] eqn:F.
  destruct (gt M eps) eqn:G; [|exact H].
  pose proof (rdp_no_stall _ _ _ _ _ _ _ _ H0 E F G) as N.
  apply farthest_cases in F. destruct F as [[_ ->]|(Hm & _ & _)]; [congruence|].
  destruct (rdp d points s m eps) as [l|] eqn:L; [|discriminate].
  destruct (rdp d points m e eps) as [r'|] eqn:R; [|discriminate].
  rewrite (IH _ _ _ L), (IH _ _ _ R) by lia. exact H.
Qed.

(** *** Scanning a thinned span *)

Lemma scan_lower l :
  forall M1 i1 d i M m,
    (M1 <=? d)%float = true ->
    scan l (d, i) = (M, m) -> m <> i ->
    scan l (M1, i1) = (M, m).
Proof.
  induction l as [|[y j] l IH]; intros M1 i1 d i M m Hle H Hm.
  - simpl in H. inversion H; subst. congruence.
  - rewrite scan_cons in H |- *. unfold gt in *.
    destruct (d <? y)%float eqn:E.
    + now rewrite (FloatOrder.leb_ltb_trans _ _ _ Hle E).
    + destruct (M1 <? y)%float eqn:E1.
      * apply (IH y j d i); auto.
        destruct (FloatOrder.ltb_not_nan _ _ E1) as [_ Ny].
        destruct (FloatOrder.leb_not_nan _ _ Hle) as [_ Nd].
        now apply FloatOrder.not_ltb_leb.
      * apply (IH M1 i1 d i); auto.
Qed.

Lemma scan_thinned m l' l :
  thinned (fun x : float * nat => snd x = m) l' l ->
  forall st M, scan l st = (M, m) -> scan l' st = (M, m).
Proof.
  induction 1 as [|[d i] l' l T IH|[d i] l' l N T IH]; intros [M0 i0] M H.
  - exact H.
  - rewrite scan_cons in H |- *. now apply IH.
  - rewrite scan_cons in H. apply IH. unfold gt in H. simpl in N.
    destruct (M0 <? d)%float eqn:E; [|exact H].
    apply (scan_lower l M0 i0 d i); auto.
    now apply FloatOrder.ltb_leb.
Qed.

Lemma thinned_map {A B} (f : A -> B) (keepA : A -> Prop) (keepB : B -> Prop)
    l' l :
  (forall x, keepB (f x) -> keepA x) ->
  thinned keepA l' l -> thinned keepB (map f l') (map f l).
Proof.
  intros Hk. induction 1; simpl; constructor; auto.
Qed.

(** A strictly increasing list of indices inside a range is the range
    thinned. *)
Lemma thinned_seq m :
  forall n a K,
    StronglySorted lt K ->
    Forall (fun k => a <= k < a + n)%nat K ->
    (In m K \/ ~ (a <= m < a + n)%nat) ->
    thinned (fun i => i = m) K (seq a n).
Proof.
  induction n as [|n IH]; intros a K HS HR Hm; simpl.
  - destruct K as [|k K]; [constructor|].
    inversion HR; subst. lia.
  - destruct K as [|k K].
    + apply thinned_skip; [|apply IH; auto].
      * destruct Hm as [[]|Hm]. lia.
      * destruct Hm as [[]|Hm]. right. lia.
    + inversion HS as [|? ? HS' HF]; subst. inversion HR as [|? ? Hk HR']; subst.
      destruct (Nat.eq_dec k a) as [->|Hne].
      * apply thinned_cons. apply IH; auto.
        -- rewrite Forall_forall in *. intros x Hx.
           specialize (HF x Hx). specialize (HR' x Hx). lia.
        -- destruct Hm as [[->|Hm]|Hm]; [right; lia|now left|right; lia].
      * apply thinned_skip.
        -- destruct Hm as [[->|Hm]|Hm]; [lia| |lia].
           rewrite Forall_forall in HF. specialize (HF m Hm). lia.
        -- apply IH; auto.
           ++ constructor; [lia|].
              rewrite Forall_forall in *. intros x Hx.
              specialize (HF x Hx). specialize (HR' x Hx). lia.
           ++ destruct Hm as [Hm|Hm]; [now left|right; lia].
Qed.

(** *** The indices kept by [rdp] *)

Lemma rdp_indices_spec points eps :
  forall d s e,
    rdp d points s e eps
    = option_map (map (pt points)) (rdp_indices d points s e eps).
Proof.
  induction d as [|d IH]; intros s e; simpl; [reflexivity|].
  destruct (e - s <? 2)%nat; [reflexivity|].
  destruct (farthest points s e) as [M m].
  destruct (gt M eps); [|reflexivity].
  rewrite !IH.
  destruct (rdp_indices d points s m eps) as [l|]; simpl; [|reflexivity].
  destruct (rdp_indices d points m e eps) as [r|]; simpl; [|reflexivity].
  now rewrite map_app.
Qed.

Lemma StronglySorted_lt_app l1 l2 :
  StronglySorted lt l1 -> StronglySorted lt l2 ->
  (forall x y, In x l1 -> In y l2 -> (x < y)%nat) ->
  StronglySorted lt (l1 ++ l2).
Proof.
  induction 1 as [|x l1 H1 IH F]; simpl; intros H2 H; [exact H2|].
  constructor.
  - apply IH; auto.
  - apply Forall_app. split; [exact F|].
    apply Forall_forall. intros y Hy. apply H; auto.
Qed.

(** The indices kept for a span start with its start index, increase
    strictly and stay below its end index. *)
Lemma rdp_indices_kept points eps :
  forall d s e I,
    (s < e)%nat -> rdp_indices d points s e eps = Some I ->
    hd_error I = Some s /\ StronglySorted lt I
    /\ Forall (fun i => s <= i < e)%nat I.
Proof.
  induction d as [|d IH]; intros s e I Hse H; [discriminate|].
  assert (B : hd_error [s] = Some s /\ StronglySorted lt [s]
              /\ Forall (fun i => s <= i < e)%nat [s]).
  { repeat split; repeat constructor; lia. }
  pose proof (rdp_indices_spec points eps (S d) s e) as R.
  rewrite H in R. simpl option_map in R.
  simpl in H.
  destruct (e - s <? 2)%nat eqn:E; [inversion H; subst; exact B|].
  destruct (farthest points s e) as [M m] eqn:F.
  destruct (gt M eps) eqn:G; [|inversion H; subst; exact B].
  pose proof (rdp_no_stall _ _ _ _ _ _ _ _ R E F G) as N.
  apply farthest_cases in F. destruct F as [[_ ->]|(Hm & _ & _)]; [congruence|].
  destruct (rdp_indices d points s m eps) as [l|] eqn:L; [|discriminate].
  destruct (rdp_indices d points m e eps) as [r|] eqn:Rr; [|discriminate].
  inversion H; subst I.
  destruct (IH _ _ _ (proj1 Hm) L) as (Hl & Sl & Fl).
  destruct (IH _ _ _ (proj2 Hm) Rr) as (Hr & Sr & Fr).
  rewrite Forall_forall in Fl, Fr.
  split; [|split].
  - destruct l; [discriminate|exact Hl].
  - apply StronglySorted_lt_app; auto.
    intros x y Hx Hy. specialize (Fl x Hx). specialize (Fr y Hy). lia.
  - apply Forall_app. split; apply Forall_forall; intros x Hx.
    + specialize (Fl x Hx). lia.
    + specialize (Fr x Hx). lia.
Qed.

(** *** The same scan under other labels *)

Lemma scan_relabel (X : list (float * nat * nat)) :
  forall M0 i0 j0 M m,
    scan (map (fun '(d, i, _) => (d, i)) X) (M0, i0) = (M, m) ->
    exists m',
      scan (map (fun '(d, _, j) => (d, j)) X) (M0, j0) = (M, m')
      /\ ((M, m, m') = (M0, i0, j0) \/ In (M, m, m') X).
Proof.
  induction X as [|[[d i] j] X IH]; intros M0 i0 j0 M m H.
  - simpl in H. inversion H; subst. exists j0. simpl. auto.
  - simpl map in *. rewrite scan_cons in H. rewrite scan_cons.
    destruct (gt d M0).
    + destruct (IH _ _ j _ _ H) as (m' & Hs & Hin).
      exists m'. split; [exact Hs|]. right.
      destruct Hin as [Hin|Hin]; [left; congruence|now right].
    + destruct (IH _ _ j0 _ _ H) as (m' & Hs & Hin).
      exists m'. split; [exact Hs|].
      destruct Hin as [Hin|Hin]; [now left|right; now right].
Qed.

Lemma seq_from a n : seq (a + 1) n = map (fun k => a + k)%nat (seq 1 n).
Proof.
  generalize 1%nat. induction n as [|n IH]; intros b; simpl.
  - reflexivity.
  - f_equal. rewrite <- IH. f_equal. lia.
Qed.

Lemma tl_as_nth (I : list nat) :
  tl I = map (fun k => nth k I 0%nat) (seq 1 (length I - 1)).
Proof.
  destruct I as [|x I]; [reflexivity|]. simpl.
  rewrite Nat.sub_0_r. rewrite <- seq_shift, map_map. simpl.
  clear x. induction I as [|y I IH]; simpl; [reflexivity|].
  f_equal. rewrite <- seq_shift, map_map. exact IH.
Qed.

Lemma StronglySorted_lt_nth_inj I :
  StronglySorted lt I ->
  forall k k', (k < length I)%nat -> (k' < length I)%nat ->
    nth k I 0%nat = nth k' I 0%nat -> k = k'.
Proof.
  induction 1 as [|x I S IH F]; intros k k' Hk Hk' E; simpl in *; [lia|].
  rewrite Forall_forall in F.
  destruct k as [|k], k' as [|k']; auto.
  - assert (In (nth k' I 0%nat) I) by (apply nth_In; lia).
    specialize (F _ H). lia.
  - assert (In (nth k I 0%nat) I) by (apply nth_In; lia).
    specialize (F _ H). lia.
  - f_equal. apply IH; auto; lia.
Qed.

(** *** Simplifying a simplified span *)

(** The farthest point of a span is found again, at its new position,
    after the span has been reduced to a strictly increasing selection
    [I] of its points that contains it. *)
Lemma farthest_selected points s e M m I c (Q : list Point) a :
  farthest points s e = (M, m) -> m <> s ->
  hd_error I = Some s -> StronglySorted lt I ->
  Forall (fun i => s <= i < e)%nat I ->
  (c < length I)%nat -> nth c I 0%nat = m ->
  (forall k, (k <= length I)%nat ->
             pt Q (a + k) = pt points (nth k (I ++ [e]) 0%nat)) ->
  farthest Q a (a + length I) = (M, (a + c)%nat).
Proof.
  intros F Nm Hhd HS HR Hc Hnth HQ.
  destruct I as [|s0 I']; [discriminate|]. simpl in Hhd.
  injection Hhd as ->.
  set (I := s :: I') in *.
  set (f := fun i => (span_dist points s e i, i)).
  set (X := map (fun k => (span_dist points s e (nth k I 0%nat),
                           nth k I 0%nat, (a + k)%nat))
              (seq 1 (length I - 1))).
  assert (T : scan (map f (tl I)) (0%float, s) = (M, m)).
  { apply scan_thinned with (l := map f (seq (s + 1) (e - s - 1))).
    - apply thinned_map with (keepA := fun i => i = m); [auto|].
      destruct (StronglySorted_inv HS) as [HS' HF].
      pose proof (Forall_inv_tail HR) as HR'.
      apply thinned_seq; auto.
      + rewrite Forall_forall in *. intros x Hx.
        specialize (HF x Hx). specialize (HR' x Hx). lia.
      + left. assert (Hin : In m I) by (rewrite <- Hnth; now apply nth_In).
        destruct Hin as [Hin|Hin]; [congruence|exact Hin].
    - unfold f. now rewrite <- farthest_scan. }
  assert (EX : map (fun '(d, i, _) => (d, i)) X = map f (tl I)).
  { unfold X. rewrite map_map, (tl_as_nth I), map_map. reflexivity. }
  rewrite <- EX in T.
  destruct (scan_relabel X _ _ a _ _ T) as (m' & Hs & Hin).
  assert (EQ : farthest Q a (a + length I)
               = scan (map (fun '(d, _, j) => (d, j)) X) (0%float, a)).
  { rewrite farthest_scan.
    replace (a + length I - a - 1)%nat with (length I - 1)%nat by lia.
    rewrite seq_from, map_map. unfold X. rewrite map_map.
    f_equal. apply map_ext_in. intros k Hk. apply in_seq in Hk.
    assert (Qa : pt Q a = pt points s).
    { pose proof (HQ 0%nat) as H0. rewrite Nat.add_0_r in H0.
      rewrite H0 by lia. reflexivity. }
    assert (Qb : pt Q (a + length I) = pt points e).
    { rewrite HQ by lia. now rewrite nth_middle. }
    unfold span_dist. rewrite Qa, Qb, (HQ k) by lia.
    rewrite app_nth1 by lia. reflexivity. }
  rewrite EQ, Hs. f_equal.
  destruct Hin as [Hin|Hin]; [inversion Hin; congruence|].
  unfold X in Hin. apply in_map_iff in Hin.
  destruct Hin as (k & Hk & Hin). apply in_seq in Hin.
  inversion Hk; subst.
  f_equal. apply (StronglySorted_lt_nth_inj I HS); auto; lia.
Qed.

Lemma rdp_fixed_span points eps eps' :
  (eps' <=? eps)%float = true ->
  forall d s e I,
    (s < e)%nat -> rdp_indices d points s e eps = Some I ->
    forall (Q : list Point) a,
      (forall k, (k <= length I)%nat ->
                 pt Q (a + k) = pt points (nth k (I ++ [e]) 0%nat)) ->
      rdp d Q a (a + length I) eps' = Some (map (pt points) I).
Proof.
  intros Hle. induction d as [|d IH]; intros s e I Hse H Q a HQ;
    [discriminate|].
  destruct (rdp_indices_kept _ _ _ _ _ _ Hse H) as (Hhd & HS & HR).
  pose proof (rdp_indices_spec points eps (S d) s e) as R.
  rewrite H in R. simpl option_map in R.
  assert (B : I = [s] ->
              rdp (S d) Q a (a + length I) eps' = Some (map (pt points) I)).
  { intros ->. simpl.
    replace (a + 1 - a <? 2)%nat with true
      by (symmetry; apply Nat.ltb_lt; lia).
    pose proof (HQ 0%nat) as H0. rewrite Nat.add_0_r in H0.
    rewrite H0 by (simpl; lia). reflexivity. }
  simpl in H.
  destruct (e - s <? 2)%nat eqn:E; [inversion H; subst; now apply B|].
  destruct (farthest points s e) as [M m] eqn:F.
  destruct (gt M eps) eqn:G; [|inversion H; subst; now apply B].
  pose proof (rdp_no_stall _ _ _ _ _ _ _ _ R E F G) as N.
  pose proof F as F'.
  apply farthest_cases in F'.
  destruct F' as [[_ ->]|(Hm & _ & _)]; [congruence|].
  destruct (rdp_indices d points s m eps) as [l|] eqn:L; [|discriminate].
  destruct (rdp_indices d points m e eps) as [r|] eqn:Rr; [|discriminate].
  inversion H; subst I. clear H.
  destruct (rdp_indices_kept _ _ _ _ _ _ (proj1 Hm) L) as (Hl & _ & _).
  destruct (rdp_indices_kept _ _ _ _ _ _ (proj2 Hm) Rr) as (Hr & _ & _).
  destruct l as [|l0 l]; [discriminate|]. inversion Hl; subst l0.
  destruct r as [|r0 r]; [discriminate|]. inversion Hr; subst r0.
  rewrite length_app in *.
  assert (Fq : farthest Q a (a + (length (s :: l) + length (m :: r)))
               = (M, (a + length (s :: l))%nat)).
  { rewrite <- length_app.
    apply (farthest_selected points s e M m); auto.
    - rewrite length_app. simpl. lia.
    - rewrite app_nth2 by lia. now rewrite Nat.sub_diag.
    - intros k Hk. apply HQ. now rewrite <- length_app. }
  rewrite rdp_unfold.
  replace (a + (length (s :: l) + length (m :: r)) - a <? 2)%nat with false
    by (symmetry; apply Nat.ltb_ge; simpl; lia).
  rewrite Fq.
  assert (G' : gt M eps' = true).
  { unfold gt in *. eapply FloatOrder.leb_ltb_trans; eauto. }
  rewrite G'.
  rewrite (IH s m (s :: l) (proj1 Hm) L Q a).
  - replace (a + (length (s :: l) + length (m :: r)))%nat
      with (a + length (s :: l) + length (m :: r))%nat by lia.
    rewrite (IH m e (m :: r) (proj2 Hm) Rr Q (a + length (s :: l))%nat).
    + now rewrite map_app.
    + intros k Hk.
      replace (a + length (s :: l) + k)%nat
        with (a + (length (s :: l) + k))%nat by lia.
      rewrite HQ by lia.
      rewrite <- app_assoc. rewrite app_nth2 by lia.
      f_equal. f_equal. lia.
  - intros k Hk. rewrite HQ by lia.
    rewrite <- app_assoc.
    destruct (Nat.eq_dec k (length (s :: l))) as [->|Hne].
    + rewrite nth_middle. rewrite app_nth2 by lia.
      now rewrite Nat.sub_diag.
    + rewrite !app_nth1 by lia. reflexivity.
Qed.

(** *** [approximatePolygon] *)

Lemma approximatePolygon_cases contour eps approx :
  approximatePolygon contour eps = Some approx ->
  (approx = contour /\ approximatePolygon approx eps = Some approx)
  \/ ((3 <= length contour)%nat /\ simplified_by contour eps approx).
Proof.
  intros H. pose proof H as H0. unfold approximatePolygon in H.
  destruct (length contour <? 3)%nat eqn:E.
  { inversion H; subst. left. auto. }
  apply Nat.ltb_ge in E.
  destruct (rdp _ _ _ _ _) as [simplified|] eqn:R; [|discriminate].
  destruct (3 <=? length _)%nat eqn:L; inversion H; subst.
  - right. split; [exact E|]. exists simplified. repeat split; auto.
    now apply Nat.leb_le.
  - left. auto.
Qed.

Lemma rdp_collinear3_diverges depth :
  rdp depth collinear3 0 2 (-1) = None.
Proof.
  induction depth as [|d IH]; [reflexivity|].
  rewrite rdp_unfold.
  change (2 - 0 <? 2)%nat with false.
  replace (farthest collinear3 0 2) with (0%float, 0%nat)
    by (vm_compute; reflexivity).
  change (gt 0 (-1)) with true.
  rewrite IH. now destruct (rdp d collinear3 0 0 (-1)).
Qed.

(** C10, as stated, fails for a negative tolerance: on three collinear
    points the recursion hands the same span to itself at every depth,
    and [approximatePolygon] does not return. *)
Lemma negative_tolerance_counterexample :
  (3 <= length collinear3)%nat
  /\ (forall depth, rdp depth collinear3 0 2 (-1) = None)
  /\ ~ exists approx, approximatePolygon collinear3 (-1) = Some approx.
Proof.
  split; [simpl; lia|]. split; [exact rdp_collinear3_diverges|].
  intros [approx H]. unfold approximatePolygon in H. simpl length in H.
  change (3 <? 3)%nat with false in H. change (3 - 1)%nat with 2%nat in H.
  now rewrite rdp_collinear3_diverges in H.
Qed.

(** C10, amended.  For every contour with at least 3 points and every
    tolerance that is not negative, [approximatePolygon] returns; for
    every tolerance, what it returns has at least 3 points, so the
    candidate selector's test [approx.length < 3] is false: when the
    recursion with the end point appended yields fewer than 3 points the
    original contour is returned. *)
Theorem approximatePolygon_three_points (contour : list Point)
    (eps : float) :
  (3 <= length contour)%nat ->
  ((eps <? 0)%float = false ->
   exists approx, approximatePolygon contour eps = Some approx)
  /\ (forall approx,
        approximatePolygon contour eps = Some approx ->
        (3 <= length approx)%nat
        /\ (length approx <? 3)%nat = false
        /\ (forall simplified,
               rdp (length contour) contour 0 (length contour - 1) eps
               = Some simplified ->
               (length (simplified ++ [pt contour (length contour - 1)])
                < 3)%nat ->
               approx = contour)).
Proof.
  intros Hn. split.
  - intros Heps. unfold approximatePolygon.
    replace (length contour <? 3)%nat with false
      by (symmetry; apply Nat.ltb_ge; lia).
    destruct (rdp_returns contour eps Heps (length contour) 0
                (length contour - 1)) as [r ->]; [lia|].
    eauto.
  - intros approx H.
    assert (L : (3 <= length approx)%nat).
    { apply approximatePolygon_cases in H.
      destruct H as [[-> _]|[_ (simplified & _ & _ & L)]]; auto. }
    split; [exact L|]. split; [apply Nat.ltb_ge; exact L|].
    intros simplified R Hs. unfold approximatePolygon in H.
    replace (length contour <? 3)%nat with false in H
      by (symmetry; apply Nat.ltb_ge; lia).
    rewrite R in H.
    replace (3 <=? length _)%nat with false in H
      by (symmetry; apply Nat.leb_gt; exact Hs).
    now inversion H.
Qed.

Lemma approximatePolygon_three_points_witness :
  (3 <= length zigzag4)%nat
  /\ exists approx, approximatePolygon zigzag4 0.5 = Some approx.
Proof.
  assert (Hn : (3 <= length zigzag4)%nat) by (simpl; lia).
  split; [exact Hn|].
  exact (proj1 (approximatePolygon_three_points zigzag4 0.5 Hn) eq_refl).
Defined.

Lemma rdp_nan_collapses points eps d s e :
  is_nan eps = true -> rdp (S d) points s e eps = Some [pt points s].
Proof.
  intros N. rewrite rdp_unfold.
  destruct (e - s <? 2)%nat; [reflexivity|].
  destruct (farthest points s e) as [M m].
  destruct (gt M eps) eqn:G; [|reflexivity].
  unfold gt in G. apply FloatOrder.ltb_not_nan in G. destruct G. congruence.
Qed.

Lemma simplified_fixed contour eps eps' polygon :
  simplified_by contour eps polygon -> (3 <= length contour)%nat ->
  (eps' <=? eps)%float = true ->
  approximatePolygon polygon eps' = Some polygon.
Proof.
  intros (simplified & R & -> & L) Hn Hle.
  set (e := (length contour - 1)%nat) in *.
  rewrite rdp_indices_spec in R.
  destruct (rdp_indices (length contour) contour 0 e eps) as [I|] eqn:RI;
    [|discriminate].
  simpl in R. inversion R; subst simplified. clear R.
  set (Q := map (pt contour) I ++ [pt contour e]) in *.
  assert (LQ : length Q = S (length I)).
  { unfold Q. rewrite length_app, length_map. simpl. lia. }
  assert (HQ : forall k, (k <= length I)%nat ->
                 pt Q (0 + k) = pt contour (nth k (I ++ [e]) 0%nat)).
  { intros k Hk. unfold Q, pt. simpl.
    change [nth e contour (mkPoint 0 0)]
      with (map (fun i => nth i contour (mkPoint 0 0)) [e]).
    rewrite <- map_app.
    rewrite (nth_indep _ _ (nth 0 contour (mkPoint 0 0))).
    - apply (map_nth (fun i => nth i contour (mkPoint 0 0))).
    - rewrite length_map, length_app. simpl. lia. }
  assert (F : rdp (length contour) Q 0 (0 + length I) eps'
              = Some (map (pt contour) I)).
  { apply (rdp_fixed_span contour eps eps' Hle _ 0%nat e); auto.
    unfold e. lia. }
  simpl in F.
  apply rdp_depth_enough with (d' := length Q) in F; [|lia].
  unfold approximatePolygon.
  replace (length Q <? 3)%nat with false
    by (symmetry; apply Nat.ltb_ge; exact L).
  replace (length Q - 1)%nat with (length I) by lia.
  rewrite F.
  assert (E : pt Q (length I) = pt contour e).
  { pose proof (HQ (length I) (Nat.le_refl _)) as H. simpl in H.
    rewrite H. now rewrite nth_middle. }
  rewrite E. fold Q.
  replace (3 <=? length Q)%nat with true
    by (symmetry; apply Nat.leb_le; exact L).
  reflexivity.
Qed.

(** C8, as stated, fails when [approximatePolygon] has fallen back to the
    contour itself: the zigzag is returned unchanged at tolerance 5, and
    at the smaller tolerance 0.5 it loses a point. *)
Lemma fixed_point_counterexample :
  approximatePolygon zigzag4 5 = Some zigzag4
  /\ (0.5 <=? 5)%float = true
  /\ approximatePolygon zigzag4 0.5
     = Some [mkPoint 0 0; mkPoint 5 1; mkPoint 15 0]
  /\ approximatePolygon zigzag4 0.5 <> Some zigzag4.
Proof.
  repeat split; try (vm_compute; reflexivity).
  vm_compute. discriminate.
Qed.

(** C8, amended.  A polygon that [approximatePolygon] returns on a
    contour at tolerance eps is returned unchanged when it is simplified
    again at the same tolerance; and at every tolerance eps' <= eps as
    well when the polygon is the simplification of the contour (three
    points or more survived) or the contour has fewer than 3 points, that
    is, unless the polygon is the contour returned in place of a
    simplification with fewer than 3 points. *)
Theorem approximatePolygon_fixed_point (contour : list Point) (eps : float)
    (polygon : list Point) :
  approximatePolygon contour eps = Some polygon ->
  approximatePolygon polygon eps = Some polygon
  /\ forall eps',
      (eps' <=? eps)%float = true ->
      (length contour < 3)%nat \/ simplified_by contour eps polygon ->
      approximatePolygon polygon eps' = Some polygon.
Proof.
  intros H.
  assert (G : forall eps',
             (eps' <=? eps)%float = true ->
             (length contour < 3)%nat \/ simplified_by contour eps polygon ->
             approximatePolygon polygon eps' = Some polygon).
  { intros eps' Hle [Hs|Hs].
    - unfold approximatePolygon in H.
      replace (length contour <? 3)%nat with true in H
        by (symmetry; apply Nat.ltb_lt; exact Hs).
      inversion H; subst. unfold approximatePolygon.
      replace (length polygon <? 3)%nat with true
        by (symmetry; apply Nat.ltb_lt; exact Hs).
      reflexivity.
    - destruct (Nat.lt_ge_cases (length contour) 3) as [Hn|Hn].
      + unfold approximatePolygon in H.
        replace (length contour <? 3)%nat with true in H
          by (symmetry; apply Nat.ltb_lt; exact Hn).
        inversion H; subst. unfold approximatePolygon.
        replace (length polygon <? 3)%nat with true
          by (symmetry; apply Nat.ltb_lt; exact Hn).
        reflexivity.
      + eapply simplified_fixed; eauto. }
  split; [|exact G].
  destruct (approximatePolygon_cases _ _ _ H) as [[_ E]|[Hn Hs]]; [exact E|].
  destruct (is_nan eps) eqn:N.
  - destruct Hs as (simplified & R & -> & L).
    destruct (length contour) as [|n] eqn:Ln; [lia|].
    rewrite rdp_nan_collapses in R by exact N.
    inversion R; subst. simpl in L. lia.
  - apply G; [now apply FloatOrder.leb_refl | now right].
Qed.

Lemma approximatePolygon_fixed_point_witness :
  approximatePolygon zigzag4 0.5
  = Some [mkPoint 0 0; mkPoint 5 1; mkPoint 15 0]
  /\ approximatePolygon [mkPoint 0 0; mkPoint 5 1; mkPoint 15 0] 0.5
     = Some [mkPoint 0 0; mkPoint 5 1; mkPoint 15 0].
Proof.
  assert (H : approximatePolygon zigzag4 0.5
              = Some [mkPoint 0 0; mkPoint 5 1; mkPoint 15 0])
    by (vm_compute; reflexivity).
  split; [exact H|].
  exact (proj1 (approximatePolygon_fixed_point zigzag4 0.5 _ H)).
Defined.

(** ** The pipeline returns

    The tolerances handed to [approximatePolygon] are products of a
    positive fraction and a perimeter, a sum of square roots; none is
    below zero, so every recursion of the candidate selector returns and
    the only exception of the pipeline is the one of the first
    allocation. *)

Lemma nonneg_spec x : (x <? 0)%float = false <-> sf_nonneg (Prim2SF x).
Proof.
  rewrite ltb_spec. change (Prim2SF 0) with (S754_zero false).
  unfold SFltb, sf_nonneg.
  destruct (Prim2SF x) as [[|]|[|]| |[|] m e]; simpl; intuition congruence.
Qed.

Lemma binary_round_aux_nonneg prec emax m e l :
  sf_nonneg (binary_round_aux prec emax false m e l).
Proof.
  unfold binary_round_aux.
  destruct (shr_fexp _ _ _ _ _) as [mrs' e'].
  destruct (shr_fexp _ _ _ _ _) as [mrs'' e''].
  destruct (shr_m mrs''); simpl; auto.
  destruct (Z.leb _ _); simpl; auto.
Qed.

Lemma SFsqrt_nonneg prec emax s : sf_nonneg (SFsqrt prec emax s).
Proof.
  destruct s as [[|]|[|]| |[|] m e]; simpl; auto.
  destruct (SFsqrt_core_binary _ _ _ _) as [[mz ez] lz].
  apply binary_round_aux_nonneg.
Qed.

Lemma SFadd_nonneg prec emax s t :
  sf_nonneg s -> sf_nonneg t -> sf_nonneg (SFadd prec emax s t).
Proof.
  destruct s as [[|]|[|]| |[|] m e], t as [[|]|[|]| |[|] m' e'];
    simpl; try tauto; intros _ _.
  unfold binary_normalize. simpl. unfold binary_round.
  destruct (shl_align _ _ _) as [mz ez].
  apply binary_round_aux_nonneg.
Qed.

Lemma SFmul_nonneg prec emax s t :
  sf_nonneg s -> sf_nonneg t -> sf_nonneg (SFmul prec emax s t).
Proof.
  destruct s as [[|]|[|]| |[|] m e], t as [[|]|[|]| |[|] m' e'];
    simpl; try tauto; intros _ _.
  apply binary_round_aux_nonneg.
Qed.

Lemma Math_sqrt_nonneg x : (Math_sqrt x <? 0)%float = false.
Proof.
  apply nonneg_spec. unfold Math_sqrt. rewrite sqrt_spec.
  apply SFsqrt_nonneg.
Qed.

Lemma add_nonneg x y :
  (x <? 0)%float = false -> (y <? 0)%float = false ->
  (x + y <? 0)%float = false.
Proof.
  rewrite !nonneg_spec, add_spec. apply SFadd_nonneg.
Qed.

Lemma mul_nonneg x y :
  (x <? 0)%float = false -> (y <? 0)%float = false ->
  (x * y <? 0)%float = false.
Proof.
  rewrite !nonneg_spec, mul_spec. apply SFmul_nonneg.
Qed.

Lemma calculatePerimeter_nonneg points :
  (calculatePerimeter points <? 0)%float = false.
Proof.
  unfold calculatePerimeter.
  assert (G : forall l acc, (acc <? 0)%float = false ->
            PrimFloat.ltb
              (fold_left
                 (fun perimeter i =>
                    let j := ((i + 1) mod length points)%nat in
                    let dx := px (pt points j) - px (pt points i) in
                    let dy := py (pt points j) - py (pt points i) in
                    (perimeter + Math_sqrt (of_Z (dx * dx + dy * dy)))%float)
                 l acc) 0 = false).
  { induction l as [|i l IH]; intros acc H0; simpl; [exact H0|].
    apply IH. apply add_nonneg; [exact H0|apply Math_sqrt_nonneg]. }
  apply G. reflexivity.
Qed.

Lemma tolerances_nonneg :
  Forall (fun eps => (eps <? 0)%float = false) tolerances.
Proof. repeat constructor. Qed.

Lemma try_tolerance_returns contour area perimeter best eps :
  (eps <? 0)%float = false -> (perimeter <? 0)%float = false ->
  exists best', try_tolerance contour area perimeter best eps = Normal best'.
Proof.
  intros He Hp. unfold try_tolerance.
  assert (T : (eps * perimeter <? 0)%float = false) by now apply mul_nonneg.
  assert (R : exists approx,
             approximatePolygon contour (eps * perimeter) = Some approx).
  { unfold approximatePolygon.
    destruct (length contour <? 3)%nat eqn:E; [eauto|].
    apply Nat.ltb_ge in E.
    destruct (rdp_returns contour _ T (length contour) 0
                (length contour - 1)) as [r ->]; [lia|eauto]. }
  destruct R as [approx ->].
  destruct (length approx <? 3)%nat; [eauto|].
  destruct (classifyShapeAdvanced _ _ _ _) as [[ty conf]|]; [|eauto].
  destruct (gt _ _); eauto.
Qed.

Lemma foldM_returns {A B : Type} (f : A -> B -> Completion A) (P : B -> Prop) :
  (forall a b, P b -> exists a', f a b = Normal a') ->
  forall l a, Forall P l -> exists a', foldM f l a = Normal a'.
Proof.
  intros Hf. induction l as [|b l IH]; intros a Hl; simpl; [eauto|].
  destruct (Hf a b (Forall_inv Hl)) as [a' ->]. simpl.
  apply IH. exact (Forall_inv_tail Hl).
Qed.

Lemma process_contour_returns width height shapes contour :
  exists shapes',
    process_contour width height shapes contour = Normal shapes'.
Proof.
  unfold process_contour.
  destruct (length contour <? 10)%nat; [eauto|].
  destruct (_ || _); [eauto|].
  destruct (_ <? 0.15)%float; [eauto|].
  destruct (foldM_returns
              (try_tolerance contour (calculateArea contour)
                 (calculatePerimeter contour))
              (fun eps => (eps <? 0)%float = false)
              (fun a b Hb => try_tolerance_returns contour _ _ a b Hb
                               (calculatePerimeter_nonneg contour))
              tolerances (None, 0%float) tolerances_nonneg) as [best ->].
  simpl. destruct (fst best) as [[[ty conf] approx]|]; [|eauto].
  destruct (ge conf 0.55); eauto.
Qed.

(** X23.  The loop over the contours never throws: every tolerance
    [detectShapes] hands to [approximatePolygon] is a fraction of a
    perimeter and so not negative, the recursion of each call ends, and
    the loop goes on to the next contour. *)
Theorem contours_loop_returns (width height : Z)
    (contours : list (list Point)) (shapes : list DetectedShape) :
  exists shapes',
    foldM (process_contour width height) contours shapes = Normal shapes'.
Proof.
  apply (foldM_returns (process_contour width height) (fun _ => True)).
  - intros a b _. apply process_contour_returns.
  - apply Forall_forall. trivial.
Qed.

(** In the model, where an array of any length that is not negative is
    allocated, the [try] block throws for a negative pixel count and
    for nothing else. *)
Lemma detect_body_throws imageData :
  (exists e, detect_body imageData = Throw e)
  <-> width imageData * height imageData < 0.
Proof.
  unfold detect_body, toGrayscale.
  destruct (width imageData * height imageData <? 0) eqn:E.
  - apply Z.ltb_lt in E. simpl. split; eauto.
  - apply Z.ltb_ge in E. simpl.
    match goal with
    | |- context [foldM ?f ?l ?a0] =>
        destruct (foldM_returns f (fun _ => True)
                    (fun x y _ => process_contour_returns _ _ x y) l a0)
          as [s Hs]; [apply Forall_forall; trivial|rewrite Hs]
    end.
    simpl. split; [intros [e H]; discriminate|lia].
Qed.

(** ** Convex hull *)


(** *** Cross products *)

Lemma cross_cyc a b c : crossProduct a b c = crossProduct b c a.
Proof. unfold crossProduct. ring. Qed.

Lemma cross_swap a b c : crossProduct a b c = - crossProduct a c b.
Proof. unfold crossProduct. ring. Qed.

Lemma cross_split o a b c :
  crossProduct a b c
  = crossProduct o a b + crossProduct o b c + crossProduct o c a.
Proof. unfold crossProduct. ring. Qed.

Lemma cross_plucker c a b w r :
  crossProduct c a b * crossProduct c w r
  = crossProduct c a w * crossProduct c b r
    - crossProduct c a r * crossProduct c b w.
Proof. unfold crossProduct. ring. Qed.

(** *** Directions in the half-plane above the pivot *)

Lemma shorter_linear px_ py_ qx qy al be :
  (0 < py_ \/ (py_ = 0 /\ 0 <= px_)) ->
  (0 < qy \/ (qy = 0 /\ 0 <= qx)) ->
  px_ * qy - py_ * qx = 0 ->
  px_ * px_ + py_ * py_ <= qx * qx + qy * qy ->
  0 <= al * qx + be * qy ->
  0 <= al * px_ + be * py_ <= al * qx + be * qy.
Proof.
  intros Hp Hq C D F.
  destruct Hq as [Hq|[-> Hq]].
  - assert (P0 : 0 <= py_) by lia.
    assert (E : qy * qy * (px_ * px_ + py_ * py_)
                = py_ * py_ * (qx * qx + qy * qy)).
    { replace (qy * qy * (px_ * px_ + py_ * py_))
        with ((px_ * qy) * (px_ * qy) + py_ * py_ * (qy * qy)) by ring.
      replace (px_ * qy) with (py_ * qx) by lia. ring. }
    assert (Py : py_ <= qy).
    { destruct (Z_le_gt_dec py_ qy) as [L|G]; [exact L|exfalso].
      assert (qy * qy < py_ * py_) by nia.
      assert (0 < qx * qx + qy * qy) by nia.
      nia. }
    assert (C' : px_ * qy = py_ * qx) by lia.
    assert (I : qy * (al * px_ + be * py_) = py_ * (al * qx + be * qy)).
    { replace (qy * (al * px_ + be * py_))
        with (al * (px_ * qy) + be * py_ * qy) by ring.
      rewrite C'. ring. }
    split.
    + assert (0 <= qy * (al * px_ + be * py_)) by (rewrite I; nia). nia.
    + assert (qy * (al * px_ + be * py_) <= qy * (al * qx + be * qy))
        by (rewrite I; nia).
      nia.
  - destruct (Z.eq_dec qx 0) as [->|N].
    + assert (px_ = 0) by nia. assert (py_ = 0) by nia. subst. lia.
    + assert (py_ = 0) by nia. subst py_.
      assert (0 <= px_ <= qx) by nia. nia.
Qed.

Ltac cross_ring := unfold crossProduct; ring.

(** A point on the ray of [q] and no farther than [q]: every cross
    product with a third point is scaled down. *)
Lemma shorter_cross_l o p q x :
  above o p -> above o q ->
  crossProduct o p q = 0 -> dist2 o p <= dist2 o q ->
  0 <= crossProduct o x q ->
  0 <= crossProduct o x p <= crossProduct o x q.
Proof.
  unfold above, dist2, crossProduct. intros Hp Hq C D F.
  pose proof (shorter_linear (px p - px o) (py p - py o)
                (px q - px o) (py q - py o)
                (- (py x - py o)) (px x - px o)) as L.
  assert (L' : 0 <= - (py x - py o) * (px p - px o)
                    + (px x - px o) * (py p - py o)
               <= - (py x - py o) * (px q - px o)
                    + (px x - px o) * (py q - py o)).
  { apply L; try lia; nia. }
  nia.
Qed.

Lemma shorter_cross_r o p q x :
  above o p -> above o q ->
  crossProduct o p q = 0 -> dist2 o p <= dist2 o q ->
  0 <= crossProduct o q x ->
  0 <= crossProduct o p x <= crossProduct o q x.
Proof.
  unfold above, dist2, crossProduct. intros Hp Hq C D F.
  pose proof (shorter_linear (px p - px o) (py p - py o)
                (px q - px o) (py q - py o)
                (py x - py o) (- (px x - px o))) as L.
  assert (L' : 0 <= (py x - py o) * (px p - px o)
                    + - (px x - px o) * (py p - py o)
               <= (py x - py o) * (px q - px o)
                    + - (px x - px o) * (py q - py o)).
  { apply L; try lia; nia. }
  nia.
Qed.

Lemma dist2_zero o p : dist2 o p <= 0 -> p = o.
Proof.
  unfold dist2. destruct p as [x y], o as [ox oy]. simpl. intros H.
  assert (x - ox = 0) by nia. assert (y - oy = 0) by nia.
  f_equal; lia.
Qed.

Lemma dist2_self o : dist2 o o = 0.
Proof. unfold dist2. ring. Qed.

Lemma cross_pivot_l o p : crossProduct o o p = 0.
Proof. cross_ring. Qed.

Lemma cross_pivot_r o p : crossProduct o p o = 0.
Proof. cross_ring. Qed.

Lemma ang_le_pivot o p : ang_le o p o -> p = o.
Proof.
  intros [_ H]. apply dist2_zero. rewrite <- (dist2_self o).
  apply H. apply cross_pivot_r.
Qed.

Lemma pivot_ang_le o p : ang_le o o p.
Proof.
  split; [rewrite cross_pivot_l; lia|]. intros _.
  rewrite dist2_self. unfold dist2. nia.
Qed.

(** The angles of directions above the pivot are ordered transitively,
    through any direction that is not the pivot itself. *)
Lemma cross_trans o a b c :
  above o a -> above o b -> above o c -> b <> o ->
  0 <= crossProduct o a b -> 0 <= crossProduct o b c ->
  0 <= crossProduct o a c.
Proof.
  unfold above, crossProduct. intros Ha Hb Hc Hn H1 H2.
  assert (N : px b - px o <> 0 \/ py b - py o <> 0).
  { destruct (Z.eq_dec (px b) (px o)), (Z.eq_dec (py b) (py o)); try lia.
    exfalso. apply Hn. destruct b, o; simpl in *; congruence. }
  set (ax := px a - px o) in *. set (ay := py a - py o) in *.
  set (bx := px b - px o) in *. set (by_ := py b - py o) in *.
  set (cx := px c - px o) in *. set (cy := py c - py o) in *.
  assert (I : by_ * (ax * cy - ay * cx)
              = ay * (bx * cy - by_ * cx) + cy * (ax * by_ - ay * bx))
    by ring.
  assert (Hb' : 0 < by_ \/ (by_ = 0 /\ 0 <= bx)) by lia.
  assert (Ha' : 0 <= ay) by lia. assert (Hc' : 0 <= cy) by lia.
  destruct Hb' as [Hb'|[Hb0 Hb']].
  - nia.
  - rewrite Hb0 in *. assert (ay = 0) by nia. nia.
Qed.

Lemma collinear_between ax ay bx by_ cx cy :
  (0 < ay \/ (ay = 0 /\ 0 <= ax)) ->
  (0 < by_ \/ (by_ = 0 /\ 0 <= bx)) ->
  (0 < cy \/ (cy = 0 /\ 0 <= cx)) ->
  ax * ax + ay * ay <> 0 -> bx * bx + by_ * by_ <> 0 ->
  0 <= ax * by_ - ay * bx -> 0 <= bx * cy - by_ * cx ->
  (bx * cy - by_ * cx = 0 -> bx * bx + by_ * by_ <= cx * cx + cy * cy) ->
  ax * cy - ay * cx = 0 ->
  ax * by_ - ay * bx = 0 /\ bx * cy - by_ * cx = 0.
Proof.
  intros Ha Hb Hc Na N H1 H2 D2 C.
  assert (I : by_ * (ax * cy - ay * cx)
              = ay * (bx * cy - by_ * cx) + cy * (ax * by_ - ay * bx))
    by ring.
  rewrite C, Z.mul_0_r in I.
  assert (Ha' : 0 <= ay) by lia. assert (Hc' : 0 <= cy) by lia.
  assert (Hb' : 0 < by_ \/ (by_ = 0 /\ 0 < bx)).
  { destruct Hb as [Hb|[Hb0 Hb]]; [left; lia|right].
    split; [exact Hb0|].
    destruct (Z.eq_dec bx 0) as [B0|B0]; [|lia].
    exfalso. apply N. rewrite B0, Hb0. reflexivity. }
  destruct Hb' as [Hb'|[Hb0 Hb']].
  - assert (T1 : 0 <= ay * (bx * cy - by_ * cx))
      by (apply Z.mul_nonneg_nonneg; lia).
    assert (T2 : 0 <= cy * (ax * by_ - ay * bx))
      by (apply Z.mul_nonneg_nonneg; lia).
    assert (Z1 : ay * (bx * cy - by_ * cx) = 0) by lia.
    assert (Z2 : cy * (ax * by_ - ay * bx) = 0) by lia.
    assert (E1 : ax * by_ - ay * bx = 0).
    { destruct (Z.eq_dec (ax * by_ - ay * bx) 0) as [|Q]; [assumption|].
      exfalso.
      assert (C0 : cy = 0)
        by (apply Z.mul_eq_0 in Z2; destruct Z2; [assumption|contradiction]).
      subst cy. assert (Cx : 0 <= cx) by lia.
      assert (C1 : cx = 0) by nia. subst cx.
      assert (D : bx * bx + by_ * by_ <= 0 * 0 + 0 * 0)
        by (apply D2; ring).
      nia. }
    split; [exact E1|].
    destruct (Z.eq_dec (bx * cy - by_ * cx) 0) as [|Q]; [assumption|].
    exfalso.
    assert (A0 : ay = 0)
      by (apply Z.mul_eq_0 in Z1; destruct Z1; [assumption|contradiction]).
    subst ay. assert (A1 : ax = 0) by nia.
    subst ax. apply Na. reflexivity.
  - subst by_.
    assert (A0 : ay = 0) by nia. subst ay.
    assert (A1 : ax <> 0) by (intros A1; subst ax; now apply Na).
    assert (C0 : cy = 0) by nia.
    subst cy. split; ring.
Qed.

Lemma ang_le_trans o a b c :
  above o a -> above o b -> above o c ->
  ang_le o a b -> ang_le o b c -> ang_le o a c.
Proof.
  intros Ha Hb Hc [H1 D1] [H2 D2].
  destruct (Z.eq_dec (dist2 o b) 0) as [Z|N].
  { assert (b = o) by (apply dist2_zero; lia). subst b.
    assert (a = o) by (apply ang_le_pivot; split; auto). subst a.
    apply pivot_ang_le. }
  destruct (Z.eq_dec (dist2 o a) 0) as [Za|Na].
  { assert (a = o) by (apply dist2_zero; lia). subst a.
    apply pivot_ang_le. }
  assert (Nb : b <> o) by (intros ->; now rewrite dist2_self in N).
  split; [now apply (cross_trans o a b c)|].
  intros C.
  assert (E : crossProduct o a b = 0 /\ crossProduct o b c = 0).
  { unfold above, crossProduct, dist2 in *. rewrite !Z.pow_2_r in *.
    apply collinear_between with (cx := px c - px o) (cy := py c - py o);
      auto; lia. }
  destruct E as [E1 E2]. specialize (D1 E1). specialize (D2 E2). lia.
Qed.

Lemma ang_le_cross o p q : ang_le o p q -> 0 <= crossProduct o p q.
Proof. now intros [H _]. Qed.

(** Either [p] is before [q] around the pivot, or it is not before. *)
Lemma not_ang_le o p q : ~ ang_le o p q -> 0 <= crossProduct o q p.
Proof.
  intros N. rewrite (cross_swap o q p).
  destruct (Z_le_gt_dec 0 (crossProduct o p q)) as [L|G]; [|lia].
  destruct (Z.eq_dec (crossProduct o p q) 0) as [E|E]; [lia|].
  exfalso. apply N. split; [exact L|]. intros Z. contradiction.
Qed.

Lemma collinear_through o p t q :
  t <> o -> crossProduct o p t = 0 -> crossProduct o t q = 0 ->
  crossProduct o p q = 0.
Proof.
  intros N. unfold crossProduct.
  assert (Nt : px t - px o <> 0 \/ py t - py o <> 0).
  { destruct (Z.eq_dec (px t) (px o)), (Z.eq_dec (py t) (py o)); try lia.
    exfalso. apply N. destruct t, o; simpl in *; congruence. }
  set (ax := px p - px o) in *. set (ay := py p - py o) in *.
  set (bx := px t - px o) in *. set (by_ := py t - py o) in *.
  set (cx := px q - px o) in *. set (cy := py q - py o) in *.
  intros H1 H2.
  assert (I : by_ * (ax * cy - ay * cx)
              = ay * (bx * cy - by_ * cx) + cy * (ax * by_ - ay * bx))
    by ring.
  assert (J : bx * (ax * cy - ay * cx)
              = ax * (bx * cy - by_ * cx) + cx * (ax * by_ - ay * bx))
    by ring.
  rewrite H1, H2, !Z.mul_0_r in I, J. simpl in I, J.
  destruct Nt as [Nt|Nt].
  - apply Z.mul_eq_0 in J. destruct J; [contradiction|assumption].
  - apply Z.mul_eq_0 in I. destruct I; [contradiction|assumption].
Qed.

(** *** The steps of the sweep *)

(** L1.  A strict left turn at the top of the stack puts the new point
    at a strictly larger angle than the top. *)
Lemma push_strict o t' t q :
  above o t -> above o q ->
  ang_le o t q -> 0 <= crossProduct o t' q ->
  0 < crossProduct t' t q -> 0 < crossProduct o t q.
Proof.
  intros Ht Hq [C D] F S.
  destruct (Z.eq_dec (crossProduct o t q) 0) as [E|E]; [|lia].
  exfalso. specialize (D E).
  pose proof (shorter_cross_l o t q t' Ht Hq E D F) as L.
  assert (I : crossProduct t' t q
              = crossProduct o t' t + crossProduct o t q
                - crossProduct o t' q) by cross_ring.
  lia.
Qed.

(** L2.  A point on the left of an edge of the chain, and at a larger
    angle than the edge, is on the left of the edge below it as well. *)
Lemma chain_step o h0 h1 h2 q :
  0 < crossProduct h0 h1 h2 -> 0 < crossProduct o h1 h2 ->
  0 <= crossProduct o h0 h1 ->
  0 <= crossProduct h1 h2 q -> 0 <= crossProduct o h1 q ->
  0 <= crossProduct h0 h1 q.
Proof.
  intros T A B E F.
  assert (I : crossProduct o h1 h2 * crossProduct h0 h1 q
              = crossProduct h0 h1 h2 * crossProduct o h1 q
                + crossProduct h1 h2 q * crossProduct o h0 h1)
    by cross_ring.
  nia.
Qed.

(** L3.  When the sweep stops popping at [t], a point covered by the
    chain up to [t] is on the left of the new edge from [t] to [q]. *)
Lemma exit_edge o t' t q p :
  above o p -> above o t ->
  0 < crossProduct o t' t \/ t' = o ->
  0 < crossProduct t' t q -> 0 <= crossProduct o t q ->
  ang_le o p t -> 0 <= crossProduct t' t p ->
  0 <= crossProduct t q p.
Proof.
  intros Hp Ht [S| ->] T Q [P D] E.
  - assert (I : crossProduct o t' t * crossProduct t q p
                = crossProduct t' t q * crossProduct o p t
                  + crossProduct t' t p * crossProduct o t q)
      by cross_ring.
    nia.
  - assert (Z : crossProduct o p t = 0).
    { rewrite (cross_swap o t p) in E. lia. }
    specialize (D Z).
    pose proof (shorter_cross_r o p t q Hp Ht Z D Q) as L.
    assert (I : crossProduct t q p
                = crossProduct o t q - crossProduct o p q
                  + crossProduct o p t) by cross_ring.
    lia.
Qed.

(** L4.  A point in the triangle of the pivot, the popped top [t] and
    the new point [q] is in the triangle of the pivot, the next top
    [t'] and [q]. *)
Lemma pop_triangle o t' t q p :
  above o t' -> above o t -> above o q -> above o p ->
  ang_le o t' t -> ang_le o t q -> ang_le o p q ->
  0 <= crossProduct o t' q ->
  crossProduct t' t q <= 0 ->
  0 <= crossProduct o t p -> 0 <= crossProduct t q p ->
  0 <= crossProduct o t' p /\ 0 <= crossProduct t' q p.
Proof.
  intros Ht' Ht Hq Hp Lt' [Ltq Dtq] [Lpq Dpq] F Pop A B.
  split.
  - destruct (Z.eq_dec (dist2 o t) 0) as [Z|N].
    + assert (t = o) by (apply dist2_zero; lia). subst t.
      apply ang_le_pivot in Lt'. subst t'. rewrite cross_pivot_l. lia.
    + apply (cross_trans o t' t p); auto.
      * intros ->. now rewrite dist2_self in N.
      * now apply ang_le_cross.
  - destruct (Z.eq_dec (crossProduct o t q) 0) as [Z|N].
    + assert (I : crossProduct t q p
                  = crossProduct o t q - crossProduct o p q
                    - crossProduct o t p) by cross_ring.
      assert (Zp : crossProduct o p q = 0) by lia.
      specialize (Dpq Zp).
      pose proof (shorter_cross_l o p q t' Hp Hq Zp Dpq F) as L.
      assert (J : crossProduct t' q p
                  = crossProduct o t' q - crossProduct o t' p
                    - crossProduct o p q) by cross_ring.
      lia.
    + assert (I : crossProduct o t q * crossProduct t' q p
                  = crossProduct o p q * (- crossProduct t' t q)
                    + crossProduct o t' q * crossProduct t q p)
        by cross_ring.
      nia.
Qed.

(** L5.  A point covered by the chain up to the popped top [t], and at
    a larger angle than the next top [t'], is in the triangle of the
    pivot, [t'] and [q]. *)
Lemma pop_chain o t' t q p :
  above o t -> above o q -> above o p ->
  0 < crossProduct o t' t \/ t' = o ->
  ang_le o t q -> ang_le o p q -> ang_le o p t ->
  0 <= crossProduct o t' q ->
  crossProduct t' t q <= 0 ->
  0 <= crossProduct t' t p -> ~ ang_le o p t' ->
  0 <= crossProduct o t' p /\ 0 <= crossProduct t' q p.
Proof.
  intros Ht Hq Hp St [Ltq Dtq] [Lpq Dpq] [Lpt Dpt] F Pop E N.
  split; [now apply not_ang_le|].
  destruct St as [S| ->].
  - pose proof (not_ang_le _ _ _ N) as A.
    assert (I : crossProduct o t' t * crossProduct t' q p
                = (- crossProduct t' t q) * crossProduct o t' p
                  + crossProduct t' t p * crossProduct o t' q)
      by cross_ring.
    nia.
  - assert (Zt : crossProduct o t q = 0) by lia.
    assert (Zp : crossProduct o p t = 0).
    { rewrite (cross_swap o t p) in E. lia. }
    assert (Nt : t <> o).
    { intros ->. apply N. split; [exact Lpt|exact Dpt]. }
    pose proof (collinear_through o p t q Nt Zp Zt) as C.
    rewrite (cross_swap o q p). lia.
Qed.


Lemma ang_le_dec o p q : {ang_le o p q} + {~ ang_le o p q}.
Proof.
  unfold ang_le.
  destruct (Z_le_gt_dec 0 (crossProduct o p q)) as [L|G];
    [|right; intros [H _]; lia].
  destruct (Z.eq_dec (crossProduct o p q) 0) as [E|E].
  - destruct (Z_le_gt_dec (dist2 o p) (dist2 o q)) as [D|D].
    + left. auto.
    + right. intros [_ H]. specialize (H E). lia.
  - left. split; [exact L|]. intros Z. contradiction.
Qed.

Lemma ang_le_refl o p : ang_le o p p.
Proof.
  split; [|lia]. unfold crossProduct. lia.
Qed.

Lemma cross_same a b : crossProduct a b b = 0.
Proof. cross_ring. Qed.

(** *** The stack *)

Lemma chain_tail o t rest : rest <> [] -> chain o (t :: rest) -> chain o rest.
Proof.
  destruct rest as [|t' rest']; [congruence|]. intros _ (_ & _ & H). exact H.
Qed.

Lemma chain_link o t t' rest :
  chain o (t :: t' :: rest) -> 0 < crossProduct o t' t \/ t' = o.
Proof. now intros (H & _). Qed.

Lemma chain_link_le o t t' rest :
  chain o (t :: t' :: rest) -> ang_le o t' t.
Proof.
  intros H. destruct (chain_link _ _ _ _ H) as [S| ->].
  - split; [lia|]. intros Z. lia.
  - apply pivot_ang_le.
Qed.

(** A vertex with a vertex below it is not the pivot's direction: the
    chain turns strictly at it. *)
Lemma chain_inner_strict o t t' t'' rest :
  chain o (t :: t' :: t'' :: rest) ->
  0 < crossProduct t'' t' t /\ 0 < crossProduct o t' t
  /\ 0 <= crossProduct o t'' t'.
Proof.
  intros (L & T & (L' & _ & _)).
  split; [exact T|].
  assert (A : 0 <= crossProduct o t'' t').
  { destruct L' as [S| ->]; [lia|]. rewrite cross_pivot_l. lia. }
  split; [|exact A].
  destruct L as [S| ->]; [exact S|].
  exfalso. destruct L' as [S| ->].
  - rewrite cross_pivot_r in S. lia.
  - rewrite cross_pivot_l in T. lia.
Qed.

Lemma hull_pop_cases stack q :
  stack <> [] ->
  (exists t, hull_pop stack q = [t] /\ last stack t = t)
  \/ (exists t t' rest,
        hull_pop stack q = t :: t' :: rest
        /\ 0 < crossProduct t' t q).
Proof.
  induction stack as [|t [|t' rest] IH]; intros N; [congruence| |].
  - left. exists t. auto.
  - simpl. destruct (crossProduct t' t q <=? 0) eqn:E.
    + destruct IH as [(b & Hb & Hl)|H]; [discriminate| |].
      * left. exists b. split; [exact Hb|]. exact Hl.
      * right. exact H.
    + right. exists t, t', rest. split; [reflexivity|].
      apply Z.leb_gt in E. exact E.
Qed.

Lemma hull_pop_suffix stack q :
  exists popped, stack = popped ++ hull_pop stack q.
Proof.
  induction stack as [|t [|t' rest] IH].
  - exists []. reflexivity.
  - exists []. reflexivity.
  - simpl hull_pop. destruct (crossProduct t' t q <=? 0).
    + destruct IH as [popped IH]. exists (t :: popped).
      rewrite <- app_comm_cons. f_equal. exact IH.
    + exists []. reflexivity.
Qed.

Lemma chain_suffix o popped stack :
  stack <> [] -> chain o (popped ++ stack) -> chain o stack.
Proof.
  intros N. induction popped as [|t popped IH]; [auto|].
  intros H. apply IH. apply (chain_tail o t); [|exact H].
  destruct popped; simpl; [exact N|discriminate].
Qed.

Lemma chain_edges_suffix popped stack e :
  In e (chain_edges stack) -> In e (chain_edges (popped ++ stack)).
Proof.
  induction popped as [|t popped IH]; [auto|]. intros H.
  simpl app. destruct (popped ++ stack) as [|t' r] eqn:E.
  - destruct popped; simpl in E; [subst; destruct H|discriminate].
  - simpl. right. apply IH. exact H.
Qed.

Lemma hull_pop_nonempty stack q : stack <> [] -> hull_pop stack q <> [].
Proof.
  intros N. destruct (hull_pop_cases stack q N) as [(t & -> & _)|(t & t' & r & -> & _)];
    discriminate.
Qed.

Section SweepStep.

Variables (o q : Point) (swept : list Point).
Hypothesis q_above : above o q.
Hypothesis swept_above : forall p, In p swept -> above o p.
Hypothesis swept_before : forall p, In p swept -> ang_le o p q.

(** The new edge: when the pops for [q] end at [t], every swept point is
    on the left of the edge from [t] to [q]. *)
Lemma pop_new_edge :
  forall stack,
    chain o stack -> incl stack swept ->
    (forall p, In p swept -> covered o q stack p) ->
    forall p, In p swept ->
      0 <= crossProduct (hd o (hull_pop stack q)) q p.
Proof.
  induction stack as [|t [|t' rest] IH]; intros C I Cov p Hp.
  - destruct C.
  - simpl in C. subst t. simpl.
    destruct (Cov p Hp) as [[_ H]|[H _]]; [exact H|].
    simpl in H. apply ang_le_pivot in H. subst p.
    rewrite cross_pivot_r. lia.
  - assert (Ht : In t swept) by (apply I; simpl; auto).
    assert (Ht' : In t' swept) by (apply I; simpl; auto).
    pose proof (chain_link _ _ _ _ C) as L.
    pose proof (chain_link_le _ _ _ _ C) as Lle.
    simpl hull_pop. destruct (crossProduct t' t q <=? 0) eqn:E.
    + apply Z.leb_le in E.
      apply IH; auto.
      * apply (chain_tail o t); [discriminate|exact C].
      * intros x Hx. apply I. simpl. auto.
      * intros x Hx. destruct (Cov x Hx) as [[A B]|[A B]]; simpl in A, B.
        -- left. simpl.
           apply (pop_triangle o t' t q x); auto.
           apply ang_le_cross. auto.
        -- destruct (ang_le_dec o x t') as [Y|N].
           ++ right. simpl hd. split; [exact Y|].
              simpl chain_edges in B. now inversion B.
           ++ left. simpl.
              apply (pop_chain o t' t q x); auto.
              ** apply ang_le_cross. auto.
              ** simpl chain_edges in B. inversion B; subst. assumption.
    + apply Z.leb_gt in E. simpl hd.
      destruct (Cov p Hp) as [[A B]|[A B]]; simpl in A, B; [exact B|].
      apply (exit_edge o t' t q p); auto.
      * apply ang_le_cross. auto.
      * inversion B; subst. assumption.
Qed.

(** The old edges: [q] is on the left of every edge of the chain that
    is left after the pops. *)
Lemma chain_left_of :
  forall stack,
    chain o stack -> incl stack swept ->
    (forall t t' rest, stack = t :: t' :: rest ->
                       0 <= crossProduct t' t q) ->
    Forall (fun e => 0 <= crossProduct (fst e) (snd e) q)
      (chain_edges stack).
Proof.
  induction stack as [|t [|t' rest] IH]; intros C I T.
  - constructor.
  - constructor.
  - assert (E : 0 <= crossProduct t' t q) by (eapply T; eauto).
    simpl chain_edges. constructor; [exact E|].
    apply IH.
    + apply (chain_tail o t); [discriminate|exact C].
    + intros x Hx. apply I. simpl. auto.
    + intros t0 t'' rest' Eq. inversion Eq; subst t0 rest. clear Eq.
      destruct (chain_inner_strict _ _ _ _ _ C) as (T1 & T2 & T3).
      apply (chain_step o t'' t' t q); auto.
      apply ang_le_cross. apply swept_before. apply I. simpl. auto.
Qed.

(** One round of the sweep keeps the invariant. *)
Lemma sweep_step stack :
  sweep_inv o stack swept ->
  sweep_inv o (hull_step stack q) (swept ++ [q]).
Proof.
  intros (C & I & Top & Ed).
  assert (N : stack <> []) by (intros ->; destruct C).
  destruct (hull_pop_suffix stack q) as [popped Hs].
  pose proof (hull_pop_nonempty stack q N) as N'.
  assert (C' : chain o (hull_pop stack q)).
  { apply (chain_suffix o popped); [exact N'|]. now rewrite <- Hs. }
  assert (I' : incl (hull_pop stack q) swept).
  { intros x Hx. apply I. rewrite Hs. apply in_or_app. auto. }
  assert (Cov : forall p, In p swept -> covered o q stack p).
  { intros p Hp. right. split; [now apply Top | now apply Ed]. }
  pose proof (pop_new_edge stack C I Cov) as NewE.
  assert (OldE : Forall (fun e => 0 <= crossProduct (fst e) (snd e) q)
                   (chain_edges (hull_pop stack q))).
  { apply chain_left_of; auto.
    intros t t' rest Eq.
    destruct (hull_pop_cases stack q N) as [(b & Hb & _)|(t0 & t0' & r & Hb & S)];
      rewrite Hb in Eq; inversion Eq; subst. lia. }
  unfold hull_step.
  destruct (hull_pop stack q) as [|t rest] eqn:Hp; [congruence|].
  split; [|split; [|split]].
  - (* the chain with [q] on top *)
    change (chain o (q :: t :: rest)) with
      ((0 < crossProduct o t q \/ t = o)
       /\ match rest with
          | t'' :: _ => 0 < crossProduct t'' t q
          | [] => True
          end
       /\ chain o (t :: rest)).
    destruct rest as [|t' rest'].
    + simpl in C'. subst t. split; [now right|]. split; [trivial|reflexivity].
    + assert (S : 0 < crossProduct t' t q).
      { destruct (hull_pop_cases stack q N)
          as [(b & Hb & _)|(t0 & t0' & r & Hb & S)];
          rewrite Hp in Hb; inversion Hb; subst. exact S. }
      split; [|split; [exact S|exact C']].
      left. apply (push_strict o t' t q); auto.
      * apply swept_above. apply I'. simpl. auto.
      * apply swept_before. apply I'. simpl. auto.
      * apply ang_le_cross. apply swept_before. apply I'. simpl. auto.
  - intros x [->|Hx]; apply in_or_app; [right; simpl; auto|left; auto].
  - intros p Hin. simpl hd. apply in_app_or in Hin.
    destruct Hin as [Hin|[<-|[]]]; [now apply swept_before|].
    apply ang_le_refl.
  - intros p Hin. simpl chain_edges. apply in_app_or in Hin.
    destruct Hin as [Hin|[<-|[]]].
    + constructor.
      * simpl. specialize (NewE p Hin). simpl in NewE. exact NewE.
      * apply Forall_forall. intros e He.
        specialize (Ed p Hin). rewrite Forall_forall in Ed. apply Ed.
        rewrite Hs. now apply chain_edges_suffix.
    + constructor; [simpl; rewrite cross_same; lia|exact OldE].
Qed.

End SweepStep.

(** *** The pivot *)

Lemma above_refl o : above o o.
Proof. unfold above. lia. Qed.

Lemma above_trans a b c : above a b -> above b c -> above a c.
Proof. unfold above. lia. Qed.

Lemma hull_start_fold points :
  forall s0,
    let r :=
      fold_left
        (fun start point =>
           if (py point <? py start)
              || ((py point =? py start) && (px point <? px start))
           then point else start)
        points s0 in
    (r = s0 \/ In r points) /\ above r s0
    /\ forall p, In p points -> above r p.
Proof.
  induction points as [|x l IH]; intros s0; simpl.
  - split; [auto|]. split; [apply above_refl|]. intros p [].
  - set (s1 := if (py x <? py s0)
                  || ((py x =? py s0) && (px x <? px s0))
               then x else s0).
    destruct (IH s1) as (H1 & H2 & H3).
    assert (A : above s1 s0 /\ above s1 x /\ (s1 = s0 \/ s1 = x)).
    { unfold s1, above.
      destruct (py x <? py s0) eqn:E1; simpl.
      - apply Z.ltb_lt in E1. repeat split; auto; lia.
      - apply Z.ltb_ge in E1.
        destruct (py x =? py s0) eqn:E2; simpl.
        + apply Z.eqb_eq in E2.
          destruct (px x <? px s0) eqn:E3.
          * apply Z.ltb_lt in E3. repeat split; auto; lia.
          * apply Z.ltb_ge in E3. repeat split; auto; lia.
        + apply Z.eqb_neq in E2. repeat split; auto; lia. }
    destruct A as (A1 & A2 & A3).
    split; [|split].
    + destruct H1 as [H1|H1]; [|auto].
      rewrite H1. destruct A3 as [->| ->]; auto.
    + eapply above_trans; eauto.
    + intros p [<-|Hp]; [eapply above_trans; eauto|auto].
Qed.

Lemma hull_start_spec points :
  points <> [] ->
  In (hull_start points) points
  /\ forall p, In p points -> above (hull_start points) p.
Proof.
  intros N. unfold hull_start.
  destruct (hull_start_fold points (pt points 0)) as (H1 & _ & H3).
  split; [|exact H3].
  destruct H1 as [H1|H1]; [|exact H1].
  rewrite H1. destruct points; [congruence|]. simpl. auto.
Qed.

(** *** The sort *)

Lemma hull_before_ang_le o a b :
  above o a -> above o b ->
  if hull_before o a b then ang_le o a b else ang_le o b a.
Proof.
  unfold above, hull_before, atan2_compare, atan2_sector, ang_le,
    crossProduct, dist2.
  rewrite !Z.pow_2_r.
  set (ax := px a - px o). set (ay := py a - py o).
  set (bx := px b - px o). set (by_ := py b - py o).
  intros Ha Hb.
  assert (Ha' : 0 < ay \/ (ay = 0 /\ 0 <= ax)) by lia.
  assert (Hb' : 0 < by_ \/ (by_ = 0 /\ 0 <= bx)) by lia.
  clearbody ax ay bx by_. clear Ha Hb.
  destruct (ay <? 0) eqn:A1; [apply Z.ltb_lt in A1; lia|].
  destruct (by_ <? 0) eqn:B1; [apply Z.ltb_lt in B1; lia|].
  destruct (0 <? ay) eqn:A2; destruct (0 <? by_) eqn:B2;
    try apply Z.ltb_lt in A2; try apply Z.ltb_ge in A2;
    try apply Z.ltb_lt in B2; try apply Z.ltb_ge in B2.
  - (* both above the axis *)
    simpl.
    destruct (ax * by_ - ay * bx) eqn:V; cbv iota.
    + destruct (ax * ax + ay * ay - (bx * bx + by_ * by_) <? 0) eqn:D;
        [apply Z.ltb_lt in D|apply Z.ltb_ge in D]; split; lia.
    + split; lia.
    + split; lia.
  - (* a above the axis, b on it *)
    assert (B0 : by_ = 0) by lia. subst by_.
    destruct (0 <=? bx) eqn:B3; [|apply Z.leb_gt in B3; lia].
    simpl. split; nia.
  - (* a on the axis, b above it *)
    assert (A0 : ay = 0) by lia. subst ay.
    destruct (0 <=? ax) eqn:A3; [|apply Z.leb_gt in A3; lia].
    simpl. split; nia.
  - (* both on the axis *)
    assert (A0 : ay = 0) by lia. assert (B0 : by_ = 0) by lia. subst ay by_.
    destruct (0 <=? ax) eqn:A3; [|apply Z.leb_gt in A3; lia].
    destruct (0 <=? bx) eqn:B3; [|apply Z.leb_gt in B3; lia].
    simpl.
    destruct (ax * ax + 0 - (bx * bx + 0) <? 0) eqn:D;
      [apply Z.ltb_lt in D|apply Z.ltb_ge in D]; split; lia.
Qed.

Section InsertionSort.

Context {A : Type} (before : A -> A -> bool) (D : A -> Prop)
  (R : A -> A -> Prop).
Hypothesis before_R :
  forall a b, D a -> D b -> if before a b then R a b else R b a.
Hypothesis R_trans :
  forall a b c, D a -> D b -> D c -> R a b -> R b c -> R a c.

Lemma insert_Forall (P : A -> Prop) a l :
  P a -> Forall P l -> Forall P (insert before a l).
Proof.
  intros Ha. induction 1 as [|b l Hb Hl IH]; simpl.
  - constructor; auto.
  - destruct (before b a); constructor; auto.
Qed.

Lemma insert_sorted a l :
  D a -> Forall D l -> StronglySorted R l ->
  StronglySorted R (insert before a l).
Proof.
  intros Da Dl S. induction S as [|b l S IH F]; simpl.
  - constructor; constructor.
  - inversion Dl as [|? ? Db Dl']; subst.
    pose proof (before_R b a Db Da) as B.
    destruct (before b a).
    + constructor; [now apply IH|].
      apply insert_Forall; auto.
    + constructor; [constructor; auto|].
      constructor; [exact B|].
      rewrite Forall_forall in *. intros c Hc.
      apply (R_trans a b c); auto.
Qed.

Lemma sort_sorted l :
  Forall D l -> StronglySorted R (sort before l) /\ Forall D (sort before l).
Proof.
  unfold sort. induction 1 as [|a l Da Dl [IH1 IH2]]; simpl.
  - split; constructor.
  - split; [now apply insert_sorted | now apply insert_Forall].
Qed.

End InsertionSort.

Lemma insert_length {A} (before : A -> A -> bool) a l :
  length (insert before a l) = S (length l).
Proof.
  induction l as [|b l IH]; simpl; [reflexivity|].
  destruct (before b a); simpl; auto.
Qed.

Lemma sort_length {A} (before : A -> A -> bool) l :
  length (sort before l) = length l.
Proof.
  unfold sort. induction l as [|a l IH]; simpl; [reflexivity|].
  now rewrite insert_length, IH.
Qed.

(** *** The sweep *)

Lemma StronglySorted_middle {A} (R : A -> A -> Prop) l1 x l2 :
  StronglySorted R (l1 ++ x :: l2) -> forall p, In p l1 -> R p x.
Proof.
  induction l1 as [|a l1 IH]; simpl; intros S p Hp; [destruct Hp|].
  inversion S as [|? ? S' F]; subst. destruct Hp as [<-|Hp].
  - rewrite Forall_forall in F. apply F. apply in_or_app. simpl. auto.
  - now apply IH.
Qed.

Lemma sweep_fold o :
  forall rest swept stack,
    sweep_inv o stack swept ->
    StronglySorted (ang_le o) (swept ++ rest) ->
    Forall (above o) (swept ++ rest) ->
    sweep_inv o (fold_left hull_step rest stack) (swept ++ rest).
Proof.
  induction rest as [|q rest IH]; intros swept stack Inv S F; simpl.
  - now rewrite app_nil_r.
  - replace (swept ++ q :: rest) with ((swept ++ [q]) ++ rest) in *
      by (rewrite <- app_assoc; reflexivity).
    apply IH; auto.
    rewrite <- app_assoc in S, F. simpl in S, F.
    rewrite Forall_forall in F.
    apply sweep_step; auto.
    + apply F. apply in_or_app. simpl. auto.
    + intros p Hp. apply F. apply in_or_app. auto.
    + intros p Hp. eapply StronglySorted_middle; eauto.
Qed.

(** The edges of the hull, read off the stack. *)
Lemma chain_edges_rev stack i :
  (i + 1 < length stack)%nat ->
  In (pt (rev stack) i, pt (rev stack) (i + 1)) (chain_edges stack).
Proof.
  revert i. induction stack as [|t [|t' rest] IH]; intros i Hi;
    simpl in Hi; try lia.
  change (chain_edges (t :: t' :: rest))
    with ((t', t) :: chain_edges (t' :: rest)).
  change (rev (t :: t' :: rest)) with (rev (t' :: rest) ++ [t]).
  assert (L : length (rev (t' :: rest)) = S (length rest))
    by (rewrite length_rev; reflexivity).
  unfold pt in *.
  destruct (Nat.eq_dec (i + 1) (S (length rest))) as [E|E].
  - left. rewrite app_nth1 by lia.
    rewrite <- L in E at 1. rewrite E, nth_middle.
    f_equal. replace i with (length (rev rest)) by (rewrite length_rev; lia).
    simpl rev. now rewrite nth_middle.
  - right. rewrite !app_nth1 by lia. apply IH. simpl. lia.
Qed.

Lemma nth_last {A} (l : list A) d d' :
  l <> [] -> nth (length l - 1) l d = last l d'.
Proof.
  induction l as [|x [|y r] IH]; intros N; [congruence|reflexivity|].
  change (last (x :: y :: r) d') with (last (y :: r) d').
  rewrite <- IH by discriminate. simpl. now rewrite Nat.sub_0_r.
Qed.

Lemma polygon_edge_rev o stack a b :
  stack <> [] ->
  polygon_edge (rev stack) a b ->
  In (a, b) (chain_edges stack)
  \/ (a = hd o stack /\ b = last stack o).
Proof.
  intros N (i & Hi & -> & ->). rewrite length_rev in *.
  destruct (Nat.eq_dec (i + 1) (length stack)) as [E|E].
  - right. rewrite E, Nat.Div0.mod_same.
    destruct stack as [|t rest]; [congruence|]. simpl hd. split.
    + unfold pt. simpl rev. simpl in E.
      replace i with (length (rev rest)) by (rewrite length_rev; lia).
      now rewrite nth_middle.
    + unfold pt. rewrite rev_nth by (simpl; lia).
      apply nth_last. discriminate.
  - left. rewrite Nat.mod_small by lia. apply chain_edges_rev. lia.
Qed.

Lemma chain_last o stack : chain o stack -> last stack o = o.
Proof.
  induction stack as [|t [|t' rest] IH]; intros C.
  - reflexivity.
  - simpl in C. now subst.
  - change (last (t :: t' :: rest) o) with (last (t' :: rest) o).
    apply IH. apply (chain_tail o t); [discriminate|exact C].
Qed.

(** What the sweep leaves on the stack contains every swept point. *)
Lemma sweep_inv_contains o stack swept :
  sweep_inv o stack swept ->
  forall p, In p swept -> contains (rev stack) p.
Proof.
  intros (C & I & Top & Ed) p Hp a b E.
  assert (N : stack <> []) by (intros ->; destruct C).
  destruct (polygon_edge_rev o stack a b N E) as [H|[-> ->]].
  - specialize (Ed p Hp). rewrite Forall_forall in Ed.
    exact (Ed (a, b) H).
  - rewrite (chain_last o stack C).
    rewrite cross_cyc. apply ang_le_cross. now apply Top.
Qed.

Lemma cross_strict_trans o a b c :
  above o a -> above o b -> above o c ->
  0 < crossProduct o a b -> 0 < crossProduct o b c ->
  0 < crossProduct o a c.
Proof.
  unfold above, crossProduct. intros Ha Hb Hc H1 H2.
  set (ax := px a - px o) in *. set (ay := py a - py o) in *.
  set (bx := px b - px o) in *. set (by_ := py b - py o) in *.
  set (cx := px c - px o) in *. set (cy := py c - py o) in *.
  assert (I : by_ * (ax * cy - ay * cx)
              = ay * (bx * cy - by_ * cx) + cy * (ax * by_ - ay * bx))
    by ring.
  assert (Ha' : 0 <= ay) by lia. assert (Hc' : 0 <= cy) by lia.
  assert (Hb' : 0 < by_ \/ (by_ = 0 /\ 0 <= bx)) by lia.
  destruct Hb' as [Hb'|[Hb0 Hb']].
  - assert (T1 : 0 <= ay * (bx * cy - by_ * cx))
      by (apply Z.mul_nonneg_nonneg; lia).
    assert (T2 : 0 <= cy * (ax * by_ - ay * bx))
      by (apply Z.mul_nonneg_nonneg; lia).
    assert (P : 0 < ay \/ 0 < cy).
    { destruct (Z.eq_dec ay 0) as [A0|]; [|lia].
      destruct (Z.eq_dec cy 0) as [C0|]; [|lia].
      exfalso. rewrite A0 in H1. rewrite C0 in H2.
      assert (0 <= cx) by lia. nia. }
    assert (Q : 0 < by_ * (ax * cy - ay * cx)).
    { rewrite I. destruct P as [P|P].
      - assert (0 < ay * (bx * cy - by_ * cx))
          by (apply Z.mul_pos_pos; lia). lia.
      - assert (0 < cy * (ax * by_ - ay * bx))
          by (apply Z.mul_pos_pos; lia). lia. }
    nia.
  - exfalso. rewrite Hb0 in H1.
    assert (0 <= ay * bx) by (apply Z.mul_nonneg_nonneg; lia). lia.
Qed.

Lemma cross_pos_neq o a b : 0 < crossProduct o a b -> a <> o /\ a <> b.
Proof.
  intros H. split; intros ->.
  - rewrite cross_pivot_l in H. lia.
  - rewrite cross_same in H. lia.
Qed.

(** The vertices under the top of the chain are the pivot or at a
    strictly smaller angle than the top. *)
Lemma chain_below_top o :
  forall stack t,
    chain o (t :: stack) -> Forall (above o) (t :: stack) ->
    forall x, In x stack -> x = o \/ 0 < crossProduct o x t.
Proof.
  induction stack as [|t' rest IH]; intros t C F x Hx; [destruct Hx|].
  pose proof (chain_link _ _ _ _ C) as L.
  destruct Hx as [<-|Hx]; [tauto|].
  assert (C' : chain o (t' :: rest))
    by (apply (chain_tail o t); [discriminate|exact C]).
  pose proof (Forall_inv F) as Ft. pose proof (Forall_inv_tail F) as F'.
  destruct (IH t' C' F' x Hx) as [E|S]; [now left|].
  destruct L as [L| ->].
  - right. apply (cross_strict_trans o x t' t); auto.
    + rewrite Forall_forall in F'. apply F'. now right.
    + exact (Forall_inv F').
  - rewrite cross_pivot_r in S. lia.
Qed.

(** A chain of three vertices or more does not repeat a vertex. *)
Lemma chain_NoDup o :
  forall stack,
    chain o stack -> Forall (above o) stack ->
    (3 <= length stack)%nat -> NoDup stack.
Proof.
  induction stack as [|t rest IH]; intros C F L; [simpl in L; lia|].
  destruct rest as [|t' [|t'' rest]]; simpl in L; try lia.
  destruct (chain_inner_strict _ _ _ _ _ C) as (S1 & S2 & _).
  assert (C' : chain o (t' :: t'' :: rest))
    by (apply (chain_tail o t); [discriminate|exact C]).
  constructor.
  - intros Hin.
    destruct (chain_below_top o _ _ C F t Hin) as [E|S].
    + subst t. rewrite cross_pivot_r in S2. lia.
    + rewrite cross_same in S. lia.
  - destruct rest as [|t3 rest].
    + (* the chain under the top is the pivot and one vertex *)
      assert (E : t'' = o) by (simpl in C'; tauto). subst t''.
      constructor; [|constructor; [intros []|constructor]].
      intros [E|[]]. subst t'. rewrite cross_pivot_l in S2. lia.
    + apply IH; [exact C'|exact (Forall_inv_tail F)|simpl; lia].
Qed.

Lemma hull_step_length stack q :
  stack <> [] -> (2 <= length (hull_step stack q))%nat.
Proof.
  intros N. unfold hull_step. simpl.
  pose proof (hull_pop_nonempty stack q N) as H.
  destruct (hull_pop stack q); [congruence|simpl; lia].
Qed.

Lemma sweep_length rest :
  forall stack,
    (2 <= length stack)%nat ->
    (2 <= length (fold_left hull_step rest stack))%nat.
Proof.
  induction rest as [|q rest IH]; intros stack L; simpl; [exact L|].
  apply IH. apply hull_step_length. intros ->. simpl in L. lia.
Qed.

(** The sweep of [convexHull]: the hull is the stack the sweep leaves,
    read from its bottom, and the stack satisfies the invariant for the
    input points. *)
Lemma convexHull_sweep points :
  (3 <= length points)%nat ->
  exists o stack swept,
    convexHull points = rev stack
    /\ sweep_inv o stack swept
    /\ Forall (above o) swept
    /\ (forall p, In p points <-> In p swept)
    /\ (2 <= length stack)%nat.
Proof.
  intros Hn.
  assert (Np : points <> []) by (intros ->; simpl in Hn; lia).
  destruct (hull_start_spec points Np) as [Oin Oabove].
  set (o := hull_start points) in *.
  set (sorted := sort (hull_before o) points).
  assert (Fp : Forall (above o) points) by now apply Forall_forall.
  destruct (sort_sorted (hull_before o) (above o) (ang_le o)
              (hull_before_ang_le o) (ang_le_trans o) points Fp)
    as [Ss Fs].
  fold sorted in Ss, Fs.
  pose proof (sort_length (hull_before o) points) as Ls. fold sorted in Ls.
  assert (Ip : forall p, In p points <-> In p sorted)
    by (intros p; symmetry; apply sort_In).
  destruct sorted as [|s0 [|s1 rest]] eqn:Es; simpl in Ls; try lia.
  assert (E0 : s0 = o).
  { assert (Hin : In o (s0 :: s1 :: rest)) by now apply Ip.
    destruct Hin as [H|H]; [exact H|].
    apply ang_le_pivot. inversion Ss as [|? ? _ F]; subst.
    rewrite Forall_forall in F. now apply F. }
  subst s0.
  assert (Inv0 : sweep_inv o [s1; o] [o; s1]).
  { split; [|split; [|split]].
    - simpl. auto.
    - intros x [<-|[<-|[]]]; simpl; auto.
    - intros p [<-|[<-|[]]]; simpl.
      + apply pivot_ang_le.
      + apply ang_le_refl.
    - intros p [<-|[<-|[]]]; simpl; constructor; simpl;
        try constructor.
      + rewrite cross_pivot_r. lia.
      + rewrite cross_same. lia. }
  pose proof (sweep_fold o rest [o; s1] [s1; o] Inv0 Ss Fs) as Inv.
  simpl app in Inv.
  exists o, (fold_left hull_step rest [s1; o]), (o :: s1 :: rest).
  split; [|split; [exact Inv|split; [exact Fs|split; [exact Ip|]]]].
  - unfold convexHull.
    replace (length points <? 3)%nat with false
      by (symmetry; apply Nat.ltb_ge; exact Hn).
    fold o. fold sorted. rewrite Es. reflexivity.
  - apply sweep_length. simpl. lia.
Qed.

(** A point on the ray of [b] from the pivot and no farther than [b] is
    on the segment from the pivot to [b]. *)
Lemma shorter_between o b p :
  above o p -> above o b ->
  crossProduct o p b = 0 -> dist2 o p <= dist2 o b ->
  between o b p.
Proof.
  intros Hp Hb C D. split; [rewrite cross_swap; lia|].
  unfold above, crossProduct, dist2 in *. rewrite !Z.pow_2_r in D.
  pose proof (shorter_linear (px p - px o) (py p - py o)
                (px b - px o) (py b - py o)) as S.
  assert (Hp' : 0 < py p - py o \/ (py p - py o = 0 /\ 0 <= px p - px o))
    by lia.
  assert (Hb' : 0 < py b - py o \/ (py b - py o = 0 /\ 0 <= px b - px o))
    by lia.
  split.
  - destruct (Z_le_gt_dec 0 (px b - px o)).
    + specialize (S 1 0 Hp' Hb' C D). lia.
    + specialize (S (-1) 0 Hp' Hb' C D). lia.
  - destruct (Z_le_gt_dec 0 (py b - py o)).
    + specialize (S 0 1 Hp' Hb' C D). lia.
    + specialize (S 0 (-1) Hp' Hb' C D). lia.
Qed.

(** When the sweep leaves two vertices, every swept point is on the
    segment between them. *)
Lemma sweep_inv_segment o stack swept :
  sweep_inv o stack swept -> Forall (above o) swept ->
  length stack = 2%nat ->
  forall p, In p swept -> between (pt (rev stack) 0) (pt (rev stack) 1) p.
Proof.
  intros (C & I & Top & Ed) F L p Hp.
  destruct stack as [|b [|o' [|]]]; try discriminate.
  assert (o' = o) by (simpl in C; tauto). subst o'.
  simpl. rewrite Forall_forall in F.
  specialize (Top p Hp). specialize (Ed p Hp). simpl in Top, Ed.
  pose proof (Forall_inv Ed) as E. simpl in E.
  destruct Top as [T1 T2].
  assert (Z0 : crossProduct o p b = 0)
    by (pose proof (cross_swap o p b); lia).
  apply shorter_between; auto.
  apply F, I. simpl. auto.
Qed.

(** The sweep with exact cross products: the polygon it returns is
    convex, its vertices are input points, and every input point lies
    inside it or on its boundary.  A hull of three vertices or more
    repeats none of them; a hull of two (the points are on one line) is
    the segment that holds every input point. *)
Lemma exact_hull_correct (points : list Point) :
  (3 <= length points)%nat ->
  let hull := convexHull points in
  incl hull points
  /\ convex hull
  /\ (forall p, In p points -> contains hull p)
  /\ ((3 <= length hull)%nat -> NoDup hull)
  /\ ((length hull < 3)%nat ->
      forall p, In p points -> between (pt hull 0) (pt hull 1) p).
Proof.
  intros Hn hull.
  destruct (convexHull_sweep points Hn)
    as (o & stack & swept & Eh & Inv & F & Ip & L2).
  fold hull in Eh.
  assert (Sub : incl hull points).
  { rewrite Eh. intros x Hx. apply in_rev in Hx.
    destruct Inv as (_ & I & _). apply Ip, I, Hx. }
  assert (Con : forall p, In p points -> contains hull p).
  { intros p Hp. rewrite Eh.
    apply (sweep_inv_contains o _ _ Inv). now apply Ip. }
  split; [exact Sub|]. split; [|split; [exact Con|split]].
  - intros v Hv. apply Con. now apply Sub.
  - rewrite Eh, length_rev. intros L3. apply NoDup_rev.
    destruct Inv as (C & I & _).
    apply (chain_NoDup o); auto.
    rewrite Forall_forall in F |- *. intros x Hx. apply F, I, Hx.
  - rewrite Eh, length_rev. intros L3 p Hp.
    apply (sweep_inv_segment o stack swept Inv F); [lia|now apply Ip].
Qed.

(** * Further properties of the detector

    Properties of the stages that the code shows by itself: what a traced
    contour is, what the geometric utilities compute, what the
    simplification and the suppression keep, and how the pipeline puts
    them together. *)

(** ** The buffer and the mask *)

Lemma upto_In n k : In k (upto n) <-> 0 <= k < n.
Proof.
  unfold upto. rewrite in_map_iff. split.
  - intros (i & <- & Hi). apply in_seq in Hi. lia.
  - intros H. exists (Z.to_nat k). split; [lia|]. apply in_seq. lia.
Qed.

Lemma luma_same_colours data data' i :
  same_colours data data' -> 0 <= i -> luma data i = luma data' i.
Proof.
  intros S Hi. unfold luma, byte_at.
  pose proof (S i 0 Hi ltac:(lia)) as S0.
  pose proof (S i 1 Hi ltac:(lia)) as S1.
  pose proof (S i 2 Hi ltac:(lia)) as S2.
  rewrite Z.add_0_r in S0. now rewrite S0, S1, S2.
Qed.

Lemma toGrayscale_same_colours data data' w h :
  same_colours data data' -> toGrayscale data w h = toGrayscale data' w h.
Proof.
  intros S. unfold toGrayscale. destruct (w * h <? 0); [reflexivity|].
  f_equal. apply map_ext_in. intros i Hi. apply upto_In in Hi.
  apply luma_same_colours; [exact S|lia].
Qed.

(** X1.  The alpha channel is never read: two images of the same size
    whose buffers hold the same colour bytes give the same shapes. *)
Theorem detectShapes_ignores_alpha (w h : Z) (data data' : list Z)
    (c c' : Clock) :
  same_colours data data' ->
  shapes (fst (detectShapes (mkImage w h data) c))
  = shapes (fst (detectShapes (mkImage w h data') c')).
Proof.
  intros S.
  destruct (detectShapes_fields (mkImage w h data) c) as (_ & _ & _ & ->).
  destruct (detectShapes_fields (mkImage w h data') c') as (_ & _ & _ & ->).
  unfold detect_body. simpl.
  now rewrite (toGrayscale_same_colours data data' w h S).
Qed.

Lemma detectShapes_ignores_alpha_witness :
  shapes (fst (detectShapes (mkImage 1 1 [10; 20; 30; 255]) clock0))
  = shapes (fst (detectShapes (mkImage 1 1 [10; 20; 30; 0]) clock_sq)).
Proof.
  apply detectShapes_ignores_alpha. intros i k Hi Hk.
  destruct (Z.eq_dec i 0) as [->|N].
  - assert (C : k = 0 \/ k = 1 \/ k = 2) by lia.
    destruct C as [->|[->| ->]]; reflexivity.
  - unfold aget. replace (i * 4 + k <? 0) with false
      by (symmetry; apply Z.ltb_ge; lia).
    rewrite !(proj2 (nth_error_None _ _)) by (simpl; lia). reflexivity.
Defined.

(** *** Missing bytes *)

Lemma mul_nan_r x y : Prim2SF y = S754_nan -> Prim2SF (x * y) = S754_nan.
Proof.
  intros H. rewrite mul_spec, H. unfold SF64mul.
  now destruct (Prim2SF x) as [[|]|[|]| |[|] m e].
Qed.

Lemma add_nan_r x y : Prim2SF y = S754_nan -> Prim2SF (x + y) = S754_nan.
Proof.
  intros H. rewrite add_spec, H. unfold SF64add.
  now destruct (Prim2SF x) as [[|]|[|]| |[|] m e].
Qed.

Lemma fround_nan x : Prim2SF x = S754_nan -> Prim2SF (fround x) = S754_nan.
Proof. intros H. unfold fround. now rewrite H. Qed.

Lemma ltb_nan_l x y : Prim2SF x = S754_nan -> (x <? y)%float = false.
Proof. intros H. rewrite ltb_spec, H. reflexivity. Qed.

Lemma byte_at_missing data i :
  Z.of_nat (length data) <= i -> Prim2SF (byte_at data i) = S754_nan.
Proof.
  intros H. unfold byte_at, aget.
  destruct (i <? 0) eqn:E; [reflexivity|].
  replace (nth_error data (Z.to_nat i)) with (@None Z); [reflexivity|].
  symmetry. apply nth_error_None. lia.
Qed.

Lemma luma_missing data i :
  0 <= i -> Z.of_nat (length data) <= i * 4 + 2 ->
  Prim2SF (luma data i) = S754_nan.
Proof.
  intros Hi H. unfold luma. apply fround_nan.
  apply add_nan_r, mul_nan_r, byte_at_missing. exact H.
Qed.

(** X2.  A pixel whose colour bytes the buffer does not hold in full is
    background in the mask, whatever the threshold. *)
Theorem binarize_missing_bytes (imageData : ImageData)
    (grayscale : list float) (threshold i : Z) :
  toGrayscale (data imageData) (width imageData) (height imageData)
  = Normal grayscale ->
  0 <= i < width imageData * height imageData ->
  Z.of_nat (length (data imageData)) <= i * 4 + 2 ->
  nth_error (binarize grayscale threshold) (Z.to_nat i) = Some 0.
Proof.
  intros G Hi M. unfold toGrayscale in G.
  destruct (width imageData * height imageData <? 0); [discriminate|].
  inversion G as [G']. clear G. unfold binarize, upto.
  rewrite !nth_error_map.
  replace (nth_error (seq 0 _) (Z.to_nat i)) with (Some (Z.to_nat i)).
  - simpl. rewrite Z2Nat.id by lia.
    rewrite ltb_nan_l; [reflexivity|]. apply luma_missing; lia.
  - symmetry. rewrite nth_error_nth' with (d := 0%nat)
      by (rewrite length_seq; lia).
    rewrite seq_nth by lia. reflexivity.
Qed.

Lemma binarize_missing_bytes_witness :
  toGrayscale (data half_buffer) (width half_buffer) (height half_buffer)
  = Normal [0%float; nan]
  /\ nth_error (binarize [0%float; nan] 128) 1 = Some 0.
Proof.
  assert (G : toGrayscale (data half_buffer) (width half_buffer)
                (height half_buffer) = Normal [0%float; nan])
    by (vm_compute; reflexivity).
  split; [exact G|].
  apply (binarize_missing_bytes half_buffer [0%float; nan] 128 1 G);
    simpl; lia.
Defined.

(** *** The range of the threshold *)

Lemma for_upto_invariant {S : Type} (P : S -> Prop) maxVal
    (body : Z -> S -> S) :
  forall fuel i s,
    (forall j s', i <= j < i + Z.of_nat fuel -> P s' -> P (body j s')) ->
    P s -> P (for_upto fuel i maxVal body s).
Proof.
  induction fuel as [|fuel IH]; intros i s Hb Hs; simpl; [exact Hs|].
  destruct (of_Z i <=? maxVal)%float; [|exact Hs].
  apply IH.
  - intros j s' Hj. apply Hb. lia.
  - apply Hb; [lia|exact Hs].
Qed.

(** X3.  The threshold of [otsuThreshold] is one of the 256 bins, and
    so is the threshold the binarisation chooses. *)
Theorem otsuThreshold_range (gray : list float) (width height : Z) :
  0 <= otsuThreshold gray <= 255
  /\ 0 <= chooseThreshold gray width height <= 255.
Proof.
  assert (R : 0 <= otsuThreshold gray <= 255).
  { unfold otsuThreshold.
    destruct (otsu_histogram gray) as [counts maxVal]. cbv zeta.
    match goal with
    | |- context [for_upto 256 0 maxVal ?body (0, 0%float)] =>
        pose proof (for_upto_invariant
                      (fun st : Z * float => 0 <= fst st <= 255)
                      maxVal body 256 0 (0, 0%float)) as H;
        cbv beta in H;
        destruct (for_upto 256 0 maxVal body (0, 0%float))
          as [bestThreshold maxVariance]
    end.
    apply H; [|simpl; lia].
    intros j [b v] Hj Hs. simpl in Hs.
    destruct (otsu_class _ _ _) as [w0 mu0].
    destruct (for_upto _ (j + 1) _ _ _) as [w1 mu1].
    destruct (gt _ _); simpl; lia. }
  split; [exact R|].
  unfold chooseThreshold. destruct (_ && _); [exact R|lia].
Qed.

(** ** Contour extraction: what a traced contour is *)

Lemma try_dir_spec binary width height current dir i p d :
  try_dir binary width height current dir i = Some (p, d) ->
  foreground binary width height p /\ adjacent current p /\ 0 <= d < 8.
Proof.
  unfold try_dir.
  pose proof (Z.mod_pos_bound (dir + i) 8 ltac:(lia)) as B.
  remember ((dir + i) mod 8) as c eqn:Ec. clear Ec.
  pose proof (Z.mod_pos_bound (c + 6) 8 ltac:(lia)) as B'.
  assert (C : c = 0 \/ c = 1 \/ c = 2 \/ c = 3 \/ c = 4 \/ c = 5 \/ c = 6
              \/ c = 7) by lia.
  assert (N : forall dx dy,
             Z.abs dx <= 1 -> Z.abs dy <= 1 -> (dx <> 0 \/ dy <> 0) ->
             (if in_bounds width height (px current + dx) (py current + dy)
                 && pixel_is binary width (px current + dx) (py current + dy)
                      255
              then Some (mkPoint (px current + dx) (py current + dy),
                         (c + 6) mod 8)
              else None) = Some (p, d) ->
             foreground binary width height p /\ adjacent current p
             /\ 0 <= d < 8).
  { intros dx dy Hx Hy Hn H.
    destruct (in_bounds _ _ _ _ && _) eqn:E; [|discriminate].
    apply andb_true_iff in E. destruct E as [E1 E2].
    inversion H; subst p d. split; [split; assumption|].
    split; [|exact B'].
    unfold adjacent. simpl.
    replace (px current + dx - px current) with dx by ring.
    replace (py current + dy - py current) with dy by ring.
    split; [exact Hx|]. split; [exact Hy|].
    intros Q. destruct current as [x y]. simpl in Q.
    inversion Q. lia. }
  destruct C as [->|[->|[->|[->|[->|[->|[->| ->]]]]]]]; simpl;
    apply N; simpl; lia.
Qed.

Lemma first_some_spec {A B : Type} (f : A -> option B) l b :
  first_some f l = Some b -> exists a, In a l /\ f a = Some b.
Proof.
  induction l as [|a l IH]; simpl; [discriminate|].
  destruct (f a) as [b'|] eqn:E.
  - intros [= <-]. eauto.
  - intros H. destruct (IH H) as (a' & Ha & Hf). eauto.
Qed.

Lemma next_step_spec binary width height current dir p d :
  next_step binary width height current dir = Some (p, d) ->
  foreground binary width height p /\ adjacent current p /\ 0 <= d < 8.
Proof.
  unfold next_step. intros H.
  apply first_some_spec in H. destruct H as (i & _ & H).
  now apply try_dir_spec in H.
Qed.

Lemma linked_snoc l p q :
  linked (l ++ [p]) -> adjacent p q -> linked ((l ++ [p]) ++ [q]).
Proof.
  induction l as [|a [|b l] IH]; simpl; intros L A.
  - auto.
  - destruct L as [L _]. auto.
  - destruct L as [L1 L2]. split; [exact L1|]. apply IH; assumption.
Qed.

(** The walk of [borderFollowing]: it extends the contour by foreground
    pixels, each a neighbour of the one before, and by no more than the
    iterations it is allowed. *)
Lemma bf_loop_spec binary width height start :
  forall more current dir contour visited,
    foreground binary width height current ->
    Forall (foreground binary width height) contour ->
    linked (contour ++ [current]) ->
    let r := fst (bf_loop more binary width height start current dir
                    contour visited) in
    Forall (foreground binary width height) r
    /\ linked r
    /\ (exists rest, r = contour ++ current :: rest)
    /\ (length r <= length contour + 1 + more)%nat.
Proof.
  induction more as [|more IH]; intros current dir contour visited Fc F L;
    simpl.
  - assert (G : Forall (foreground binary width height)
                  (contour ++ [current]))
      by (apply Forall_app; auto).
    assert (Len : (length (contour ++ [current])
                   <= length contour + 1 + 0)%nat)
      by (rewrite length_app; simpl; lia).
    destruct (next_step _ _ _ _ _) as [[c' d']|];
      [destruct (Point_eqb c' start)|]; simpl;
      (split; [exact G|split; [exact L|split; [|exact Len]]];
       exists []; reflexivity).
  - assert (G : Forall (foreground binary width height)
                  (contour ++ [current]))
      by (apply Forall_app; auto).
    assert (Len : (length (contour ++ [current])
                   <= length contour + 1 + S more)%nat)
      by (rewrite length_app; simpl; lia).
    destruct (next_step _ _ _ _ _) as [[c' d']|] eqn:E;
      [destruct (Point_eqb c' start)|]; simpl;
      try (split; [exact G|split; [exact L|split; [|exact Len]]];
           exists []; reflexivity).
    apply next_step_spec in E. destruct E as (Fc' & A & _).
    specialize (IH c' d' (contour ++ [current])
                  (aset visited (py current * width + px current) 1)
                  Fc' G (linked_snoc _ _ _ L A)).
    simpl in IH. destruct IH as (I1 & I2 & (rest & I3) & I4).
    split; [exact I1|]. split; [exact I2|]. split.
    + exists (c' :: rest). rewrite I3, <- app_assoc. reflexivity.
    + rewrite length_app in I4. simpl in I4. lia.
Qed.

Lemma interior_pixels_In width height x y :
  In (x, y) (interior_pixels width height)
  <-> 1 <= x <= width - 2 /\ 1 <= y <= height - 2.
Proof.
  unfold interior_pixels. rewrite in_flat_map. split.
  - intros (y0 & Hy & H). apply in_map_iff in H.
    destruct H as (x0 & E & Hx). inversion E; subst.
    apply upto_In in Hy, Hx. lia.
  - intros [Hx Hy]. exists (y - 1). split; [apply upto_In; lia|].
    apply in_map_iff. exists (x - 1). split; [f_equal; lia|].
    apply upto_In. lia.
Qed.

Lemma borderFollowing_spec binary visited x y width height :
  1 <= x <= width - 2 -> 1 <= y <= height - 2 ->
  pixel_is binary width x y 255 = true ->
  let contour := fst (borderFollowing binary visited x y width height) in
  Forall (foreground binary width height) contour
  /\ linked contour
  /\ hd_error contour = Some (mkPoint x y)
  /\ Z.of_nat (length contour) <= width * height.
Proof.
  intros Hx Hy P contour.
  assert (Fs : foreground binary width height (mkPoint x y)).
  { split; [|exact P]. unfold in_bounds. simpl.
    repeat (apply andb_true_iff; split); lia. }
  destruct (bf_loop_spec binary width height (mkPoint x y)
              (Z.to_nat (width * height - 1)) (mkPoint x y) 0 [] visited
              Fs (Forall_nil _) I) as (H1 & H2 & (rest & H3) & H4).
  fold (borderFollowing binary visited x y width height) in H1, H2, H3, H4.
  fold contour in H1, H2, H3, H4.
  split; [exact H1|]. split; [exact H2|]. split; [now rewrite H3|].
  simpl in H4. nia.
Qed.

Lemma trace_pixel_spec binary width height visited contours x y :
  1 <= x <= width - 2 -> 1 <= y <= height - 2 ->
  Forall (traced binary width height) contours ->
  Forall (traced binary width height)
    (snd (trace_pixel binary width height (visited, contours) (x, y))).
Proof.
  intros Hx Hy F. unfold trace_pixel.
  destruct (pixel_is binary width x y 255) eqn:P; cbv beta iota;
    [|exact F].
  destruct (negb _); cbv beta iota; [|exact F].
  destruct (isEdge binary width height x y) eqn:E; [|exact F].
  pose proof (borderFollowing_spec binary visited x y width height Hx Hy P)
    as S.
  destruct (borderFollowing binary visited x y width height)
    as [contour visited'].
  cbv beta iota zeta in S.
  change (fst (contour, visited')) with contour in S.
  destruct S as (S1 & S2 & S3 & S4).
  destruct (10 <=? length contour)%nat eqn:L; cbv beta iota;
    change (snd (?a, ?b)) with b; [|exact F].
  apply Forall_app. split; [exact F|]. constructor; [|constructor].
  apply Nat.leb_le in L.
  split; [exact L|]. split; [exact S4|]. split; [exact S1|].
  split; [exact S2|]. exists x, y. auto.
Qed.

(** Every contour [traceContours] returns is a kept walk. *)
Lemma traceContours_spec binary width height :
  Forall (traced binary width height) (traceContours binary width height).
Proof.
  unfold traceContours.
  assert (G : forall l st,
             (forall x y, In (x, y) l ->
                1 <= x <= width - 2 /\ 1 <= y <= height - 2) ->
             Forall (traced binary width height) (snd st) ->
             Forall (traced binary width height)
               (snd (fold_left (trace_pixel binary width height) l st))).
  { induction l as [|[x y] l IH]; intros [visited contours] Hl F; simpl;
      [exact F|].
    apply IH; [intros; apply Hl; now right|].
    destruct (Hl x y (or_introl eq_refl)) as [Hx Hy].
    now apply trace_pixel_spec. }
  apply G; [|constructor].
  intros x y H. now apply interior_pixels_In.
Qed.

(** X4.  The points of a traced contour are pixels of the image that
    the mask marks as foreground. *)
Theorem traceContours_foreground (binary : list Z) (width height : Z) :
  Forall
    (Forall
       (fun p =>
          0 <= px p < width /\ 0 <= py p < height
          /\ aget binary (py p * width + px p) = Some 255))
    (traceContours binary width height).
Proof.
  eapply Forall_impl; [|apply traceContours_spec].
  intros contour (_ & _ & F & _).
  eapply Forall_impl; [|exact F].
  intros p [B P]. unfold in_bounds in B. unfold pixel_is in P.
  apply andb_true_iff in B. destruct B as [B B4].
  apply andb_true_iff in B. destruct B as [B B3].
  apply andb_true_iff in B. destruct B as [B1 B2].
  split; [lia|]. split; [lia|].
  destruct (aget binary (py p * width + px p)) as [b|]; [|discriminate].
  f_equal. lia.
Qed.

(** X5.  A traced contour is a walk: it starts at a pixel that is not
    on the rim of the image and has a background neighbour, and each of
    its points is one of the eight neighbours of the point before. *)
Theorem traceContours_walk (binary : list Z) (width height : Z) :
  Forall
    (fun contour =>
       linked contour
       /\ exists x y,
            hd_error contour = Some (mkPoint x y)
            /\ 1 <= x <= width - 2 /\ 1 <= y <= height - 2
            /\ isEdge binary width height x y = true)
    (traceContours binary width height).
Proof.
  eapply Forall_impl; [|apply traceContours_spec].
  intros contour (_ & _ & _ & L & S). split; assumption.
Qed.

(** X6.  A traced contour has 10 points or more, and no more points
    than the image has pixels. *)
Theorem traceContours_length (binary : list Z) (width height : Z) :
  Forall
    (fun contour =>
       (10 <= length contour)%nat
       /\ Z.of_nat (length contour) <= width * height)
    (traceContours binary width height).
Proof.
  eapply Forall_impl; [|apply traceContours_spec].
  intros contour (L1 & L2 & _). split; assumption.
Qed.


(** ** Contour extraction: what the visited mask gives *)

Lemma aset_nat_length {A} (a : list A) i v :
  length (aset_nat a i v) = length a.
Proof.
  revert i. induction a as [|b a IH]; intros [|i]; simpl; auto.
Qed.

Lemma aset_length {A} (a : list A) i v : length (aset a i v) = length a.
Proof. unfold aset. destruct (i <? 0); auto using aset_nat_length. Qed.

Lemma aset_nat_same {A} (a : list A) i v :
  (i < length a)%nat -> nth_error (aset_nat a i v) i = Some v.
Proof.
  revert i. induction a as [|b a IH]; intros [|i] H; simpl in *;
    try lia; auto. apply IH. lia.
Qed.

Lemma aset_nat_other {A} (a : list A) i j v :
  i <> j -> nth_error (aset_nat a i v) j = nth_error a j.
Proof.
  revert i j. induction a as [|b a IH]; intros [|i] [|j] H; simpl;
    try congruence; auto.
Qed.

Lemma aset_nat_beyond {A} (a : list A) i v :
  (length a <= i)%nat -> aset_nat a i v = a.
Proof.
  revert i. induction a as [|b a IH]; intros [|i] H; simpl in *;
    try lia; auto. f_equal. apply IH. lia.
Qed.

Lemma is_visited_aset visited i j :
  is_visited (aset visited i 1) j = true <->
  (j = i /\ 0 <= i < Z.of_nat (length visited))
  \/ is_visited visited j = true.
Proof.
  unfold is_visited, aget, aset.
  destruct (j <? 0) eqn:Ej.
  { split; [discriminate|]. intros [[-> H]|H]; [|discriminate].
    apply Z.ltb_lt in Ej. lia. }
  apply Z.ltb_ge in Ej.
  destruct (i <? 0) eqn:Ei.
  { split; [now right|]. intros [[-> H]|H]; [|exact H].
    apply Z.ltb_lt in Ei. lia. }
  apply Z.ltb_ge in Ei.
  destruct (Z.eq_dec j i) as [->|N].
  - destruct (Nat.lt_ge_cases (Z.to_nat i) (length visited)) as [L|L].
    + rewrite aset_nat_same by exact L. simpl.
      split; [intros _; left; split; [reflexivity|lia]|reflexivity].
    + rewrite aset_nat_beyond by exact L.
      split; [now right|]. intros [[_ H]|H]; [lia|exact H].
  - rewrite aset_nat_other by lia.
    split; [now right|]. intros [[E _]|H]; [congruence|exact H].
Qed.

(** The walk marks the pixels it adds to the contour and clears no
    mark. *)
Lemma bf_loop_marks binary width height start :
  forall more current dir contour visited,
    foreground binary width height current ->
    Z.of_nat (length visited) = width * height ->
    let r := bf_loop more binary width height start current dir contour
               visited in
    length (snd r) = length visited
    /\ (forall j, is_visited visited j = true ->
                  is_visited (snd r) j = true)
    /\ Forall (fun p => In p contour \/ marked (snd r) width p) (fst r).
Proof.
  induction more as [|more IH]; intros current dir contour visited Fc Lv;
    simpl.
  - assert (B : Forall
                  (fun p => In p contour
                            \/ marked
                                 (aset visited
                                    (py current * width + px current) 1)
                                 width p)
                  (contour ++ [current])).
    { apply Forall_app. split.
      - apply Forall_forall. intros p Hp. now left.
      - constructor; [|constructor]. right. unfold marked.
        apply is_visited_aset. left. split; [reflexivity|].
        destruct Fc as [Fb _]. unfold in_bounds in Fb.
        apply andb_true_iff in Fb. destruct Fb as [Fb B4].
        apply andb_true_iff in Fb. destruct Fb as [Fb B3].
        apply andb_true_iff in Fb. destruct Fb as [B1 B2]. nia. }
    destruct (next_step _ _ _ _ _) as [[c' d']|];
      [destruct (Point_eqb c' start)|]; simpl;
      (split; [apply aset_length|split; [|exact B]]);
      intros j Hj; apply is_visited_aset; now right.
  - assert (B : Forall
                  (fun p => In p contour
                            \/ marked
                                 (aset visited
                                    (py current * width + px current) 1)
                                 width p)
                  (contour ++ [current])).
    { apply Forall_app. split.
      - apply Forall_forall. intros p Hp. now left.
      - constructor; [|constructor]. right. unfold marked.
        apply is_visited_aset. left. split; [reflexivity|].
        destruct Fc as [Fb _]. unfold in_bounds in Fb.
        apply andb_true_iff in Fb. destruct Fb as [Fb B4].
        apply andb_true_iff in Fb. destruct Fb as [Fb B3].
        apply andb_true_iff in Fb. destruct Fb as [B1 B2]. nia. }
    destruct (next_step _ _ _ _ _) as [[c' d']|] eqn:E;
      [destruct (Point_eqb c' start)|]; simpl;
      try (split; [apply aset_length|split; [|exact B]];
           intros j Hj; apply is_visited_aset; now right).
    apply next_step_spec in E. destruct E as (Fc' & _ & _).
    specialize (IH c' d' (contour ++ [current])
                  (aset visited (py current * width + px current) 1) Fc').
    rewrite aset_length in IH. specialize (IH Lv). simpl in IH.
    destruct IH as (I1 & I2 & I3).
    split; [exact I1|]. split.
    + intros j Hj. apply I2. apply is_visited_aset. now right.
    + rewrite Forall_forall in I3, B |- *. intros p Hp.
      destruct (I3 p Hp) as [Hin|M]; [|now right].
      destruct (B p Hin) as [Hc|M]; [now left|].
      right. unfold marked in *. now apply I2.
Qed.

Lemma trace_pixel_marks binary width height st x y :
  1 <= x <= width - 2 -> 1 <= y <= height - 2 ->
  scan_inv width height st ->
  scan_inv width height (trace_pixel binary width height st (x, y)).
Proof.
  intros Hx Hy Inv. destruct st as [visited contours].
  destruct Inv as (Lv & M & P). simpl in Lv, M, P.
  unfold trace_pixel.
  destruct (pixel_is binary width x y 255) eqn:Px; cbv beta iota;
    [|repeat split; assumption].
  destruct (is_visited visited (y * width + x)) eqn:V; cbv beta iota;
    [repeat split; assumption|].
  destruct (isEdge binary width height x y); [|repeat split; assumption].
  assert (Fs : foreground binary width height (mkPoint x y)).
  { split; [|exact Px]. unfold in_bounds. simpl.
    repeat (apply andb_true_iff; split); lia. }
  pose proof (bf_loop_marks binary width height (mkPoint x y)
                (Z.to_nat (width * height - 1)) (mkPoint x y) 0 [] visited
                Fs Lv) as B.
  pose proof (borderFollowing_spec binary visited x y width height Hx Hy Px)
    as S.
  unfold borderFollowing in *.
  destruct (bf_loop _ _ _ _ _ _ _ _ _) as [contour visited'].
  cbv zeta in B, S. simpl fst in B, S. simpl snd in B.
  destruct B as (B1 & B2 & B3). destruct S as (_ & _ & S & _).
  assert (M' : Forall (Forall (marked visited' width)) contours).
  { eapply Forall_impl; [|exact M]. intros c Hc.
    eapply Forall_impl; [|exact Hc]. intros p Hp. now apply B2. }
  assert (Lv' : Z.of_nat (length visited') = width * height)
    by now rewrite B1.
  destruct (10 <=? length contour)%nat; unfold scan_inv; simpl;
    [|auto].
  split; [exact Lv'|]. split.
  - apply Forall_app. split; [exact M'|]. constructor; [|constructor].
    eapply Forall_impl; [|exact B3]. intros p [[]|Hp]. exact Hp.
  - apply ForallOrdPairs_snoc; [exact P|].
    rewrite Forall_forall in M |- *. intros c Hc q Hq Hin.
    rewrite S in Hq. inversion Hq; subst q.
    specialize (M c Hc). rewrite Forall_forall in M.
    specialize (M _ Hin). unfold marked in M. simpl in M. congruence.
Qed.

(** X7.  What the visited mask does give: a walk never starts at a pixel
    of a contour traced before it. *)
Theorem traceContours_fresh_start (binary : list Z) (width height : Z) :
  ForallOrdPairs starts_off (traceContours binary width height).
Proof.
  unfold traceContours.
  destruct (interior_pixels width height) as [|[x0 y0] l0] eqn:E;
    [constructor|].
  assert (Hwh : 0 <= width * height).
  { assert (H : In (x0, y0) (interior_pixels width height))
      by (rewrite E; now left).
    apply interior_pixels_In in H. nia. }
  rewrite <- E.
  assert (G : forall l st,
             (forall x y, In (x, y) l ->
                1 <= x <= width - 2 /\ 1 <= y <= height - 2) ->
             scan_inv width height st ->
             scan_inv width height
               (fold_left (trace_pixel binary width height) l st)).
  { induction l as [|[x y] l IH]; intros st Hl Inv; simpl; [exact Inv|].
    apply IH; [intros; apply Hl; now right|].
    destruct (Hl x y (or_introl eq_refl)) as [Hx Hy].
    now apply trace_pixel_marks. }
  apply G.
  - intros x y H. now apply interior_pixels_In.
  - split; [|split; constructor]. simpl. rewrite repeat_length. lia.
Qed.

(** ** Images without a shape *)

(** A scan that starts no walk returns no contour. *)
Lemma traceContours_no_start binary width height :
  (forall x y,
      pixel_is binary width x y 255 = true ->
      isEdge binary width height x y = false) ->
  traceContours binary width height = [].
Proof.
  intros H. unfold traceContours.
  generalize (repeat 0 (Z.to_nat (width * height))) as visited.
  induction (interior_pixels width height) as [|[x y] l IH]; intros visited;
    simpl; [reflexivity|].
  destruct (pixel_is binary width x y 255) eqn:P; cbv beta iota;
    [|apply IH].
  rewrite (H x y P). destruct (negb _); apply IH.
Qed.

Lemma pixel_is_uniform binary c width x y v :
  Forall (fun b => b = c) binary ->
  pixel_is binary width x y v = true -> v = c.
Proof.
  intros F. unfold pixel_is, aget.
  destruct (y * width + x <? 0); [discriminate|].
  destruct (nth_error binary _) as [b|] eqn:E; [|discriminate].
  apply nth_error_In in E. rewrite Forall_forall in F.
  rewrite (F b E). intros Q. apply Z.eqb_eq in Q. now symmetry.
Qed.

Lemma isEdge_pixel binary width height x y :
  isEdge binary width height x y = true ->
  exists x' y', pixel_is binary width x' y' 0 = true.
Proof.
  unfold isEdge. intros H.
  apply existsb_exists in H. destruct H as (dy & _ & H).
  apply existsb_exists in H. destruct H as (dx & _ & H).
  apply andb_true_iff in H. destruct H as [_ H]. eauto.
Qed.

(** A mask whose bytes are all the same has no contour. *)
Lemma traceContours_uniform binary c width height :
  Forall (fun b => b = c) binary ->
  traceContours binary width height = [].
Proof.
  intros F. apply traceContours_no_start. intros x y P.
  destruct (isEdge binary width height x y) eqn:E; [|reflexivity].
  apply isEdge_pixel in E. destruct E as (x' & y' & E).
  apply (pixel_is_uniform _ c) in P; [|exact F].
  apply (pixel_is_uniform _ c) in E; [|exact F]. congruence.
Qed.

Lemma detect_body_no_contours imageData grayscale :
  toGrayscale (data imageData) (width imageData) (height imageData)
  = Normal grayscale ->
  traceContours
    (binarize grayscale
       (chooseThreshold grayscale (width imageData) (height imageData)))
    (width imageData) (height imageData) = [] ->
  detect_body imageData = Normal [].
Proof.
  intros G T. unfold detect_body. rewrite G. simpl. rewrite T. reflexivity.
Qed.

Lemma detectShapes_no_contours imageData c :
  (forall grayscale,
      toGrayscale (data imageData) (width imageData) (height imageData)
      = Normal grayscale ->
      traceContours
        (binarize grayscale
           (chooseThreshold grayscale (width imageData) (height imageData)))
        (width imageData) (height imageData) = []) ->
  shapes (fst (detectShapes imageData c)) = [].
Proof.
  intros H.
  destruct (detectShapes_fields imageData c) as (_ & _ & _ & S).
  rewrite S.
  destruct (toGrayscale (data imageData) (width imageData) (height imageData))
    as [grayscale|e] eqn:G.
  - now rewrite (detect_body_no_contours imageData grayscale G
                   (H _ eq_refl)).
  - unfold detect_body. rewrite G. reflexivity.
Qed.

(** X8.  An image in which every pixel has the colour of the first one
    holds no shape: its mask is all foreground or all background, and no
    walk starts. *)
Theorem detectShapes_uniform (imageData : ImageData) (c : Clock) :
  (forall i k,
      0 <= i < width imageData * height imageData -> 0 <= k < 3 ->
      aget (data imageData) (i * 4 + k) = aget (data imageData) k) ->
  shapes (fst (detectShapes imageData c)) = [].
Proof.
  intros U. apply detectShapes_no_contours. intros grayscale G.
  unfold toGrayscale in G.
  destruct (width imageData * height imageData <? 0); [discriminate|].
  inversion G as [G']. clear G.
  set (t := chooseThreshold _ _ _). clearbody t.
  set (g0 := luma (data imageData) 0).
  apply (traceContours_uniform _ (if (g0 <? of_Z t)%float then 255 else 0)).
  unfold binarize. apply Forall_forall. intros b Hb.
  apply in_map_iff in Hb. destruct Hb as (g & <- & Hg).
  apply in_map_iff in Hg. destruct Hg as (i & <- & Hi).
  apply upto_In in Hi.
  assert (E : luma (data imageData) i = g0).
  { unfold g0, luma, byte_at.
    pose proof (U i 0 Hi ltac:(lia)) as U0.
    pose proof (U i 1 Hi ltac:(lia)) as U1.
    pose proof (U i 2 Hi ltac:(lia)) as U2.
    rewrite Z.add_0_r in U0. rewrite U0, U1, U2. reflexivity. }
  now rewrite E.
Qed.

Lemma detectShapes_uniform_witness :
  shapes (fst (detectShapes white3 clock0)) = [].
Proof.
  apply detectShapes_uniform. intros i k Hi Hk.
  change (width white3 * height white3) with 9 in Hi.
  assert (Ci : i = 0 \/ i = 1 \/ i = 2 \/ i = 3 \/ i = 4 \/ i = 5
               \/ i = 6 \/ i = 7 \/ i = 8) by lia.
  assert (Ck : k = 0 \/ k = 1 \/ k = 2) by lia.
  destruct Ci as [->|[->|[->|[->|[->|[->|[->|[->| ->]]]]]]]];
    destruct Ck as [->|[->| ->]]; reflexivity.
Defined.

(** X9.  An image less than 3 pixels wide or high holds no shape: the
    scan for contours leaves out the rim. *)
Theorem detectShapes_small_image (imageData : ImageData) (c : Clock) :
  width imageData <= 2 \/ height imageData <= 2 ->
  shapes (fst (detectShapes imageData c)) = [].
Proof.
  intros S. apply detectShapes_no_contours. intros grayscale _.
  unfold traceContours.
  assert (E : interior_pixels (width imageData) (height imageData) = []).
  { destruct (interior_pixels (width imageData) (height imageData))
      as [|[x y] l] eqn:E; [reflexivity|].
    assert (H : In (x, y) (interior_pixels (width imageData)
                             (height imageData)))
      by (rewrite E; now left).
    apply interior_pixels_In in H. lia. }
  now rewrite E.
Qed.

Lemma detectShapes_small_image_witness :
  shapes (fst (detectShapes black2 clock0)) = [].
Proof.
  apply detectShapes_small_image. left. simpl. lia.
Defined.

(** ** Bounding boxes *)

Lemma fold_min_spec {A} (f : A -> Z) l :
  forall m0,
    let r := fold_left (fun m q => Z.min m (f q)) l m0 in
    r <= m0 /\ Forall (fun q => r <= f q) l
    /\ (r = m0 \/ exists q, In q l /\ r = f q).
Proof.
  induction l as [|a l IH]; intros m0 r; subst r; simpl.
  - split; [lia|]. split; [constructor|now left].
  - specialize (IH (Z.min m0 (f a))). cbv zeta in IH.
    destruct IH as (H1 & H2 & H3).
    split; [lia|]. split; [constructor; [lia|exact H2]|].
    destruct H3 as [H3|(q & Hq & H3)].
    + rewrite H3.
      destruct (Z.min_spec m0 (f a)) as [[_ E]|[_ E]]; rewrite E;
        [now left|right; exists a; auto].
    + right. exists q. auto.
Qed.

Lemma fold_max_spec {A} (f : A -> Z) l :
  forall m0,
    let r := fold_left (fun m q => Z.max m (f q)) l m0 in
    m0 <= r /\ Forall (fun q => f q <= r) l
    /\ (r = m0 \/ exists q, In q l /\ r = f q).
Proof.
  induction l as [|a l IH]; intros m0 r; subst r; simpl.
  - split; [lia|]. split; [constructor|now left].
  - specialize (IH (Z.max m0 (f a))). cbv zeta in IH.
    destruct IH as (H1 & H2 & H3).
    split; [lia|]. split; [constructor; [lia|exact H2]|].
    destruct H3 as [H3|(q & Hq & H3)].
    + rewrite H3.
      destruct (Z.max_spec m0 (f a)) as [[_ E]|[_ E]]; rewrite E;
        [right; exists a; auto|now left].
    + right. exists q. auto.
Qed.

Lemma attained {A} (f : A -> Z) (p : A) l r :
  r = f p \/ (exists q, In q (p :: l) /\ r = f q) ->
  exists q, In q (p :: l) /\ f q = r.
Proof.
  intros [->|(q & Hq & ->)]; [exists p|exists q]; split; auto. now left.
Qed.

(** X10.  The box of [getBoundingBox] holds every point of the list, and
    each of its four sides passes through a point of the list. *)
Theorem getBoundingBox_tight (p : Point) (l : list Point) :
  let contour := p :: l in
  let b := getBoundingBox contour in
  Forall
    (fun q =>
       bb_x b <= px q <= bb_x b + bb_width b
       /\ bb_y b <= py q <= bb_y b + bb_height b)
    contour
  /\ (exists q, In q contour /\ px q = bb_x b)
  /\ (exists q, In q contour /\ px q = bb_x b + bb_width b)
  /\ (exists q, In q contour /\ py q = bb_y b)
  /\ (exists q, In q contour /\ py q = bb_y b + bb_height b).
Proof.
  intros contour b.
  destruct (fold_min_spec px contour (px p)) as (_ & X1 & X2).
  destruct (fold_min_spec py contour (py p)) as (_ & Y1 & Y2).
  destruct (fold_max_spec px contour (px p)) as (_ & X3 & X4).
  destruct (fold_max_spec py contour (py p)) as (_ & Y3 & Y4).
  set (minX := fold_left (fun m q => Z.min m (px q)) contour (px p)) in *.
  set (minY := fold_left (fun m q => Z.min m (py q)) contour (py p)) in *.
  set (maxX := fold_left (fun m q => Z.max m (px q)) contour (px p)) in *.
  set (maxY := fold_left (fun m q => Z.max m (py q)) contour (py p)) in *.
  assert (Ex : bb_x b = minX) by reflexivity.
  assert (Ey : bb_y b = minY) by reflexivity.
  assert (Ew : bb_x b + bb_width b = maxX)
    by (change (minX + (maxX - minX) = maxX); ring).
  assert (Eh : bb_y b + bb_height b = maxY)
    by (change (minY + (maxY - minY) = maxY); ring).
  rewrite Ew, Eh, Ex, Ey. clearbody minX minY maxX maxY.
  split.
  - rewrite Forall_forall in *. intros q Hq.
    specialize (X1 q Hq). specialize (Y1 q Hq).
    specialize (X3 q Hq). specialize (Y3 q Hq). simpl in *. lia.
  - split; [|split; [|split]]; apply attained; assumption.
Qed.

(** *** The boxes of the reported shapes *)

Lemma approximatePolygon_incl contour eps polygon :
  approximatePolygon contour eps = Some polygon -> incl polygon contour.
Proof.
  intros H. destruct (approximatePolygon_cases _ _ _ H)
    as [[-> _]|[L (simplified & R & -> & _)]]; [apply incl_refl|].
  rewrite rdp_indices_spec in R.
  destruct (rdp_indices _ _ _ _ _) as [I|] eqn:E; [|discriminate].
  inversion R; subst simplified. clear R.
  apply rdp_indices_kept in E; [|lia]. destruct E as (_ & _ & F).
  intros q Hq. apply in_app_or in Hq. destruct Hq as [Hq|[<-|[]]].
  - apply in_map_iff in Hq. destruct Hq as (i & <- & Hi).
    rewrite Forall_forall in F. specialize (F i Hi).
    apply nth_In. lia.
  - apply nth_In. lia.
Qed.

Lemma getBoundingBox_inside width height polygon :
  polygon <> [] ->
  Forall (fun p => 0 <= px p < width /\ 0 <= py p < height) polygon ->
  inside width height (getBoundingBox polygon).
Proof.
  intros N F. destruct polygon as [|p l]; [congruence|].
  destruct (fold_min_spec px (p :: l) (px p)) as (_ & _ & X2).
  destruct (fold_min_spec py (p :: l) (py p)) as (_ & _ & Y2).
  destruct (fold_max_spec px (p :: l) (px p)) as (X3 & _ & X4).
  destruct (fold_max_spec py (p :: l) (py p)) as (Y3 & _ & Y4).
  destruct (fold_min_spec px (p :: l) (px p)) as (X1 & _ & _).
  destruct (fold_min_spec py (p :: l) (py p)) as (Y1 & _ & _).
  apply attained in X2, Y2, X4, Y4.
  destruct X2 as (q1 & I1 & E1), Y2 as (q2 & I2 & E2),
           X4 as (q3 & I3 & E3), Y4 as (q4 & I4 & E4).
  rewrite Forall_forall in F.
  pose proof (F q1 I1). pose proof (F q2 I2).
  pose proof (F q3 I3). pose proof (F q4 I4).
  set (minX := fold_left (fun m q => Z.min m (px q)) (p :: l) (px p)) in *.
  set (minY := fold_left (fun m q => Z.min m (py q)) (p :: l) (py p)) in *.
  set (maxX := fold_left (fun m q => Z.max m (px q)) (p :: l) (px p)) in *.
  set (maxY := fold_left (fun m q => Z.max m (py q)) (p :: l) (py p)) in *.
  change (inside width height
            (mkBBox minX minY (maxX - minX) (maxY - minY))).
  clearbody minX minY maxX maxY. unfold inside. simpl. lia.
Qed.

Lemma try_tolerance_best_of contour area perimeter best eps best' :
  best_of contour best ->
  try_tolerance contour area perimeter best eps = Normal best' ->
  best_of contour best'.
Proof.
  intros B. unfold try_tolerance.
  destruct (approximatePolygon contour _) as [approx|] eqn:A; [|discriminate].
  destruct (length approx <? 3)%nat eqn:L; [now intros [= <-]|].
  destruct (classifyShapeAdvanced _ _ _ _) as [[ty conf]|];
    [|now intros [= <-]].
  destruct (gt _ _); intros [= <-]; [|exact B].
  split; [|exact (approximatePolygon_incl _ _ _ A)].
  intros ->. discriminate L.
Qed.

Lemma foldM_invariant_in {A B : Type} (P : A -> Prop) (Q : B -> Prop)
    (f : A -> B -> Completion A) :
  (forall a b a', Q b -> P a -> f a b = Normal a' -> P a') ->
  forall l a a', Forall Q l -> P a -> foldM f l a = Normal a' -> P a'.
Proof.
  intros Hf. induction l as [|b l IH]; intros a a' Hl Ha H; simpl in H.
  - now inversion H; subst.
  - destruct (f a b) as [a1|e] eqn:E; [|discriminate]. simpl in H.
    apply (IH a1 a'); [exact (Forall_inv_tail Hl)| |exact H].
    exact (Hf a b a1 (Forall_inv Hl) Ha E).
Qed.

Lemma process_contour_inside w h shapes contour shapes' :
  Forall (fun p => 0 <= px p < w /\ 0 <= py p < h) contour ->
  Forall (fun s => inside w h (boundingBox s)) shapes ->
  process_contour w h shapes contour = Normal shapes' ->
  Forall (fun s => inside w h (boundingBox s)) shapes'.
Proof.
  intros Fc Fs. unfold process_contour.
  destruct (length contour <? 10)%nat; [now intros [= <-]|].
  destruct (_ || _); [now intros [= <-]|].
  destruct (_ <? 0.15)%float; [now intros [= <-]|].
  destruct (foldM _ tolerances _) as [best|e] eqn:E; [|discriminate].
  simpl.
  assert (B : best_of contour best).
  { eapply (foldM_invariant (best_of contour));
      [|exact (Logic.I : best_of contour (None, 0%float))|exact E].
    intros a b a' Ha Hf. eapply try_tolerance_best_of; eauto. }
  unfold best_of in B.
  destruct (fst best) as [[[ty conf] approx]|]; [|now intros [= <-]].
  destruct (ge conf 0.55); intros [= <-]; [|exact Fs].
  apply Forall_app. split; [exact Fs|]. constructor; [|constructor].
  simpl. destruct B as [N I]. apply getBoundingBox_inside; [exact N|].
  rewrite Forall_forall in Fc |- *. intros p Hp. apply Fc, I, Hp.
Qed.

(** X11.  The box of every reported shape lies inside the image: its
    corner is a pixel position, its sides are not negative, and it ends
    before the right and the bottom border. *)
Theorem detectShapes_boxes_inside (imageData : ImageData) (c : Clock) :
  Forall
    (fun s => inside (width imageData) (height imageData) (boundingBox s))
    (shapes (fst (detectShapes imageData c))).
Proof.
  destruct (detectShapes_fields imageData c) as (_ & _ & _ & ->).
  unfold detect_body.
  destruct (toGrayscale _ _ _) as [grayscale|e]; simpl; [|constructor].
  set (binary := binarize _ _).
  destruct (foldM _ _ _) as [found|e] eqn:E; simpl; [|constructor].
  assert (F : Forall
                (fun s => inside (width imageData) (height imageData)
                            (boundingBox s)) found).
  { eapply (foldM_invariant_in _
              (Forall (fun p => 0 <= px p < width imageData
                                /\ 0 <= py p < height imageData)));
      [| |constructor|exact E].
    - intros a b a' Hb Ha Hf. eapply process_contour_inside; eauto.
    - eapply Forall_impl; [|apply (traceContours_spec binary)].
      intros contour (_ & _ & Hc & _). eapply Forall_impl; [|exact Hc].
      intros p [Hb _]. unfold in_bounds in Hb.
      apply andb_true_iff in Hb. destruct Hb as [Hb B4].
      apply andb_true_iff in Hb. destruct Hb as [Hb B3].
      apply andb_true_iff in Hb. destruct Hb as [B1 B2]. lia. }
  rewrite Forall_forall in F |- *. intros s Hs.
  apply F. eapply nonMaxSuppression_In; eauto.
Qed.

(** ** The area of a polygon *)

Lemma path_sum_fold F (m : list Point) d :
  forall acc,
    fold_left (fun acc i => acc + F (nth i m d) (nth (i + 1) m d))
      (seq 0 (length m - 1)) acc
    = acc + path_sum F m.
Proof.
  assert (G : forall (suf pre : list Point) acc,
             fold_left
               (fun acc i =>
                  acc + F (nth i (pre ++ suf) d) (nth (i + 1) (pre ++ suf) d))
               (seq (length pre) (length suf - 1)) acc
             = acc + path_sum F suf).
  { induction suf as [|a suf IH]; intros pre acc; [simpl; lia|].
    destruct suf as [|b suf]; [simpl; lia|].
    change (length (a :: b :: suf) - 1)%nat with (S (length suf)).
    cbn [seq fold_left].
    change (path_sum F (a :: b :: suf))
      with (F a b + path_sum F (b :: suf)).
    replace (nth (length pre) (pre ++ a :: b :: suf) d) with a
      by (now rewrite nth_middle).
    replace (nth (length pre + 1) (pre ++ a :: b :: suf) d) with b.
    2:{ replace (pre ++ a :: b :: suf) with ((pre ++ [a]) ++ b :: suf)
          by (now rewrite <- app_assoc).
        replace (length pre + 1)%nat with (length (pre ++ [a]))
          by (rewrite length_app; reflexivity).
        now rewrite nth_middle. }
    specialize (IH (pre ++ [a]) (acc + F a b)).
    rewrite <- app_assoc in IH. cbn [app] in IH.
    rewrite length_app in IH. cbn [length] in IH.
    rewrite Nat.add_1_r in IH.
    change (S (length suf) - 1)%nat with (length suf - 0)%nat in IH.
    rewrite Nat.sub_0_r in IH.
    rewrite IH. lia. }
  intros acc. exact (G m [] acc).
Qed.

Lemma fold_left_ext_in {A B} (f g : A -> B -> A) l :
  (forall a b, In b l -> f a b = g a b) ->
  forall a, fold_left f l a = fold_left g l a.
Proof.
  induction l as [|b l IH]; intros H a; simpl; [reflexivity|].
  rewrite H by now left. apply IH. intros; apply H; now right.
Qed.

(** The shoelace sum is the sum of [lace] around the closed polygon. *)
Lemma shoelace_path contour :
  shoelace contour = path_sum lace (closed contour).
Proof.
  unfold shoelace.
  rewrite <- (Z.add_0_l (path_sum lace (closed contour))).
  rewrite <- (path_sum_fold lace (closed contour) (mkPoint 0 0) 0).
  assert (L : (length (closed contour) - 1 = length contour)%nat).
  { unfold closed. rewrite length_app.
    destruct contour; simpl; [reflexivity|lia]. }
  rewrite L. apply fold_left_ext_in.
  intros acc i Hi. apply in_seq in Hi. unfold lace, pt.
  assert (E1 : nth i (closed contour) (mkPoint 0 0)
               = nth i contour (mkPoint 0 0))
    by (unfold closed; apply app_nth1; lia).
  assert (E2 : nth (i + 1) (closed contour) (mkPoint 0 0)
               = nth ((i + 1) mod length contour) contour (mkPoint 0 0)).
  { unfold closed.
    destruct (Nat.eq_dec (i + 1) (length contour)) as [E|E].
    - rewrite E, Nat.Div0.mod_same. rewrite app_nth2 by lia.
      rewrite Nat.sub_diag. destruct contour; [simpl in Hi; lia|].
      reflexivity.
    - rewrite Nat.mod_small by lia. apply app_nth1. lia. }
  rewrite E1, E2. ring.
Qed.

Lemma path_sum_cons F a b l :
  path_sum F (a :: b :: l) = F a b + path_sum F (b :: l).
Proof. reflexivity. Qed.

Lemma path_sum_snoc F m x d :
  m <> [] -> path_sum F (m ++ [x]) = path_sum F m + F (last m d) x.
Proof.
  induction m as [|a [|b m] IH]; intros N; [congruence| |].
  - simpl. lia.
  - change ((a :: b :: m) ++ [x]) with (a :: b :: (m ++ [x])).
    rewrite !path_sum_cons.
    change (b :: m ++ [x]) with ((b :: m) ++ [x]).
    rewrite IH by discriminate.
    change (last (a :: b :: m) d) with (last (b :: m) d). lia.
Qed.

(** Starting the polygon one vertex later leaves the sum as it is. *)
Lemma path_sum_rotate1 F a t :
  path_sum F (closed (t ++ [a])) = path_sum F (closed (a :: t)).
Proof.
  unfold closed. destruct t as [|b t]; [reflexivity|].
  change (firstn 1 ((b :: t) ++ [a])) with [b].
  change (firstn 1 (a :: b :: t)) with [a].
  rewrite (path_sum_snoc F _ b a) by (destruct t; discriminate).
  rewrite last_last.
  change ((a :: b :: t) ++ [a]) with (a :: b :: (t ++ [a])).
  rewrite path_sum_cons. change (b :: t ++ [a]) with ((b :: t) ++ [a]).
  lia.
Qed.

Lemma path_sum_rotate F l1 :
  forall l2, path_sum F (closed (l1 ++ l2)) = path_sum F (closed (l2 ++ l1)).
Proof.
  induction l1 as [|a l1 IH]; intros l2; [now rewrite app_nil_r|].
  change ((a :: l1) ++ l2) with (a :: (l1 ++ l2)).
  rewrite <- path_sum_rotate1, <- app_assoc, IH, <- app_assoc.
  reflexivity.
Qed.

(** The rounded shoelace sum does not depend on the vertex the polygon
    starts at. *)
Lemma exact_area_rotate (l1 l2 : list Point) :
  calculateArea (l1 ++ l2) = calculateArea (l2 ++ l1).
Proof.
  unfold calculateArea. now rewrite !shoelace_path, path_sum_rotate.
Qed.

Lemma path_sum_translate dx dy d m :
  path_sum lace (map (translate dx dy) m)
  = path_sum lace m
    + dx * (py (last m d) - py (hd d m))
    - dy * (px (last m d) - px (hd d m)).
Proof.
  induction m as [|a [|b m] IH]; [simpl; lia|simpl; lia|].
  change (map (translate dx dy) (a :: b :: m))
    with (translate dx dy a :: translate dx dy b
          :: map (translate dx dy) m).
  rewrite !path_sum_cons.
  change (translate dx dy b :: map (translate dx dy) m)
    with (map (translate dx dy) (b :: m)).
  rewrite IH.
  change (last (a :: b :: m) d) with (last (b :: m) d).
  unfold lace, translate. simpl hd. simpl px. simpl py. ring.
Qed.

(** Moving the polygon leaves the rounded shoelace sum as it is. *)
Lemma exact_area_translate (dx dy : Z) (contour : list Point) :
  calculateArea (map (translate dx dy) contour) = calculateArea contour.
Proof.
  unfold calculateArea. rewrite !shoelace_path. f_equal. f_equal. f_equal.
  unfold closed. rewrite firstn_map, <- map_app.
  rewrite (path_sum_translate dx dy (mkPoint 0 0)).
  destruct contour as [|a l]; [simpl; lia|].
  change (firstn 1 (a :: l)) with [a]. rewrite last_last.
  simpl hd. lia.
Qed.

(** *** The direction of the polygon *)

Lemma last_rev {A} (l : list A) d : last (rev l) d = hd d l.
Proof.
  destruct l as [|a l]; [reflexivity|]. simpl. now rewrite last_last.
Qed.

Lemma path_sum_rev F m :
  path_sum F (rev m) = path_sum (fun p q => F q p) m.
Proof.
  induction m as [|a [|b m] IH]; [reflexivity|reflexivity|].
  rewrite path_sum_cons, <- IH.
  change (rev (a :: b :: m)) with (rev (b :: m) ++ [a]).
  rewrite (path_sum_snoc F _ a a).
  - rewrite last_rev. simpl hd. lia.
  - simpl. destruct (rev m); discriminate.
Qed.

Lemma path_sum_lace_flip m :
  path_sum (fun p q => lace q p) m = - path_sum lace m.
Proof.
  induction m as [|a [|b m] IH]; [reflexivity|reflexivity|].
  rewrite !path_sum_cons, IH. unfold lace. ring.
Qed.

(** Walking the polygon the other way round negates the shoelace sum. *)
Lemma shoelace_rev contour : shoelace (rev contour) = - shoelace contour.
Proof.
  rewrite !shoelace_path. destruct contour as [|a t]; [reflexivity|].
  change (rev (a :: t)) with (rev t ++ [a]).
  rewrite path_sum_rotate1.
  replace (closed (a :: rev t)) with (rev (closed (a :: t))).
  - now rewrite path_sum_rev, path_sum_lace_flip.
  - unfold closed. change (firstn 1 (a :: t)) with [a].
    change (firstn 1 (a :: rev t)) with [a].
    rewrite rev_app_distr. reflexivity.
Qed.

Lemma binary_round_aux_opp s m e l :
  binary_round_aux prec emax (negb s) m e l
  = SFopp (binary_round_aux prec emax s m e l).
Proof.
  unfold binary_round_aux.
  destruct (shr_fexp _ _ _ _ _) as [mrs' e'].
  destruct (shr_fexp _ _ _ _ _) as [mrs'' e''].
  destruct (shr_m mrs''); simpl; auto.
  destruct (Z.leb _ _); reflexivity.
Qed.

Lemma binary_normalize_opp z :
  z <> 0 ->
  binary_normalize prec emax (- z) 0 false
  = SFopp (binary_normalize prec emax z 0 false).
Proof.
  intros N. destruct z as [|m|m]; [congruence| |]; simpl;
    unfold binary_round; destruct (shl_align _ _ _) as [mz ez].
  - apply (binary_round_aux_opp false).
  - apply (binary_round_aux_opp true).
Qed.

Lemma SFopp_valid s :
  valid_binary (SFopp s) = valid_binary s.
Proof. now destruct s. Qed.

(** Below 2^63 the conversion of an integer is the rounding that
    [PrimFloat] specifies for its own conversion. *)
Lemma of_Z_spec z :
  Z.abs z < 2 ^ 63 ->
  Prim2SF (of_Z z) = binary_normalize prec emax z 0 false.
Proof.
  intros B. unfold of_Z. apply Prim2SF_SF2Prim.
  assert (P : forall p, 0 <= p < 2 ^ 63 ->
                valid_binary
                  (binary_normalize prec emax p 0 false) = true).
  { intros p Hp.
    pose proof (of_uint63_spec (Uint63.of_Z p)) as S.
    rewrite Uint63.of_Z_spec in S.
    rewrite Z.mod_small in S by exact Hp.
    rewrite <- S. apply Prim2SF_valid. }
  destruct (Z_le_gt_dec 0 z) as [Hz|Hz]; [apply P; lia|].
  replace z with (- - z) by lia.
  rewrite binary_normalize_opp by lia. rewrite SFopp_valid.
  apply P. lia.
Qed.

Lemma abs_of_Z_opp z :
  Z.abs z < 2 ^ 63 -> Math_abs (of_Z (- z)) = Math_abs (of_Z z).
Proof.
  intros B. unfold Math_abs. apply Prim2SF_inj.
  rewrite !abs_spec, !of_Z_spec by lia.
  destruct (Z.eq_dec z 0) as [->|N]; [reflexivity|].
  rewrite binary_normalize_opp by exact N.
  now destruct (binary_normalize prec emax z 0 false).
Qed.

(** The rounded shoelace sum does not depend on the direction in which
    the polygon is walked, when binary64 holds the sum exactly. *)
Lemma exact_area_rev (contour : list Point) :
  Z.abs (shoelace contour) < 2 ^ 53 ->
  calculateArea (rev contour) = calculateArea contour.
Proof.
  intros B. unfold calculateArea.
  rewrite shoelace_rev, abs_of_Z_opp; [reflexivity|lia].
Qed.

(** ** What the simplification keeps *)

Lemma seq_selection (contour : list Point) :
  selection contour contour (seq 0 (length contour)).
Proof.
  split; [|split; [|split]].
  - symmetry. apply (nth_ext _ _ (pt contour 0) (mkPoint 0 0)).
    + now rewrite length_map, length_seq.
    + intros n Hn. rewrite length_map, length_seq in Hn.
      rewrite map_nth, seq_nth by exact Hn. reflexivity.
  - generalize 0%nat. induction (length contour) as [|n IH]; intros a; simpl;
      constructor; [apply IH|].
    apply Forall_forall. intros x Hx. apply in_seq in Hx. lia.
  - apply Forall_forall. intros x Hx. apply in_seq in Hx. lia.
  - intros N. destruct contour as [|p l]; [congruence|]. simpl length.
    split; [reflexivity|].
    rewrite seq_S. rewrite last_last. simpl. lia.
Qed.

Lemma StronglySorted_snoc l n :
  StronglySorted lt l -> Forall (fun i => (i < n)%nat) l ->
  StronglySorted lt (l ++ [n]).
Proof.
  intros S F. apply StronglySorted_lt_app; auto.
  - constructor; constructor.
  - intros x y Hx [<-|[]]. rewrite Forall_forall in F. now apply F.
Qed.

(** X15.  The polygon [approximatePolygon] returns is the contour with
    points left out: its points are contour points in the order of the
    contour, and the first and the last point of the contour are kept. *)
Theorem approximatePolygon_selection (contour : list Point) (eps : float)
    (polygon : list Point) :
  approximatePolygon contour eps = Some polygon ->
  exists indices, selection contour polygon indices.
Proof.
  intros H. destruct (approximatePolygon_cases _ _ _ H)
    as [[-> _]|[L (simplified & R & -> & _)]].
  - exists (seq 0 (length contour)). apply seq_selection.
  - rewrite rdp_indices_spec in R.
    destruct (rdp_indices _ _ _ _ _) as [I|] eqn:E; [|discriminate].
    inversion R; subst simplified. clear R.
    apply rdp_indices_kept in E; [|lia]. destruct E as (Hd & S & F).
    exists (I ++ [length contour - 1]%nat).
    split; [now rewrite map_app|].
    split; [now apply StronglySorted_snoc; [|eapply Forall_impl; [|exact F];
                                             intros; simpl in *; lia]|].
    split.
    + apply Forall_app. split.
      * eapply Forall_impl; [|exact F]. intros; simpl in *; lia.
      * constructor; [lia|constructor].
    + intros _. rewrite last_last. split; [|reflexivity].
      destruct I; [discriminate|]. exact Hd.
Qed.

Lemma approximatePolygon_selection_witness :
  approximatePolygon zigzag4 0.5
  = Some [mkPoint 0 0; mkPoint 5 1; mkPoint 15 0]
  /\ exists indices,
       selection zigzag4 [mkPoint 0 0; mkPoint 5 1; mkPoint 15 0] indices.
Proof.
  assert (A : approximatePolygon zigzag4 0.5
              = Some [mkPoint 0 0; mkPoint 5 1; mkPoint 15 0])
    by (vm_compute; reflexivity).
  split; [exact A|]. exact (approximatePolygon_selection _ _ _ A).
Defined.

(** *** The distance kept by the simplification *)

Lemma scan_max l :
  forall M0 i0 M m,
    scan l (M0, i0) = (M, m) -> is_nan M0 = false ->
    (M0 <=? M)%float = true
    /\ Forall (fun x => gt (fst x) M = false) l.
Proof.
  induction l as [|[d i] l IH]; intros M0 i0 M m H N.
  - simpl in H. inversion H; subst. split; [|constructor].
    now apply FloatOrder.leb_refl.
  - rewrite scan_cons in H. unfold gt in *.
    destruct (M0 <? d)%float eqn:E.
    + destruct (FloatOrder.ltb_not_nan _ _ E) as [_ Nd].
      destruct (IH d i M m H Nd) as [L F].
      split;
        [apply FloatOrder.ltb_leb; eapply FloatOrder.ltb_leb_trans; eauto|].
      constructor; [|exact F]. simpl. now apply FloatOrder.leb_not_ltb.
    + destruct (IH M0 i0 M m H N) as [L F].
      split; [exact L|]. constructor; [|exact F]. simpl.
      destruct (M <? d)%float eqn:G; [|reflexivity].
      now rewrite (FloatOrder.leb_ltb_trans _ _ _ L G) in E.
Qed.

(** No point of a span is farther from its chord than the distance
    [farthest] reports. *)
Lemma farthest_max points s e M m :
  farthest points s e = (M, m) ->
  is_nan M = false
  /\ forall i, (s < i < e)%nat -> gt (span_dist points s e i) M = false.
Proof.
  rewrite farthest_scan. intros H.
  destruct (scan_max _ _ _ _ _ H eq_refl) as [L F].
  split; [now destruct (FloatOrder.leb_not_nan _ _ L)|].
  intros i Hi. rewrite Forall_forall in F.
  apply (F (span_dist points s e i, i)).
  apply in_map_iff. exists i. split; [reflexivity|]. apply in_seq. lia.
Qed.

Lemma not_above_trans d M eps :
  is_nan M = false ->
  gt d M = false -> gt M eps = false -> gt d eps = false.
Proof.
  unfold gt. intros N H1 H2.
  destruct (eps <? d)%float eqn:E; [|reflexivity].
  destruct (FloatOrder.ltb_not_nan _ _ E) as [Ne Nd].
  pose proof (FloatOrder.not_ltb_leb _ _ Ne N H2) as L.
  now rewrite (FloatOrder.leb_ltb_trans _ _ _ L E) in H1.
Qed.

Lemma rdp_indices_head points eps :
  forall d s e I, rdp_indices d points s e eps = Some I ->
    exists I', I = s :: I'.
Proof.
  induction d as [|d IH]; intros s e I H; [discriminate|]. simpl in H.
  destruct (e - s <? 2)%nat; [inversion H; eauto|].
  destruct (farthest points s e) as [M m].
  destruct (gt M eps); [|inversion H; eauto].
  destruct (rdp_indices d points s m eps) as [L|] eqn:EL; [|discriminate].
  destruct (rdp_indices d points m e eps) as [R|] eqn:ER; [|discriminate].
  inversion H; subst. destruct (IH _ _ _ EL) as [L' ->]. simpl. eauto.
Qed.

Lemma within_glue points eps L m R :
  within points eps (L ++ [m]) -> within points eps (m :: R) ->
  within points eps (L ++ m :: R).
Proof.
  induction L as [|a [|b L] IH]; intros H1 H2.
  - exact H2.
  - simpl in H1 |- *. destruct H1 as [H1 _]. split; [exact H1|exact H2].
  - change (within points eps (a :: (b :: L) ++ m :: R)).
    change (within points eps (a :: (b :: L) ++ [m])) in H1.
    simpl in H1 |- *. destruct H1 as [H1 H1']. split; [exact H1|].
    apply IH; assumption.
Qed.

(** Between two points the recursion keeps, no point is farther than the
    tolerance from the chord. *)
Lemma rdp_indices_within points eps :
  forall d s e I,
    rdp_indices d points s e eps = Some I ->
    within points eps (I ++ [e]).
Proof.
  induction d as [|d IH]; intros s e I H; [discriminate|]. simpl in H.
  destruct (e - s <? 2)%nat eqn:E.
  { inversion H; subst. simpl. split; [|exact Logic.I].
    intros i Hi. apply Nat.ltb_lt in E. lia. }
  destruct (farthest points s e) as [M m] eqn:F.
  destruct (farthest_max _ _ _ _ _ F) as [N Max].
  destruct (gt M eps) eqn:G.
  - destruct (rdp_indices d points s m eps) as [L|] eqn:EL; [|discriminate].
    destruct (rdp_indices d points m e eps) as [R|] eqn:ER; [|discriminate].
    inversion H; subst.
    destruct (rdp_indices_head _ _ _ _ _ _ ER) as [R' ->].
    rewrite <- app_assoc. simpl.
    apply within_glue; [exact (IH _ _ _ EL)|].
    exact (IH _ _ _ ER).
  - inversion H; subst. simpl. split; [|exact Logic.I].
    intros i Hi. apply (not_above_trans _ M); auto.
    now apply Max.
Qed.

Lemma within_seq points eps n :
  forall a, within points eps (seq a n).
Proof.
  induction n as [|[|n] IH]; intros a; simpl; auto.
  split; [intros i Hi; lia|]. apply (IH (S a)).
Qed.

(** The polygon is the contour with points left out, and what is left
    out is within the tolerance: between two consecutive points of the
    polygon no contour point is farther than the tolerance from the
    chord they span. *)
Lemma exact_polygon_indices (contour : list Point) (eps : float)
    (polygon : list Point) :
  approximatePolygon contour eps = Some polygon ->
  exists indices,
    selection contour polygon indices /\ within contour eps indices.
Proof.
  intros H. destruct (approximatePolygon_cases _ _ _ H)
    as [[-> _]|[L (simplified & R & -> & _)]].
  - exists (seq 0 (length contour)).
    split; [apply seq_selection|apply within_seq].
  - rewrite rdp_indices_spec in R.
    destruct (rdp_indices _ _ _ _ _) as [I|] eqn:E; [|discriminate].
    inversion R; subst simplified. clear R.
    pose proof (rdp_indices_within _ _ _ _ _ _ E) as W.
    apply rdp_indices_kept in E; [|lia]. destruct E as (Hd & S & F).
    exists (I ++ [length contour - 1]%nat).
    split; [|exact W].
    split; [now rewrite map_app|].
    split; [now apply StronglySorted_snoc; [|eapply Forall_impl; [|exact F];
                                             intros; simpl in *; lia]|].
    split.
    + apply Forall_app. split.
      * eapply Forall_impl; [|exact F]. intros; simpl in *; lia.
      * constructor; [lia|constructor].
    + intros _. rewrite last_last. split; [|reflexivity].
      destruct I; [discriminate|]. exact Hd.
Qed.

(** ** The hull: where it starts and how it turns *)

(** X17.  The hull starts at the pivot of the sweep: the lowest input
    point, and the leftmost of the lowest. *)
Theorem convexHull_pivot (points : list Point) :
  (3 <= length points)%nat ->
  exists o rest,
    convexHull points = o :: rest
    /\ In o points
    /\ forall p, In p points ->
         py o < py p \/ (py p = py o /\ px o <= px p).
Proof.
  intros Hn.
  destruct (convexHull_sweep points Hn)
    as (o & stack & swept & Eh & (C & I & _) & F & Ip & L2).
  assert (N : stack <> []) by (intros ->; simpl in L2; lia).
  exists o, (rev (removelast stack)). split; [|split].
  - rewrite Eh. rewrite (app_removelast_last o N) at 1.
    rewrite rev_app_distr. simpl. now rewrite (chain_last o stack C).
  - apply Ip, I. rewrite <- (chain_last o stack C).
    destruct stack as [|t rest]; [congruence|].
    apply (@exists_last _ (t :: rest)) in N.
    destruct N as (l' & a & E). rewrite E. rewrite last_last.
    apply in_or_app. right. now left.
  - intros p Hp. apply Ip in Hp. rewrite Forall_forall in F.
    exact (F p Hp).
Qed.

Lemma convexHull_pivot_witness :
  (3 <= length zigzag4)%nat
  /\ exists o rest,
       convexHull zigzag4 = o :: rest
       /\ In o zigzag4
       /\ forall p, In p zigzag4 ->
            py o < py p \/ (py p = py o /\ px o <= px p).
Proof.
  assert (Hn : (3 <= length zigzag4)%nat) by (simpl; lia).
  split; [exact Hn|]. exact (convexHull_pivot zigzag4 Hn).
Defined.

Lemma left_turns_snoc l c :
  left_turns l ->
  (forall l0 a b, l = l0 ++ [a; b] -> 0 < crossProduct a b c) ->
  left_turns (l ++ [c]).
Proof.
  induction l as [|x [|y [|z l]] IH]; intros L H; simpl; auto.
  - split; [|exact Logic.I]. apply (H [] x y). reflexivity.
  - destruct L as [L1 L2]. split; [exact L1|].
    apply IH; [exact L2|].
    intros l0 a b E. apply (H (x :: l0) a b). simpl. now rewrite E.
Qed.

Lemma last_two {A} (l0 l1 : list A) a b a' b' :
  l0 ++ [a; b] = l1 ++ [a'; b'] -> a = a' /\ b = b'.
Proof.
  intros E.
  change (l0 ++ [a; b]) with (l0 ++ [a] ++ [b]) in E.
  change (l1 ++ [a'; b']) with (l1 ++ [a'] ++ [b']) in E.
  rewrite !app_assoc in E.
  apply app_inj_tail in E. destruct E as [E ->].
  apply app_inj_tail in E. destruct E as [_ ->]. auto.
Qed.

Lemma chain_left_turns o :
  forall stack, chain o stack -> left_turns (rev stack).
Proof.
  induction stack as [|t rest IH]; intros C; [exact Logic.I|].
  destruct rest as [|t' rest]; [exact Logic.I|].
  assert (C' : chain o (t' :: rest))
    by (apply (chain_tail o t); [discriminate|exact C]).
  change (rev (t :: t' :: rest)) with (rev (t' :: rest) ++ [t]).
  apply left_turns_snoc; [exact (IH C')|].
  intros l0 a b E.
  destruct rest as [|t'' rest].
  - simpl in E. destruct l0 as [|? [|? ?]]; discriminate.
  - destruct (chain_inner_strict _ _ _ _ _ C) as (S & _).
    change (rev (t' :: t'' :: rest)) with ((rev rest ++ [t'']) ++ [t']) in E.
    rewrite <- app_assoc in E. simpl in E.
    apply last_two in E. destruct E as [<- <-]. exact S.
Qed.

(** With exact cross products, a hull of three vertices or more turns
    strictly left at every vertex, the first one and the last one as
    well: no three consecutive vertices are on one line. *)
Lemma exact_hull_strict (points : list Point) :
  (3 <= length points)%nat ->
  let hull := convexHull points in
  (3 <= length hull)%nat ->
  left_turns (hull ++ firstn 2 hull).
Proof.
  intros Hn hull.
  destruct (convexHull_sweep points Hn)
    as (o & stack & swept & Eh & (C & I & _) & F & Ip & L2).
  fold hull in Eh. rewrite Eh, length_rev. intros L3.
  assert (Fs : Forall (above o) stack).
  { rewrite Forall_forall in F |- *. intros x Hx. apply F, I, Hx. }
  destruct stack as [|t [|t' rest]]; simpl in L3; try lia.
  destruct (@exists_last _ (t' :: rest) ltac:(discriminate))
    as (mid & b & Em).
  assert (Eb : b = o).
  { rewrite <- (chain_last o _ C).
    change (last (t :: t' :: rest) o) with (last (t' :: rest) o).
    rewrite Em. now rewrite last_last. }
  subst b.
  destruct (@exists_last _ mid) as (mid' & s1 & Em').
  { intros ->. destruct rest; [simpl in L3; lia|].
    simpl in Em. inversion Em. }
  subst mid.
  assert (Er : rev (t :: t' :: rest) = o :: s1 :: rev mid' ++ [t]).
  { change (rev (t :: t' :: rest)) with (rev (t' :: rest) ++ [t]).
    rewrite Em, !rev_app_distr. reflexivity. }
  assert (S1 : 0 < crossProduct o t' t).
  { destruct rest as [|t'' rest]; [simpl in L3; lia|].
    now destruct (chain_inner_strict _ _ _ _ _ C) as (_ & S & _). }
  assert (S2 : 0 < crossProduct o s1 t).
  { assert (Hin : In s1 (t' :: rest))
      by (rewrite Em; apply in_or_app; left; apply in_or_app; right;
          now left).
    destruct (chain_below_top o _ _ C Fs s1 Hin) as [->|S]; [|exact S].
    exfalso.
    (* the vertex above the pivot is not the pivot *)
    assert (C' : chain o ((t :: rev (rev mid')) ++ [o; o])).
    { rewrite rev_involutive. simpl.
      rewrite <- app_assoc in Em. simpl in Em. now rewrite <- Em. }
    clear - C'. revert t C'. generalize (rev (rev mid')).
    induction l as [|y l IH]; intros x C.
    - simpl in C. destruct C as (_ & S & _).
      rewrite cross_pivot_l in S. lia.
    - apply (IH y). apply (chain_tail o x); [discriminate|exact C]. }
  rewrite Er. simpl firstn.
  replace ((o :: s1 :: rev mid' ++ [t]) ++ [o; s1])
    with (((o :: s1 :: rev mid' ++ [t]) ++ [o]) ++ [s1])
    by (rewrite <- app_assoc; reflexivity).
  apply left_turns_snoc; [apply left_turns_snoc|].
  - rewrite <- Er. now apply (chain_left_turns o).
  - intros l0 a b E.
    assert (E' : l0 ++ [a; b] = rev rest ++ [t'; t]).
    { rewrite <- E, <- Er. simpl. now rewrite <- app_assoc. }
    apply last_two in E'. destruct E' as [-> ->].
    rewrite <- cross_cyc. exact S1.
  - intros l0 a b E.
    assert (E' : l0 ++ [a; b] = (o :: s1 :: rev mid') ++ [t; o]).
    { rewrite <- E. simpl. rewrite <- app_assoc. reflexivity. }
    apply last_two in E'. destruct E' as [-> ->].
    rewrite cross_cyc. exact S2.
Qed.

(** ** The classifier and the number of vertices *)

(** X19.  The type the classifier gives goes with the number of
    vertices: a triangle has 3 or 4, a rectangle 4 or 5, a pentagon 5 or
    6 and a star 8 to 12; a circle can have any number. *)
Theorem classifyShapeAdvanced_vertices (approx : list Point)
    (area perimeter : float) (bbox : BBox) :
  match classifyShapeAdvanced approx area perimeter bbox with
  | Some (ty, _) => vertices_of ty (length approx)
  | None => True
  end.
Proof.
  unfold classifyShapeAdvanced.
  set (vertices := length approx).
  set (circularity := (4 * Math_PI * area / (perimeter * perimeter))%float).
  set (convexity := if gt (calculateArea (convexHull approx)) 0
                    then (area / calculateArea (convexHull approx))%float
                    else 0%float).
  set (extent := if 0 <? bb_width bbox * bb_height bbox
                 then (area / of_Z (bb_width bbox * bb_height bbox))%float
                 else 0%float).
  cbv zeta.
  assert (Relaxed :
            match
              (if gt circularity 0.60 && gt extent 0.55
               then Some (circle, 0.60%float)
               else if (vertices =? 3)%nat && gt convexity 0.60
               then Some (triangle,
                          Math_min 0.75 (0.55 + convexity * 0.20)%float)
               else if (vertices =? 4)%nat && gt convexity 0.65
               then Some (rectangle, 0.60%float)
               else if (vertices =? 5)%nat && gt convexity 0.65
               then Some (pentagon, 0.60%float)
               else None)
            with
            | Some (ty, _) => vertices_of ty vertices
            | None => True
            end).
  { destruct (gt circularity 0.60 && gt extent 0.55); [exact I|].
    destruct (vertices =? 3)%nat eqn:V3.
    { destruct (gt convexity 0.60); simpl;
        [left; now apply Nat.eqb_eq|].
      destruct (vertices =? 4)%nat eqn:V4;
        [apply Nat.eqb_eq in V3, V4; lia|].
      destruct (vertices =? 5)%nat eqn:V5;
        [apply Nat.eqb_eq in V3, V5; lia|exact I]. }
    destruct (vertices =? 4)%nat eqn:V4.
    { destruct (gt convexity 0.65); simpl;
        [left; now apply Nat.eqb_eq|].
      destruct (vertices =? 5)%nat eqn:V5;
        [apply Nat.eqb_eq in V4, V5; lia|exact I]. }
    destruct (vertices =? 5)%nat eqn:V5; simpl; [|exact I].
    destruct (gt convexity 0.65); simpl;
      [left; now apply Nat.eqb_eq|exact I]. }
  set (relaxed := if gt circularity 0.60 && gt extent 0.55 then _ else _)
    in *.
  clearbody relaxed.
  assert (Star :
            match
              (if (8 <=? vertices)%nat && (vertices <=? 12)%nat
                  && ge convexity 0.30 && (convexity <=? 0.75)%float
               then match star_confidence approx with
                    | Some c => Some (star, c)
                    | None => relaxed
                    end
               else relaxed)
            with
            | Some (ty, _) => vertices_of ty vertices
            | None => True
            end).
  { destruct (_ && _) eqn:E; [|exact Relaxed].
    destruct (star_confidence approx); [|exact Relaxed].
    apply andb_true_iff in E. destruct E as [E _].
    apply andb_true_iff in E. destruct E as [E _].
    apply andb_true_iff in E. destruct E as [E1 E2].
    apply Nat.leb_le in E1, E2. simpl. lia. }
  set (starOrRelaxed := if (8 <=? vertices)%nat && _ && _ && _ then _ else _)
    in *.
  clearbody starOrRelaxed.
  assert (Circle :
            match
              (if gt circularity 0.75 && gt extent 0.65
               then Some (circle,
                          Math_min 0.95 (0.70 + circularity * 0.25)%float)
               else starOrRelaxed)
            with
            | Some (ty, _) => vertices_of ty vertices
            | None => True
            end).
  { destruct (_ && _); [exact I|exact Star]. }
  destruct (gt convexity 0.75); [|exact Circle].
  destruct (vertices =? 3)%nat eqn:V3;
    [simpl; left; now apply Nat.eqb_eq|].
  destruct (vertices =? 4)%nat eqn:V4.
  { apply Nat.eqb_eq in V4.
    destruct ((circularity <? 0.65)%float && (extent <? 0.60)%float); simpl;
      [right|left]; exact V4. }
  destruct (vertices =? 5)%nat eqn:V5.
  { apply Nat.eqb_eq in V5.
    destruct (_ || _); simpl; [right|left]; exact V5. }
  destruct (vertices =? 6)%nat eqn:V6;
    [simpl; right; now apply Nat.eqb_eq|exact Circle].
Qed.

(** ** What the suppression drops and what it keeps *)

Lemma nms_survivors_length thr current rest :
  (length (nms_survivors thr current rest) <= length rest)%nat.
Proof. unfold nms_survivors. apply filter_length_le. Qed.

Lemma nms_loop_accounts thr :
  forall rounds sorted keep,
    (length sorted <= rounds)%nat ->
    let kept := nms_loop rounds thr sorted keep in
    incl keep kept /\ Forall (accounted thr kept) sorted.
Proof.
  induction rounds as [|n IH]; intros sorted keep L; simpl.
  - destruct sorted; [|simpl in L; lia].
    split; [apply incl_refl|constructor].
  - destruct sorted as [|current rest];
      [split; [apply incl_refl|constructor]|].
    simpl in L.
    destruct (IH (nms_survivors thr current rest) (keep ++ [current]))
      as [I F].
    { pose proof (nms_survivors_length thr current rest). lia. }
    set (kept := nms_loop n thr _ _) in *.
    assert (C : In current kept)
      by (apply I, in_or_app; right; now left).
    split; [intros x Hx; apply I, in_or_app; now left|].
    constructor; [now left|].
    apply Forall_forall. intros s Hs.
    destruct (gt (calculateIoU (boundingBox current) (boundingBox s)) thr)
      eqn:G.
    + right. exists current. auto.
    + rewrite Forall_forall in F. apply F. unfold nms_survivors.
      apply filter_In. split; [exact Hs|]. now rewrite G.
Qed.

(** X20.  The suppression drops a shape only for a shape it keeps: every
    shape given is in the result, or its box overlaps the box of a shape
    of the result beyond the threshold. *)
Theorem nonMaxSuppression_accounts (shapes : list DetectedShape)
    (iouThreshold : float) :
  Forall (accounted iouThreshold (nonMaxSuppression shapes iouThreshold))
    shapes.
Proof.
  unfold nonMaxSuppression. destruct shapes as [|s l]; [constructor|].
  set (sorted := sort _ (s :: l)).
  destruct (nms_loop_accounts iouThreshold (length sorted) sorted []
              (Nat.le_refl _)) as [_ F].
  rewrite Forall_forall in F |- *. intros x Hx. apply F.
  unfold sorted. now apply sort_In.
Qed.

(** *** Shapes that do not overlap *)

Section InsertPairs.
Context {A : Type} (before : A -> A -> bool) (R : A -> A -> Prop).
Hypothesis R_sym : forall a b, R a b -> R b a.

Lemma insert_pairs a l :
  Forall (R a) l -> ForallOrdPairs R l ->
  ForallOrdPairs R (insert before a l).
Proof.
  induction l as [|b l IH]; intros Fa P; simpl.
  - constructor; constructor.
  - inversion P as [|? ? Fb P']; subst.
    destruct (before b a).
    + constructor.
      * apply Forall_forall. intros x Hx. apply insert_In in Hx.
        destruct Hx as [->|Hx].
        -- apply R_sym. exact (Forall_inv Fa).
        -- rewrite Forall_forall in Fb. now apply Fb.
      * apply IH; [exact (Forall_inv_tail Fa)|exact P'].
    + constructor; assumption.
Qed.

Lemma sort_pairs l : ForallOrdPairs R l -> ForallOrdPairs R (sort before l).
Proof.
  induction 1 as [|a l Fa P IH]; simpl; [constructor|].
  apply insert_pairs; [|exact IH].
  apply Forall_forall. intros x Hx. apply sort_In in Hx.
  rewrite Forall_forall in Fa. now apply Fa.
Qed.

Lemma insert_perm a l : Permutation (a :: l) (insert before a l).
Proof.
  induction l as [|b l IH]; simpl; [reflexivity|].
  destruct (before b a); [|reflexivity].
  rewrite perm_swap. now constructor.
Qed.

Lemma sort_perm l : Permutation l (sort before l).
Proof.
  induction l as [|a l IH]; simpl; [constructor|].
  rewrite <- insert_perm. now constructor.
Qed.

End InsertPairs.

Lemma apart_sym thr a b : apart thr a b -> apart thr b a.
Proof. unfold apart. now rewrite calculateIoU_sym. Qed.

Lemma nms_survivors_apart thr current rest :
  Forall (apart thr current) rest -> nms_survivors thr current rest = rest.
Proof.
  intros F. unfold nms_survivors.
  induction F as [|s l H F IH]; simpl; [reflexivity|].
  unfold apart in H. rewrite H. simpl. now rewrite IH.
Qed.

Lemma nms_loop_apart_all thr :
  forall rounds sorted keep,
    (length sorted <= rounds)%nat ->
    ForallOrdPairs (apart thr) sorted ->
    nms_loop rounds thr sorted keep = keep ++ sorted.
Proof.
  induction rounds as [|n IH]; intros sorted keep L P; simpl.
  - destruct sorted; [now rewrite app_nil_r|simpl in L; lia].
  - destruct sorted as [|current rest]; [now rewrite app_nil_r|].
    inversion P as [|? ? F P']; subst.
    rewrite (nms_survivors_apart thr current rest F).
    rewrite IH; [|simpl in L; lia|exact P'].
    now rewrite <- app_assoc.
Qed.

(** Shapes no two of which overlap beyond the threshold all pass the
    loop: the result is the sorted list. *)
Lemma nonMaxSuppression_apart_sort shapes thr :
  ForallOrdPairs (apart thr) shapes ->
  nonMaxSuppression shapes thr
  = sort (fun a b => (confidence b - confidence a <? 0)%float) shapes.
Proof.
  intros P. unfold nonMaxSuppression.
  destruct shapes as [|s l]; [reflexivity|].
  rewrite nms_loop_apart_all; [reflexivity|apply Nat.le_refl|].
  apply sort_pairs; [apply apart_sym|exact P].
Qed.

(** X21.  Shapes no two of which overlap beyond the threshold are all
    kept: the result is the given shapes in another order at most. *)
Theorem nonMaxSuppression_keeps_apart (shapes : list DetectedShape)
    (iouThreshold : float) :
  ForallOrdPairs (apart iouThreshold) shapes ->
  Permutation shapes (nonMaxSuppression shapes iouThreshold)
  /\ length (nonMaxSuppression shapes iouThreshold) = length shapes.
Proof.
  intros P. rewrite (nonMaxSuppression_apart_sort _ _ P).
  split; [apply sort_perm|apply sort_length].
Qed.

Lemma nonMaxSuppression_keeps_apart_witness :
  ForallOrdPairs (apart 0.5) [shape_at 0; shape_at 20]
  /\ length (nonMaxSuppression [shape_at 0; shape_at 20] 0.5) = 2%nat.
Proof.
  assert (P : ForallOrdPairs (apart 0.5) [shape_at 0; shape_at 20]).
  { constructor; [|constructor; constructor].
    constructor; [|constructor]. unfold apart. vm_compute. reflexivity. }
  split; [exact P|].
  exact (proj2 (nonMaxSuppression_keeps_apart _ _ P)).
Defined.

(** X26.  The suppression has nothing left to drop in its own result:
    applied again, it keeps every shape. *)
Theorem nonMaxSuppression_again (shapes : list DetectedShape)
    (iouThreshold : float) :
  let kept := nonMaxSuppression shapes iouThreshold in
  Permutation kept (nonMaxSuppression kept iouThreshold)
  /\ length (nonMaxSuppression kept iouThreshold) = length kept.
Proof.
  intros kept.
  rewrite (nonMaxSuppression_apart_sort kept iouThreshold
             (nonMaxSuppression_apart shapes iouThreshold)).
  split; [apply sort_perm|apply sort_length].
Qed.

(** *** Boxes that do not intersect *)

Lemma zero_div_not_above y thr :
  (thr <? 0)%float = false -> (thr <? 0 / y)%float = false.
Proof.
  rewrite !ltb_spec, div_spec.
  change (Prim2SF 0) with (S754_zero false).
  unfold SF64div, SFltb.
  destruct (Prim2SF y) as [[|]|[|]| |[|] m e],
           (Prim2SF thr) as [[|]|[|]| |[|] m' e']; simpl; auto.
Qed.

(** X22.  Boxes that do not intersect have no overlap that a threshold
    which is not negative could be below: neither shape suppresses the
    other. *)
Theorem calculateIoU_disjoint (a b : BBox) (iouThreshold : float) :
  disjoint a b ->
  (iouThreshold <? 0)%float = false ->
  gt (calculateIoU a b) iouThreshold = false
  /\ gt (calculateIoU b a) iouThreshold = false.
Proof.
  intros D T.
  assert (G : forall a b, disjoint a b ->
                gt (calculateIoU a b) iouThreshold = false).
  { clear a b D. intros a b D. unfold calculateIoU, gt.
    assert (E : Z.max 0 (Z.min (bb_x a + bb_width a) (bb_x b + bb_width b)
                         - Z.max (bb_x a) (bb_x b))
                * Z.max 0 (Z.min (bb_y a + bb_height a)
                             (bb_y b + bb_height b)
                           - Z.max (bb_y a) (bb_y b)) = 0).
    { unfold disjoint in D. apply Z.mul_eq_0. lia. }
    rewrite E. destruct (0 <? _); [|exact T].
    change (of_Z 0) with 0%float. now apply zero_div_not_above. }
  split; apply G; [exact D|].
  unfold disjoint in *. tauto.
Qed.

Lemma calculateIoU_disjoint_witness :
  disjoint (box_at 0) (box_at 20)
  /\ gt (calculateIoU (box_at 0) (box_at 20)) 0.5 = false.
Proof.
  assert (D : disjoint (box_at 0) (box_at 20)) by (left; simpl; lia).
  split; [exact D|].
  exact (proj1 (calculateIoU_disjoint _ _ 0.5 D eq_refl)).
Defined.

(** ** The candidates of a contour *)

(** One round of the loop over the tolerances, by its candidate. *)
Lemma try_tolerance_candidate contour area perimeter best eps best' :
  try_tolerance contour area perimeter best eps = Normal best' ->
  best' = match candidate contour area perimeter eps with
          | Some c => if gt (score c) (snd best) then (Some c, score c)
                      else best
          | None => best
          end.
Proof.
  unfold try_tolerance, candidate.
  destruct (approximatePolygon contour _) as [approx|]; [|discriminate].
  destruct (length approx <? 3)%nat; [now intros [= <-]|].
  destruct (classifyShapeAdvanced _ _ _ _) as [[ty conf]|];
    [|now intros [= <-]].
  simpl. destruct (gt _ _); now intros [= <-].
Qed.

Lemma try_tolerance_best_inv contour area perimeter best eps best' :
  In eps tolerances ->
  best_inv contour area perimeter best ->
  try_tolerance contour area perimeter best eps = Normal best' ->
  best_inv contour area perimeter best'
  /\ (snd best <=? snd best')%float = true
  /\ forall c, candidate contour area perimeter eps = Some c ->
       gt (score c) (snd best') = false.
Proof.
  intros He (N & B) H. apply try_tolerance_candidate in H. subst best'.
  destruct (candidate contour area perimeter eps) as [c|] eqn:C.
  - unfold gt. destruct (snd best <? score c)%float eqn:G.
    + destruct (FloatOrder.ltb_not_nan _ _ G) as [_ Nc].
      split.
      { unfold best_inv. simpl. split; [exact Nc|].
        split; [reflexivity|]. exists eps. auto. }
      split; [now apply FloatOrder.ltb_leb|].
      intros c' [= <-]. apply FloatOrder.ltb_irrefl.
    + split; [split; assumption|].
      split; [now apply FloatOrder.leb_refl|].
      intros c' [= <-]. exact G.
  - split; [split; assumption|].
    split; [now apply FloatOrder.leb_refl|]. discriminate.
Qed.

Lemma tolerance_loop contour area perimeter :
  forall l best best',
    incl l tolerances ->
    best_inv contour area perimeter best ->
    foldM (try_tolerance contour area perimeter) l best = Normal best' ->
    best_inv contour area perimeter best'
    /\ (snd best <=? snd best')%float = true
    /\ forall eps c, In eps l ->
         candidate contour area perimeter eps = Some c ->
         gt (score c) (snd best') = false.
Proof.
  induction l as [|eps l IH]; intros best best' Hl Inv H; simpl in H.
  - inversion H; subst. split; [exact Inv|].
    split; [apply FloatOrder.leb_refl; apply Inv|]. intros ? ? [].
  - destruct (try_tolerance contour area perimeter best eps) as [b1|e]
      eqn:E; [|discriminate]. simpl in H.
    destruct (try_tolerance_best_inv _ _ _ _ _ _
                (Hl eps (or_introl eq_refl)) Inv E) as (I1 & L1 & M1).
    destruct (IH b1 best' (fun x Hx => Hl x (or_intror Hx)) I1 H)
      as (I2 & L2 & M2).
    split; [exact I2|].
    split; [exact (FloatOrder.leb_trans _ _ _ L1 L2)|].
    intros eps' c [<-|Hin] C; [|exact (M2 eps' c Hin C)].
    specialize (M1 c C). unfold gt in *.
    destruct (snd best' <? score c)%float eqn:G; [|reflexivity].
    now rewrite (FloatOrder.leb_ltb_trans _ _ _ L2 G) in M1.
Qed.

(** X24.  The loop over the tolerances keeps a candidate of one of
    them, and no tolerance gives a candidate with a higher score. *)
Theorem best_candidate (contour : list Point) (area perimeter : float) :
  match foldM (try_tolerance contour area perimeter) tolerances
          (None, 0%float) with
  | Normal (Some c, bestScore) =>
      bestScore = score c
      /\ (exists eps, In eps tolerances
            /\ candidate contour area perimeter eps = Some c)
      /\ forall eps c', In eps tolerances ->
           candidate contour area perimeter eps = Some c' ->
           gt (score c') bestScore = false
  | Normal (None, _) =>
      forall eps c', In eps tolerances ->
        candidate contour area perimeter eps = Some c' ->
        gt (score c') 0 = false
  | Throw _ => True
  end.
Proof.
  destruct (foldM _ _ _) as [[[c|] bestScore]|e] eqn:E; [| |exact I].
  - destruct (tolerance_loop contour area perimeter tolerances
                (None, 0%float) _ (incl_refl _)
                (conj eq_refl eq_refl) E) as ((_ & B) & _ & M).
    simpl in B, M. destruct B as [B1 B2]. auto.
  - destruct (tolerance_loop contour area perimeter tolerances
                (None, 0%float) _ (incl_refl _)
                (conj eq_refl eq_refl) E) as ((_ & B) & _ & M).
    simpl in B, M. subst bestScore. exact M.
Qed.

Lemma process_contour_reported contours w h shapes contour shapes' :
  In contour contours ->
  Forall (reported contours) shapes ->
  process_contour w h shapes contour = Normal shapes' ->
  Forall (reported contours) shapes'.
Proof.
  intros Hc Fs. unfold process_contour.
  destruct (length contour <? 10)%nat; [now intros [= <-]|].
  destruct (_ || _); [now intros [= <-]|].
  destruct (_ <? 0.15)%float; [now intros [= <-]|].
  destruct (foldM _ tolerances _) as [best|e] eqn:E; [|discriminate].
  simpl.
  destruct (tolerance_loop _ _ _ tolerances (None, 0%float) best
              (incl_refl _) (conj eq_refl eq_refl) E) as ((_ & B) & _).
  destruct (fst best) as [[[ty conf] approx]|]; [|now intros [= <-]].
  destruct (ge conf 0.55); intros [= <-]; [|exact Fs].
  apply Forall_app. split; [exact Fs|]. constructor; [|constructor].
  destruct B as (_ & eps & He & C).
  exists contour, eps, ty, conf, approx. auto.
Qed.

(** X25.  Every reported shape is made of a candidate: a traced contour
    and a tolerance of the list give its class and confidence, the box
    and the centroid are those of the simplified polygon, and the area is
    the rounded area of the contour. *)
Theorem detectShapes_reported (imageData : ImageData) (c : Clock) :
  let w := width imageData in
  let h := height imageData in
  match toGrayscale (data imageData) w h with
  | Normal grayscale =>
      Forall
        (reported
           (traceContours
              (binarize grayscale (chooseThreshold grayscale w h)) w h))
        (shapes (fst (detectShapes imageData c)))
  | Throw _ => shapes (fst (detectShapes imageData c)) = []
  end.
Proof.
  intros w h.
  destruct (detectShapes_fields imageData c) as (_ & _ & _ & ->).
  unfold detect_body. fold w h.
  destruct (toGrayscale _ _ _) as [grayscale|e]; simpl; [|reflexivity].
  set (contours := traceContours _ w h).
  destruct (foldM _ _ _) as [found|e] eqn:E; simpl; [|constructor].
  assert (F : Forall (reported contours) found).
  { apply (foldM_invariant_in (Forall (reported contours))
             (fun contour => In contour contours) (process_contour w h)
             (fun a b a' Hb Ha Hf =>
                process_contour_reported contours w h a b a' Hb Ha Hf)
             contours [] found);
      [apply Forall_forall; auto|constructor|exact E]. }
  rewrite Forall_forall in F |- *. intros s Hs.
  apply F. eapply nonMaxSuppression_In; eauto.
Qed.

Lemma nms_loop_length thr :
  forall rounds sorted keep,
    (length (nms_loop rounds thr sorted keep)
     <= length keep + length sorted)%nat.
Proof.
  induction rounds as [|n IH]; intros sorted keep; simpl; [lia|].
  destruct sorted as [|current rest]; [lia|].
  specialize (IH (nms_survivors thr current rest) (keep ++ [current])).
  pose proof (nms_survivors_length thr current rest).
  rewrite length_app in IH. simpl in *. lia.
Qed.

Lemma nonMaxSuppression_length shapes thr :
  (length (nonMaxSuppression shapes thr) <= length shapes)%nat.
Proof.
  unfold nonMaxSuppression. destruct shapes as [|s l]; [simpl; lia|].
  etransitivity; [apply nms_loop_length|].
  rewrite sort_length. simpl. lia.
Qed.

Lemma process_contour_one w h shapes contour shapes' :
  process_contour w h shapes contour = Normal shapes' ->
  (length shapes' <= length shapes + 1)%nat.
Proof.
  unfold process_contour.
  destruct (length contour <? 10)%nat; [intros [= <-]; lia|].
  destruct (_ || _); [intros [= <-]; lia|].
  destruct (_ <? 0.15)%float; [intros [= <-]; lia|].
  destruct (foldM _ tolerances _) as [best|e]; [|discriminate]. simpl.
  destruct (fst best) as [[[ty conf] approx]|]; [|intros [= <-]; lia].
  destruct (ge conf 0.55); intros [= <-]; [|lia].
  rewrite length_app. simpl. lia.
Qed.

Lemma foldM_process_length w h :
  forall contours shapes found,
    foldM (process_contour w h) contours shapes = Normal found ->
    (length found <= length shapes + length contours)%nat.
Proof.
  induction contours as [|contour contours IH]; intros shapes found H;
    simpl in H.
  - inversion H; subst. lia.
  - destruct (process_contour w h shapes contour) as [s1|e] eqn:E;
      [|discriminate]. simpl in H.
    apply process_contour_one in E. apply IH in H. simpl. lia.
Qed.

(** X27.  A contour gives one shape at most: the result has no more
    shapes than contours were traced. *)
Theorem detectShapes_one_per_contour (imageData : ImageData) (c : Clock) :
  let w := width imageData in
  let h := height imageData in
  match toGrayscale (data imageData) w h with
  | Normal grayscale =>
      (length (shapes (fst (detectShapes imageData c)))
       <= length (traceContours
                    (binarize grayscale (chooseThreshold grayscale w h))
                    w h))%nat
  | Throw _ => shapes (fst (detectShapes imageData c)) = []
  end.
Proof.
  intros w h.
  destruct (detectShapes_fields imageData c) as (_ & _ & _ & ->).
  unfold detect_body. fold w h.
  destruct (toGrayscale _ _ _) as [grayscale|e]; simpl; [|reflexivity].
  destruct (foldM _ _ _) as [found|e] eqn:E; simpl; [|lia].
  apply foldM_process_length in E.
  pose proof (nonMaxSuppression_length found 0.5). simpl in E. lia.
Qed.

(** ** Moving a polygon *)

Lemma pt_translate dx dy l i :
  (i < length l)%nat ->
  pt (map (translate dx dy) l) i = translate dx dy (pt l i).
Proof.
  intros H. unfold pt.
  rewrite (nth_indep _ _ (translate dx dy (mkPoint 0 0)))
    by (now rewrite length_map).
  apply map_nth.
Qed.

(** X28.  Moving the polygon leaves its perimeter as it is. *)
Theorem calculatePerimeter_translate (dx dy : Z) (points : list Point) :
  calculatePerimeter (map (translate dx dy) points)
  = calculatePerimeter points.
Proof.
  unfold calculatePerimeter. rewrite length_map.
  apply fold_left_ext_in. intros perimeter i Hi. apply in_seq in Hi.
  assert (Hj : ((i + 1) mod length points < length points)%nat)
    by (apply Nat.mod_upper_bound; lia).
  rewrite !pt_translate by lia. unfold translate. simpl.
  do 3 f_equal. ring.
Qed.

Lemma perpendicularDistance_translate dx dy p s e :
  perpendicularDistance (translate dx dy p) (translate dx dy s)
    (translate dx dy e)
  = perpendicularDistance p s e.
Proof.
  unfold perpendicularDistance, translate. simpl.
  replace (px e + dx - (px s + dx)) with (px e - px s) by ring.
  replace (py e + dy - (py s + dy)) with (py e - py s) by ring.
  replace (px p + dx - (px s + dx)) with (px p - px s) by ring.
  replace (py p + dy - (py s + dy)) with (py p - py s) by ring.
  replace ((py e - py s) * (px p + dx) - (px e - px s) * (py p + dy)
           + (px e + dx) * (py s + dy) - (py e + dy) * (px s + dx))
    with ((py e - py s) * px p - (px e - px s) * py p
          + px e * py s - py e * px s) by ring.
  reflexivity.
Qed.

Lemma farthest_translate dx dy points s e :
  (e < length points)%nat ->
  farthest (map (translate dx dy) points) s e = farthest points s e.
Proof.
  intros He. unfold farthest. apply fold_left_ext_in.
  intros [maxDist maxIndex] i Hi. apply in_seq in Hi.
  destruct (Nat.le_gt_cases e s) as [L|L]; [lia|].
  rewrite !pt_translate by lia.
  now rewrite perpendicularDistance_translate.
Qed.

Lemma rdp_translate dx dy points eps :
  forall d s e,
    (s <= e < length points)%nat ->
    rdp d (map (translate dx dy) points) s e eps
    = option_map (map (translate dx dy)) (rdp d points s e eps).
Proof.
  induction d as [|d IH]; intros s e H; [reflexivity|].
  rewrite !rdp_unfold.
  destruct (e - s <? 2)%nat eqn:E.
  { simpl. now rewrite pt_translate by lia. }
  rewrite farthest_translate by lia.
  destruct (farthest points s e) as [M m] eqn:F.
  assert (Hm : (s <= m < e)%nat).
  { apply farthest_cases in F. apply Nat.ltb_ge in E.
    destruct F as [[_ ->]|[Hm _]]; lia. }
  destruct (gt M eps).
  - rewrite !IH by lia.
    destruct (rdp d points s m eps) as [lft|]; [|reflexivity].
    destruct (rdp d points m e eps) as [rgt|]; [|reflexivity].
    simpl. now rewrite map_app.
  - simpl. now rewrite pt_translate by lia.
Qed.

(** With the distances of the integer model, the simplification goes
    with the polygon when it is moved. *)
Lemma exact_polygon_translate (dx dy : Z) (contour : list Point)
    (eps : float) :
  approximatePolygon (map (translate dx dy) contour) eps
  = option_map (map (translate dx dy)) (approximatePolygon contour eps).
Proof.
  unfold approximatePolygon. rewrite length_map.
  destruct (length contour <? 3)%nat eqn:L; [reflexivity|].
  apply Nat.ltb_ge in L.
  rewrite rdp_translate by lia.
  destruct (rdp _ contour _ _ _) as [simplified|]; [|reflexivity].
  simpl. rewrite pt_translate by lia.
  rewrite !length_app, length_map. simpl length.
  destruct (length simplified + 1)%nat as [|[|[|n]]]; simpl;
    try reflexivity. now rewrite map_app.
Qed.

(** *** The hull of moved points *)

Lemma crossProduct_translate dx dy o a b :
  crossProduct (translate dx dy o) (translate dx dy a) (translate dx dy b)
  = crossProduct o a b.
Proof. unfold crossProduct, translate. simpl. ring. Qed.

Lemma hull_before_translate dx dy o a b :
  hull_before (translate dx dy o) (translate dx dy a) (translate dx dy b)
  = hull_before o a b.
Proof.
  unfold hull_before, translate. simpl.
  replace (py a + dy - (py o + dy)) with (py a - py o) by ring.
  replace (px a + dx - (px o + dx)) with (px a - px o) by ring.
  replace (py b + dy - (py o + dy)) with (py b - py o) by ring.
  replace (px b + dx - (px o + dx)) with (px b - px o) by ring.
  reflexivity.
Qed.

Lemma ltb_shift a b d : (a + d <? b + d) = (a <? b).
Proof.
  destruct (a <? b) eqn:E1, (a + d <? b + d) eqn:E2; try reflexivity;
    rewrite ?Z.ltb_lt, ?Z.ltb_ge in E1, E2; lia.
Qed.

Lemma eqb_shift a b d : (a + d =? b + d) = (a =? b).
Proof.
  destruct (a =? b) eqn:E1, (a + d =? b + d) eqn:E2; try reflexivity;
    rewrite ?Z.eqb_eq, ?Z.eqb_neq in E1, E2; lia.
Qed.

Lemma lowest_translate dx dy :
  forall l s,
    fold_left
      (fun start point =>
         if (py point <? py start)
            || ((py point =? py start) && (px point <? px start))
         then point else start)
      (map (translate dx dy) l) (translate dx dy s)
    = translate dx dy
        (fold_left
           (fun start point =>
              if (py point <? py start)
                 || ((py point =? py start) && (px point <? px start))
              then point else start)
           l s).
Proof.
  induction l as [|p l IH]; intros s; [reflexivity|].
  simpl map. simpl fold_left. rewrite <- IH. f_equal.
  rewrite !ltb_shift, eqb_shift.
  now destruct ((py p <? py s) || ((py p =? py s) && (px p <? px s))).
Qed.

Lemma hull_start_translate dx dy points :
  points <> [] ->
  hull_start (map (translate dx dy) points)
  = translate dx dy (hull_start points).
Proof.
  intros N. unfold hull_start.
  rewrite pt_translate by (destruct points; [congruence|simpl; lia]).
  apply lowest_translate.
Qed.

Lemma insert_map {A B} (f : A -> B) (before : A -> A -> bool)
    (before' : B -> B -> bool) a l :
  (forall x y, before' (f x) (f y) = before x y) ->
  insert before' (f a) (map f l) = map f (insert before a l).
Proof.
  intros H. induction l as [|b l IH]; simpl; [reflexivity|].
  rewrite H. destruct (before b a); simpl; [now rewrite IH|reflexivity].
Qed.

Lemma sort_map {A B} (f : A -> B) (before : A -> A -> bool)
    (before' : B -> B -> bool) l :
  (forall x y, before' (f x) (f y) = before x y) ->
  sort before' (map f l) = map f (sort before l).
Proof.
  intros H. induction l as [|a l IH]; [reflexivity|].
  change (sort before' (map f (a :: l)))
    with (insert before' (f a) (sort before' (map f l))).
  rewrite IH. now apply insert_map.
Qed.

Lemma hull_pop_translate dx dy p :
  forall stack,
    hull_pop (map (translate dx dy) stack) (translate dx dy p)
    = map (translate dx dy) (hull_pop stack p).
Proof.
  induction stack as [|t [|b rest] IH]; [reflexivity|reflexivity|].
  change (map (translate dx dy) (t :: b :: rest))
    with (translate dx dy t :: translate dx dy b
          :: map (translate dx dy) rest).
  simpl hull_pop. rewrite crossProduct_translate.
  destruct (crossProduct b t p <=? 0); [|reflexivity].
  exact IH.
Qed.

Lemma sweep_translate dx dy :
  forall rest stack,
    fold_left hull_step (map (translate dx dy) rest)
      (map (translate dx dy) stack)
    = map (translate dx dy) (fold_left hull_step rest stack).
Proof.
  induction rest as [|q rest IH]; intros stack; [reflexivity|].
  simpl. rewrite <- IH. f_equal. unfold hull_step.
  now rewrite hull_pop_translate.
Qed.

(** X30.  The hull goes with the points when they are moved. *)
Theorem convexHull_translate (dx dy : Z) (points : list Point) :
  convexHull (map (translate dx dy) points)
  = map (translate dx dy) (convexHull points).
Proof.
  unfold convexHull. rewrite length_map.
  destruct (length points <? 3)%nat eqn:L; [reflexivity|].
  apply Nat.ltb_ge in L.
  rewrite hull_start_translate by (intros ->; simpl in L; lia).
  rewrite (sort_map (translate dx dy) (hull_before (hull_start points)))
    by (intros; apply hull_before_translate).
  set (sorted := sort (hull_before (hull_start points)) points).
  assert (Ls : length sorted = length points) by apply sort_length.
  rewrite skipn_map, !pt_translate by lia.
  change [translate dx dy (pt sorted 1); translate dx dy (pt sorted 0)]
    with (map (translate dx dy) [pt sorted 1; pt sorted 0]).
  now rewrite sweep_translate, map_rev.
Qed.

(** * The arithmetic of the code

    Where the code multiplies and adds coordinates it works in binary64.
    On integers below 2^53 these operations do not round; this part
    proves it from the specification of the binary64 operations, shows
    that the functions of [Binary64] are the integer functions above as
    long as the coordinates stay in that range, and states what the code
    computes there. *)

(** ** Integers in binary64 *)

(** The number of binary digits of a mantissa. *)
Lemma digits2_pos_bounds p :
  2 ^ (Z.pos (digits2_pos p) - 1) <= Z.pos p < 2 ^ Z.pos (digits2_pos p).
Proof.
  induction p as [p IH|p IH|]; cbn [digits2_pos].
  - rewrite Pos2Z.inj_succ, Pos2Z.inj_xI.
    replace (Z.succ (Z.pos (digits2_pos p)) - 1)
      with (Z.succ (Z.pos (digits2_pos p) - 1)) by lia.
    rewrite !Z.pow_succ_r by lia.
    destruct IH as [L U]. revert L U.
    generalize (2 ^ (Z.pos (digits2_pos p) - 1)) (2 ^ Z.pos (digits2_pos p)).
    intros; lia.
  - rewrite Pos2Z.inj_succ. change (Z.pos p~0) with (2 * Z.pos p).
    replace (Z.succ (Z.pos (digits2_pos p)) - 1)
      with (Z.succ (Z.pos (digits2_pos p) - 1)) by lia.
    rewrite !Z.pow_succ_r by lia.
    destruct IH as [L U]. revert L U.
    generalize (2 ^ (Z.pos (digits2_pos p) - 1)) (2 ^ Z.pos (digits2_pos p)).
    intros; lia.
  - simpl. lia.
Qed.

Lemma digits2_pos_unique p d :
  2 ^ (d - 1) <= Z.pos p < 2 ^ d -> Z.pos (digits2_pos p) = d.
Proof.
  intros [L U]. pose proof (digits2_pos_bounds p) as [L' U'].
  assert (0 < d).
  { destruct (Z_lt_le_dec 0 d); [assumption|].
    destruct (Z.eq_dec d 0) as [->|]; [simpl in U; lia|].
    rewrite Z.pow_neg_r in U by lia. lia. }
  destruct (Z_lt_le_dec (Z.pos (digits2_pos p)) d).
  - assert (2 ^ Z.pos (digits2_pos p) <= 2 ^ (d - 1))
      by (apply Z.pow_le_mono_r; lia). lia.
  - destruct (Z_lt_le_dec d (Z.pos (digits2_pos p))); [|lia].
    assert (2 ^ d <= 2 ^ (Z.pos (digits2_pos p) - 1))
      by (apply Z.pow_le_mono_r; lia). lia.
Qed.

Lemma digits2_pos_shift m m' k :
  0 <= k -> Z.pos m = Z.pos m' * 2 ^ k ->
  Z.pos (digits2_pos m) = Z.pos (digits2_pos m') + k.
Proof.
  intros Hk E. apply digits2_pos_unique.
  pose proof (digits2_pos_bounds m') as [L U].
  replace (Z.pos (digits2_pos m') + k - 1)
    with ((Z.pos (digits2_pos m') - 1) + k) by lia.
  rewrite !Z.pow_add_r by lia. rewrite E.
  assert (0 < 2 ^ k) by (apply Z.pow_pos_nonneg; lia).
  split.
  - apply Z.mul_le_mono_nonneg_r; lia.
  - apply Z.mul_lt_mono_pos_r; lia.
Qed.

(** Shifting a mantissa right by as many places as it has zeros at its
    end loses nothing. *)
Lemma iter_pos_nat {A} (f : A -> A) p x :
  iter_pos f p x = Nat.iter (Pos.to_nat p) f x.
Proof.
  revert x. induction p as [p IH|p IH|]; intros x; cbn [iter_pos].
  - rewrite !IH, Pos2Nat.inj_xI, Nat.iter_succ_r.
    replace (2 * Pos.to_nat p)%nat with (Pos.to_nat p + Pos.to_nat p)%nat
      by lia.
    now rewrite Nat.iter_add.
  - rewrite !IH, Pos2Nat.inj_xO.
    replace (2 * Pos.to_nat p)%nat with (Pos.to_nat p + Pos.to_nat p)%nat
      by lia.
    now rewrite Nat.iter_add.
  - reflexivity.
Qed.

Lemma shr_1_iter n : forall m m',
  Z.pos m = Z.pos m' * 2 ^ Z.of_nat n ->
  Nat.iter n shr_1 (Build_shr_record (Z.pos m) false false)
  = Build_shr_record (Z.pos m') false false.
Proof.
  induction n as [|n IH]; intros m m' E.
  - change (2 ^ Z.of_nat 0) with 1 in E. rewrite Z.mul_1_r in E.
    cbn [Nat.iter]. now rewrite E.
  - rewrite Nat.iter_succ_r.
    rewrite Nat2Z.inj_succ, Z.pow_succ_r in E by lia.
    assert (E' : Z.pos m = 2 * (Z.pos m' * 2 ^ Z.of_nat n)) by lia.
    clear E. remember (Z.pos m' * 2 ^ Z.of_nat n) as t eqn:T.
    destruct m as [q|q|]; try lia.
    cbn [shr_1 orb]. apply IH. rewrite <- T. lia.
Qed.

(** Rounding does not change a number that is given with a longer
    mantissa than its own: the mantissa is shifted to its place. *)
Lemma binary_round_aux_shift s m m' e e' :
  e <= e' -> Z.pos m = Z.pos m' * 2 ^ (e' - e) ->
  fexp prec emax (Z.pos (digits2_pos m') + e') = e' ->
  e' <= emax - prec ->
  binary_round_aux prec emax s (Z.pos m) e loc_Exact = S754_finite s m' e'.
Proof.
  intros Le E C M.
  pose proof (digits2_pos_shift m m' (e' - e) ltac:(lia) E) as D.
  unfold binary_round_aux.
  assert (S1 : shr_fexp prec emax (Z.pos m) e loc_Exact
               = (Build_shr_record (Z.pos m') false false, e')).
  { unfold shr_fexp. cbn [Zdigits2 shr_record_of_loc].
    rewrite D.
    replace (Z.pos (digits2_pos m') + (e' - e) + e)
      with (Z.pos (digits2_pos m') + e') by lia.
    rewrite C. unfold shr.
    destruct (e' - e) as [|p|p] eqn:K; try lia.
    - rewrite Z.mul_1_r in E. injection E as ->. f_equal. lia.
    - rewrite iter_pos_nat.
      rewrite (shr_1_iter _ m m')
        by (rewrite positive_nat_Z; exact E).
      f_equal. lia. }
  rewrite S1. cbn [shr_m loc_of_shr_record round_nearest_even].
  assert (S2 : shr_fexp prec emax (Z.pos m') e' loc_Exact
               = (Build_shr_record (Z.pos m') false false, e')).
  { unfold shr_fexp. cbn [Zdigits2 shr_record_of_loc].
    rewrite C, Z.sub_diag. reflexivity. }
  rewrite S2. cbn [shr_m].
  destruct (Z.leb_spec e' (emax - prec)); [reflexivity|lia].
Qed.

Lemma iter_xO m d : Z.pos (Pos.iter xO m d) = Z.pos m * 2 ^ Z.pos d.
Proof.
  pose proof (shift_pos_correct d m) as S. unfold shift_pos in S.
  rewrite S. change (Z.pow_pos 2 d) with (2 ^ Z.pos d). apply Z.mul_comm.
Qed.

Lemma binary_round_shift s m m' e e' :
  (e' <= e /\ Z.pos m' = Z.pos m * 2 ^ (e - e'))
  \/ (e <= e' /\ Z.pos m = Z.pos m' * 2 ^ (e' - e)) ->
  fexp prec emax (Z.pos (digits2_pos m') + e') = e' ->
  e' <= emax - prec ->
  binary_round prec emax s m e = S754_finite s m' e'.
Proof.
  intros R C M. unfold binary_round.
  assert (D : Z.pos (digits2_pos m) + e = Z.pos (digits2_pos m') + e').
  { destruct R as [[L E]|[L E]].
    - rewrite (digits2_pos_shift m' m (e - e')) by (lia || exact E). lia.
    - rewrite (digits2_pos_shift m m' (e' - e)) by (lia || exact E). lia. }
  rewrite D, C. unfold shl_align.
  destruct (e' - e) as [|p|p] eqn:K.
  - assert (e' = e) by lia. subst e'.
    apply binary_round_aux_shift; try lia; try assumption.
    rewrite Z.sub_diag in *. destruct R as [[_ E]|[_ E]]; lia.
  - destruct R as [[L E]|[L E]]; [lia|].
    apply binary_round_aux_shift; try lia; try assumption.
    now rewrite K.
  - destruct R as [[L E]|[L E]]; [|lia].
    apply binary_round_aux_shift; try lia; try assumption.
    rewrite Z.sub_diag, Z.mul_1_r. rewrite iter_xO, E.
    f_equal. f_equal. lia.
Qed.

(** The mantissa and the exponent of an integer below 2^53. *)
Lemma Zdigits2_bounds z :
  z <> 0 -> 2 ^ (Zdigits2 z - 1) <= Z.abs z < 2 ^ Zdigits2 z.
Proof.
  destruct z as [|p|p]; intros N; [congruence| |];
    apply digits2_pos_bounds.
Qed.

Lemma Zdigits2_small z :
  z <> 0 -> Z.abs z < 2 ^ 53 -> 1 <= Zdigits2 z <= 53.
Proof.
  intros N B. pose proof (Zdigits2_bounds z N) as [L U].
  split; [destruct z; simpl; lia|].
  destruct (Z_le_gt_dec (Zdigits2 z) 53) as [|G]; [assumption|].
  assert (2 ^ 53 <= 2 ^ (Zdigits2 z - 1))
    by (apply Z.pow_le_mono_r; lia). lia.
Qed.

Lemma mant_spec z :
  z <> 0 -> Z.abs z < 2 ^ 53 ->
  Z.pos (mant z) = Z.abs z * 2 ^ (- expo z).
Proof.
  intros N B. pose proof (Zdigits2_small z N B).
  unfold mant, expo. rewrite Z2Pos.id.
  - f_equal. f_equal. lia.
  - apply Z.mul_pos_pos; [lia|]. apply Z.pow_pos_nonneg; lia.
Qed.

Lemma mant_digits z :
  z <> 0 -> Z.abs z < 2 ^ 53 -> Z.pos (digits2_pos (mant z)) = 53.
Proof.
  intros N B. pose proof (Zdigits2_small z N B) as D.
  pose proof (Zdigits2_bounds z N) as [L U].
  apply digits2_pos_unique. rewrite mant_spec by assumption.
  unfold expo.
  assert (P : 0 < 2 ^ (- (Zdigits2 z - 53)))
    by (apply Z.pow_pos_nonneg; lia).
  assert (E1 : 2 ^ (53 - 1)
               = 2 ^ (Zdigits2 z - 1) * 2 ^ (- (Zdigits2 z - 53)))
    by (rewrite <- Z.pow_add_r by lia; f_equal; lia).
  assert (E2 : 2 ^ 53 = 2 ^ Zdigits2 z * 2 ^ (- (Zdigits2 z - 53)))
    by (rewrite <- Z.pow_add_r by lia; f_equal; lia).
  rewrite E1, E2.
  split.
  - apply Z.mul_le_mono_nonneg_r; lia.
  - apply Z.mul_lt_mono_pos_r; lia.
Qed.

Lemma mant_canonical z :
  z <> 0 -> Z.abs z < 2 ^ 53 ->
  fexp prec emax (Z.pos (digits2_pos (mant z)) + expo z) = expo z.
Proof.
  intros N B. rewrite mant_digits by assumption.
  pose proof (Zdigits2_small z N B). unfold fexp, expo, emin, prec, emax.
  lia.
Qed.

(** Rounding an integer that is given with a scale. *)
Lemma binary_round_aux_scaled s M e z :
  z <> 0 -> Z.abs z < 2 ^ 53 -> e <= expo z ->
  Z.pos M = Z.abs z * 2 ^ (- e) ->
  binary_round_aux prec emax s (Z.pos M) e loc_Exact
  = S754_finite s (mant z) (expo z).
Proof.
  intros N B L E. pose proof (Zdigits2_small z N B) as D.
  apply binary_round_aux_shift.
  - exact L.
  - rewrite E, mant_spec by assumption. rewrite <- Z.mul_assoc.
    rewrite <- Z.pow_add_r by (unfold expo in *; lia).
    f_equal. f_equal. lia.
  - now apply mant_canonical.
  - unfold expo, emax, prec. lia.
Qed.

Lemma binary_round_scaled s M e z :
  z <> 0 -> Z.abs z < 2 ^ 53 -> e <= 0 ->
  Z.pos M = Z.abs z * 2 ^ (- e) ->
  binary_round prec emax s M e = S754_finite s (mant z) (expo z).
Proof.
  intros N B L E. pose proof (Zdigits2_small z N B) as D.
  apply binary_round_shift.
  - rewrite E, mant_spec by assumption.
    destruct (Z_le_gt_dec (expo z) e) as [Le|G]; [left|right];
      (split; [lia|]); rewrite <- Z.mul_assoc;
      rewrite <- Z.pow_add_r by (unfold expo in *; lia);
      f_equal; f_equal; lia.
  - now apply mant_canonical.
  - unfold expo, emax, prec. lia.
Qed.

Lemma binary_normalize_scaled M e z :
  Z.abs z < 2 ^ 53 -> e <= 0 -> M = z * 2 ^ (- e) ->
  binary_normalize prec emax M e false = SFZ z.
Proof.
  intros B L E. unfold SFZ.
  assert (P : 0 < 2 ^ (- e)) by (apply Z.pow_pos_nonneg; lia).
  destruct (Z.eqb_spec z 0) as [->|N]; [now subst M|].
  destruct z as [|p|p]; [congruence| |].
  - destruct M as [|q|q]; try lia.
    cbn [binary_normalize Z.ltb Z.compare].
    now apply binary_round_scaled.
  - destruct M as [|q|q]; try lia.
    cbn [binary_normalize Z.ltb Z.compare].
    apply binary_round_scaled; try assumption.
    cbn [Z.abs]. lia.
Qed.

(** The conversion of an integer below 2^53 does not round. *)
Lemma of_Z_SFZ z : Z.abs z < 2 ^ 53 -> Prim2SF (of_Z z) = SFZ z.
Proof.
  intros B. rewrite of_Z_spec by lia.
  apply binary_normalize_scaled; [assumption|lia|]. simpl. lia.
Qed.

Lemma SFZ_opp z : z <> 0 -> SFZ (- z) = SFopp (SFZ z).
Proof.
  intros N. unfold SFZ, mant, expo.
  destruct z as [|p|p]; [congruence| |]; reflexivity.
Qed.

(** Sums, differences and products of integers do not round as long as
    the result is below 2^53. *)
Lemma SFadd_SFZ a b :
  Z.abs a < 2 ^ 53 -> Z.abs b < 2 ^ 53 -> Z.abs (a + b) < 2 ^ 53 ->
  SFadd prec emax (SFZ a) (SFZ b) = SFZ (a + b).
Proof.
  intros A B C.
  destruct (Z.eq_dec a 0) as [->|Na].
  { rewrite Z.add_0_l. unfold SFZ at 1. cbn [Z.eqb].
    unfold SFZ. now destruct (b =? 0). }
  destruct (Z.eq_dec b 0) as [->|Nb].
  { rewrite Z.add_0_r. unfold SFZ at 2. cbn [Z.eqb].
    unfold SFZ. now destruct (Z.eqb_spec a 0). }
  pose proof (Zdigits2_small a Na A) as Da.
  pose proof (Zdigits2_small b Nb B) as Db.
  unfold SFZ at 1 2.
  destruct (Z.eqb_spec a 0) as [|_]; [congruence|].
  destruct (Z.eqb_spec b 0) as [|_]; [congruence|].
  cbn [SFadd].
  set (ez := Z.min (expo a) (expo b)).
  assert (Ez : - 52 <= ez <= 0) by (unfold ez, expo; lia).
  assert (S : forall z, z <> 0 -> Z.abs z < 2 ^ 53 -> ez <= expo z ->
            cond_Zopp (z <? 0)
              (Z.pos (fst (shl_align (mant z) (expo z) ez)))
            = z * 2 ^ (- ez)).
  { intros z N Bz L. pose proof (Zdigits2_small z N Bz) as Dz.
    assert (F : Z.pos (fst (shl_align (mant z) (expo z) ez))
                = Z.abs z * 2 ^ (- ez)).
    { unfold shl_align.
      destruct (ez - expo z) as [|p|p] eqn:K; cbn [fst]; try lia.
      - rewrite mant_spec by assumption. f_equal. f_equal. lia.
      - rewrite iter_xO, mant_spec by assumption.
        rewrite <- Z.mul_assoc, <- Z.pow_add_r
          by (unfold expo in *; lia).
        f_equal. f_equal. lia. }
    rewrite F. unfold cond_Zopp.
    destruct (Z.ltb_spec z 0); [rewrite Z.abs_neq by lia|
                                rewrite Z.abs_eq by lia]; ring. }
  rewrite !S by (assumption || (unfold ez; lia)).
  apply binary_normalize_scaled; [assumption|lia|ring].
Qed.

Lemma SFsub_SFadd x y :
  SFsub prec emax x y = SFadd prec emax x (SFopp y).
Proof.
  destruct x as [[]|[]| |sx mx ex], y as [[]|[]| |sy my ey];
    try reflexivity.
  cbn [SFsub SFadd SFopp]. f_equal.
  destruct sy; cbn [negb cond_Zopp]; lia.
Qed.

Lemma SFsub_SFZ a b :
  Z.abs a < 2 ^ 53 -> Z.abs b < 2 ^ 53 -> Z.abs (a - b) < 2 ^ 53 ->
  SFsub prec emax (SFZ a) (SFZ b) = SFZ (a - b).
Proof.
  intros A B C.
  destruct (Z.eq_dec b 0) as [->|Nb].
  { rewrite Z.sub_0_r. unfold SFZ at 2. cbn [Z.eqb].
    unfold SFZ. now destruct (Z.eqb_spec a 0); [|destruct (a <? 0)]. }
  rewrite SFsub_SFadd, <- SFZ_opp by assumption.
  apply SFadd_SFZ; lia.
Qed.

Lemma SFmul_SFZ a b :
  a <> 0 -> b <> 0 -> Z.abs (a * b) < 2 ^ 53 ->
  SFmul prec emax (SFZ a) (SFZ b) = SFZ (a * b).
Proof.
  intros Na Nb C.
  assert (A : Z.abs a < 2 ^ 53) by (rewrite Z.abs_mul in C; nia).
  assert (B : Z.abs b < 2 ^ 53) by (rewrite Z.abs_mul in C; nia).
  assert (Nab : a * b <> 0) by nia.
  pose proof (Zdigits2_small a Na A) as Da.
  pose proof (Zdigits2_small b Nb B) as Db.
  pose proof (Zdigits2_small _ Nab C) as Dab.
  pose proof (Zdigits2_bounds a Na) as [La _].
  pose proof (Zdigits2_bounds b Nb) as [Lb _].
  pose proof (Zdigits2_bounds _ Nab) as [_ Uab].
  unfold SFZ.
  destruct (Z.eqb_spec a 0) as [|_]; [congruence|].
  destruct (Z.eqb_spec b 0) as [|_]; [congruence|].
  destruct (Z.eqb_spec (a * b) 0) as [|_]; [congruence|].
  cbn [SFmul].
  replace (xorb (a <? 0) (b <? 0)) with (a * b <? 0)
    by (destruct (Z.ltb_spec a 0), (Z.ltb_spec b 0),
          (Z.ltb_spec (a * b) 0); try reflexivity; nia).
  apply binary_round_aux_scaled; try assumption.
  - assert (G : Zdigits2 a + Zdigits2 b - 2 < Zdigits2 (a * b)).
    { apply (Z.pow_lt_mono_r_iff 2); [lia|lia|].
      replace (Zdigits2 a + Zdigits2 b - 2)
        with ((Zdigits2 a - 1) + (Zdigits2 b - 1)) by lia.
      rewrite Z.pow_add_r by lia. rewrite Z.abs_mul in Uab.
      assert (0 < 2 ^ (Zdigits2 a - 1)) by (apply Z.pow_pos_nonneg; lia).
      assert (0 < 2 ^ (Zdigits2 b - 1)) by (apply Z.pow_pos_nonneg; lia).
      nia. }
    unfold expo. lia.
  - rewrite Pos2Z.inj_mul, !mant_spec by assumption.
    rewrite Z.abs_mul.
    replace (- (expo a + expo b)) with (- expo a + - expo b) by lia.
    rewrite Z.pow_add_r by (unfold expo; lia). ring.
Qed.

Lemma represents_of_Z z : Z.abs z < 2 ^ 53 -> represents (of_Z z) z.
Proof. intros B. left. now apply of_Z_SFZ. Qed.

Lemma SFZ_cases z :
  (z = 0 /\ SFZ z = S754_zero false)
  \/ (z <> 0 /\ SFZ z = S754_finite (z <? 0) (mant z) (expo z)).
Proof.
  unfold SFZ. destruct (Z.eqb_spec z 0); [left|right]; now split.
Qed.

Lemma SFadd_negzero_r a :
  SFadd prec emax (SFZ a) (S754_zero true) = SFZ a.
Proof. destruct (SFZ_cases a) as [[_ ->]|[_ ->]]; reflexivity. Qed.

Lemma SFadd_negzero_l a :
  SFadd prec emax (S754_zero true) (SFZ a) = SFZ a.
Proof. destruct (SFZ_cases a) as [[_ ->]|[_ ->]]; reflexivity. Qed.

(** The same for numbers that are integers, the negative zero
    included: a product with the factor 0 can be the negative zero. *)
Lemma represents_add x y a b :
  represents x a -> represents y b ->
  Z.abs a < 2 ^ 53 -> Z.abs b < 2 ^ 53 -> Z.abs (a + b) < 2 ^ 53 ->
  represents (x + y) (a + b).
Proof.
  intros [X|[-> X]] [Y|[-> Y]] A B C; unfold represents;
    rewrite add_spec, X, Y.
  - left. now apply SFadd_SFZ.
  - left. now rewrite Z.add_0_r, SFadd_negzero_r.
  - left. now rewrite Z.add_0_l, SFadd_negzero_l.
  - right. now split.
Qed.

Lemma represents_opp x a : represents x a -> represents (- x) (- a).
Proof.
  intros [X|[-> X]]; unfold represents; rewrite opp_spec, X.
  - destruct (Z.eq_dec a 0) as [->|N].
    + right. now split.
    + left. now rewrite SFZ_opp.
  - left. reflexivity.
Qed.

Lemma represents_sub x y a b :
  represents x a -> represents y b ->
  Z.abs a < 2 ^ 53 -> Z.abs b < 2 ^ 53 -> Z.abs (a - b) < 2 ^ 53 ->
  represents (x - y) (a - b).
Proof.
  intros X Y A B C.
  assert (E : (x - y)%float = (x + - y)%float).
  { apply Prim2SF_inj.
    now rewrite sub_spec, add_spec, opp_spec, SFsub_SFadd. }
  rewrite E. replace (a - b) with (a + - b) by lia.
  apply represents_add; try lia; [assumption|now apply represents_opp].
Qed.

Lemma represents_mul x y a b :
  represents x a -> represents y b -> Z.abs (a * b) < 2 ^ 53 ->
  represents (x * y) (a * b).
Proof.
  intros X Y C. unfold represents. rewrite mul_spec. unfold SF64mul.
  destruct (Z.eq_dec a 0) as [->|Na].
  { rewrite Z.mul_0_l.
    assert (Zx : exists s, Prim2SF x = S754_zero s)
      by (destruct X as [->|[_ ->]]; eexists; reflexivity).
    destruct Zx as [s ->].
    assert (Zy : (exists t, Prim2SF y = S754_zero t)
                 \/ exists t m e, Prim2SF y = S754_finite t m e).
    { destruct Y as [->|[_ ->]]; [|left; eexists; reflexivity].
      destruct (SFZ_cases b) as [[_ ->]|[_ ->]];
        [left; eexists; reflexivity|].
      right. do 3 eexists. reflexivity. }
    destruct Zy as [[t ->]|(t & m & e & ->)]; cbn [SFmul];
      (destruct (xorb s t); [right; now split|left; reflexivity]). }
  destruct (Z.eq_dec b 0) as [->|Nb].
  { rewrite Z.mul_0_r.
    assert (Zy : exists s, Prim2SF y = S754_zero s)
      by (destruct Y as [->|[_ ->]]; eexists; reflexivity).
    destruct Zy as [t ->].
    destruct X as [->|[? _]]; [|congruence].
    destruct (SFZ_cases a) as [[? _]|[_ ->]]; [congruence|].
    cbn [SFmul].
    destruct (xorb (a <? 0) t); [right; now split|left; reflexivity]. }
  destruct X as [->|[? _]]; [|congruence].
  destruct Y as [->|[? _]]; [|congruence].
  left. now apply SFmul_SFZ.
Qed.

Lemma zero_spec : Prim2SF 0 = S754_zero false.
Proof. reflexivity. Qed.

(** Comparing with zero, and the absolute value. *)
Lemma represents_leb x a :
  represents x a -> (x <=? 0)%float = (a <=? 0).
Proof.
  intros X. rewrite leb_spec, zero_spec.
  destruct X as [->|[-> ->]]; [|reflexivity].
  destruct (SFZ_cases a) as [[-> ->]|[N ->]]; [reflexivity|].
  unfold SFleb. cbn [SFcompare].
  destruct (Z.ltb_spec a 0), (Z.leb_spec a 0); try reflexivity; lia.
Qed.

Lemma represents_ltb x a :
  represents x a -> (x <? 0)%float = (a <? 0).
Proof.
  intros X. rewrite ltb_spec, zero_spec.
  destruct X as [->|[-> ->]]; [|reflexivity].
  destruct (SFZ_cases a) as [[-> ->]|[N ->]]; [reflexivity|].
  unfold SFltb. cbn [SFcompare]. now destruct (a <? 0).
Qed.

Lemma represents_abs x a :
  represents x a -> Z.abs a < 2 ^ 53 -> abs x = abs (of_Z a).
Proof.
  intros X A. apply Prim2SF_inj. rewrite !abs_spec, of_Z_SFZ by assumption.
  destruct X as [->|[-> ->]]; reflexivity.
Qed.

Lemma represents_square x a :
  represents x a -> Z.abs (a * a) < 2 ^ 53 -> (x * x)%float = of_Z (a * a).
Proof.
  intros X A. apply Prim2SF_inj. rewrite mul_spec, of_Z_SFZ by assumption.
  destruct X as [->|[-> ->]]; [|reflexivity].
  destruct (Z.eq_dec a 0) as [->|N]; [reflexivity|].
  now apply SFmul_SFZ.
Qed.

Lemma add_of_Z a b :
  Z.abs a < 2 ^ 53 -> Z.abs b < 2 ^ 53 -> Z.abs (a + b) < 2 ^ 53 ->
  (of_Z a + of_Z b)%float = of_Z (a + b).
Proof.
  intros A B C. apply Prim2SF_inj.
  rewrite add_spec, !of_Z_SFZ by assumption. now apply SFadd_SFZ.
Qed.

Lemma sub_of_Z a b :
  Z.abs a < 2 ^ 53 -> Z.abs b < 2 ^ 53 -> Z.abs (a - b) < 2 ^ 53 ->
  (of_Z a - of_Z b)%float = of_Z (a - b).
Proof.
  intros A B C. apply Prim2SF_inj.
  rewrite sub_spec, !of_Z_SFZ by assumption. now apply SFsub_SFZ.
Qed.

(** ** The code and the integer model *)

Lemma abs_mul_le u v U V :
  Z.abs u <= U -> Z.abs v <= V -> Z.abs (u * v) <= U * V.
Proof.
  intros Hu Hv. rewrite Z.abs_mul.
  apply Z.mul_le_mono_nonneg; lia.
Qed.

Section Bounded.
Variable B : Z.
Hypothesis B_small : B * B < 2 ^ 50.

Lemma bound_53 : 8 * (B * B) < 2 ^ 53.
Proof. change (2 ^ 53) with (8 * 2 ^ 50). lia. Qed.

Lemma bound_B u : Z.abs u <= B -> Z.abs u < 2 ^ 25.
Proof.
  intros H. destruct (Z_lt_le_dec (Z.abs u) (2 ^ 25)) as [|G]; [assumption|].
  assert (2 ^ 25 * 2 ^ 25 <= B * B) by (apply Z.mul_le_mono_nonneg; lia).
  change (2 ^ 25 * 2 ^ 25) with (2 ^ 50) in *. lia.
Qed.

Lemma x_represents p : bounded_by B p -> represents (Binary64.x p) (px p).
Proof.
  intros [H _]. apply represents_of_Z. pose proof (bound_B _ H). lia.
Qed.

Lemma y_represents p : bounded_by B p -> represents (Binary64.y p) (py p).
Proof.
  intros [_ H]. apply represents_of_Z. pose proof (bound_B _ H). lia.
Qed.

(** The difference of two coordinates is exact. *)
Lemma diff_represents u v a b :
  represents u a -> represents v b -> Z.abs a <= B -> Z.abs b <= B ->
  represents (u - v) (a - b).
Proof.
  intros U V A A'. pose proof (bound_B _ A). pose proof (bound_B _ A').
  apply represents_sub; try assumption; lia.
Qed.

(** For coordinates up to [B] the cross product of the code is the
    integer cross product, and the sweep pops what the sweep with exact
    cross products pops. *)
Lemma crossProduct_binary64 o a b :
  bounded_by B o -> bounded_by B a -> bounded_by B b ->
  represents (Binary64.crossProduct o a b) (crossProduct o a b).
Proof.
  intros Ho Ha Hb. pose proof bound_53 as B53.
  pose proof (x_represents _ Ho). pose proof (y_represents _ Ho).
  pose proof (x_represents _ Ha). pose proof (y_represents _ Ha).
  pose proof (x_represents _ Hb). pose proof (y_represents _ Hb).
  destruct Ho as [Ox Oy], Ha as [Ax Ay], Hb as [Bx By].
  assert (P1 : Z.abs ((px a - px o) * (py b - py o)) <= (2 * B) * (2 * B))
    by (apply abs_mul_le; lia).
  assert (P2 : Z.abs ((py a - py o) * (px b - px o)) <= (2 * B) * (2 * B))
    by (apply abs_mul_le; lia).
  unfold Binary64.crossProduct, crossProduct.
  apply represents_sub; try lia;
    (apply represents_mul; [now apply diff_represents
                           |now apply diff_represents|lia]).
Qed.

Lemma crossProduct_sign o a b :
  bounded_by B o -> bounded_by B a -> bounded_by B b ->
  (Binary64.crossProduct o a b <=? 0)%float = (crossProduct o a b <=? 0).
Proof.
  intros. apply represents_leb. now apply crossProduct_binary64.
Qed.

Lemma hull_pop_binary64 p :
  bounded_by B p ->
  forall stack, Forall (bounded_by B) stack ->
    Binary64.hull_pop stack p = hull_pop stack p.
Proof.
  intros Hp. induction stack as [|top rest IH]; intros F; [reflexivity|].
  destruct rest as [|below rest']; [reflexivity|].
  inversion F as [|? ? Ht F']; subst. inversion F' as [|? ? Hb _]; subst.
  cbn [Binary64.hull_pop hull_pop].
  rewrite crossProduct_sign by assumption.
  destruct (crossProduct below top p <=? 0); [now apply IH|reflexivity].
Qed.

Lemma hull_pop_Forall (P : Point -> Prop) p :
  forall stack, Forall P stack -> Forall P (hull_pop stack p).
Proof.
  induction stack as [|top rest IH]; intros F; [assumption|].
  destruct rest as [|below rest']; [assumption|].
  cbn [hull_pop].
  destruct (crossProduct below top p <=? 0); [|assumption].
  apply IH. now inversion F.
Qed.

Lemma sweep_binary64 :
  forall rest stack,
    Forall (bounded_by B) rest -> Forall (bounded_by B) stack ->
    fold_left Binary64.hull_step rest stack = fold_left hull_step rest stack.
Proof.
  induction rest as [|p rest IH]; intros stack Fr Fs; [reflexivity|].
  inversion Fr as [|? ? Hp Fr']; subst. cbn [fold_left].
  unfold Binary64.hull_step at 2, hull_step at 2.
  rewrite hull_pop_binary64 by assumption.
  apply IH; [assumption|]. constructor; [assumption|].
  now apply hull_pop_Forall.
Qed.

(** The squared distance of the comparator and of
    [perpendicularDistance]. *)
Lemma dist_represents s a :
  bounded_by B s -> bounded_by B a ->
  ((Binary64.x a - Binary64.x s) * (Binary64.x a - Binary64.x s)
   + (Binary64.y a - Binary64.y s) * (Binary64.y a - Binary64.y s))%float
  = of_Z ((px a - px s) ^ 2 + (py a - py s) ^ 2).
Proof.
  intros Hs Ha. pose proof bound_53 as B53.
  pose proof (x_represents _ Hs). pose proof (y_represents _ Hs).
  pose proof (x_represents _ Ha). pose proof (y_represents _ Ha).
  destruct Hs as [Sx Sy], Ha as [Ax Ay].
  assert (P1 : Z.abs ((px a - px s) * (px a - px s)) <= (2 * B) * (2 * B))
    by (apply abs_mul_le; lia).
  assert (P2 : Z.abs ((py a - py s) * (py a - py s)) <= (2 * B) * (2 * B))
    by (apply abs_mul_le; lia).
  rewrite !Z.pow_2_r.
  rewrite (represents_square _ (px a - px s))
    by (try apply diff_represents; (assumption || lia)).
  rewrite (represents_square _ (py a - py s))
    by (try apply diff_represents; (assumption || lia)).
  apply add_of_Z; lia.
Qed.

Lemma hull_before_binary64 s a b :
  bounded_by B s -> bounded_by B a -> bounded_by B b ->
  Binary64.hull_before s a b = hull_before s a b.
Proof.
  intros Hs Ha Hb. unfold Binary64.hull_before, hull_before.
  destruct (atan2_compare _ _ _ _); try reflexivity.
  rewrite !dist_represents by assumption.
  pose proof bound_53 as B53.
  destruct Hs as [Sx Sy], Ha as [Ax Ay], Hb as [Bx By].
  assert (P1 : Z.abs ((px a - px s) * (px a - px s)) <= (2 * B) * (2 * B))
    by (apply abs_mul_le; lia).
  assert (P2 : Z.abs ((py a - py s) * (py a - py s)) <= (2 * B) * (2 * B))
    by (apply abs_mul_le; lia).
  assert (P3 : Z.abs ((px b - px s) * (px b - px s)) <= (2 * B) * (2 * B))
    by (apply abs_mul_le; lia).
  assert (P4 : Z.abs ((py b - py s) * (py b - py s)) <= (2 * B) * (2 * B))
    by (apply abs_mul_le; lia).
  pose proof (Z.square_nonneg (px a - px s)).
  pose proof (Z.square_nonneg (py a - py s)).
  pose proof (Z.square_nonneg (px b - px s)).
  pose proof (Z.square_nonneg (py b - py s)).
  rewrite !Z.pow_2_r.
  rewrite sub_of_Z by lia.
  apply represents_ltb. apply represents_of_Z. lia.
Qed.

End Bounded.

(** The sort looks at the comparator on the elements of the array
    only. *)
Lemma insert_ext_in {A} (f g : A -> A -> bool) a l :
  (forall b, In b l -> f b a = g b a) -> insert f a l = insert g a l.
Proof.
  induction l as [|b l IH]; intros E; [reflexivity|].
  cbn [insert]. rewrite (E b) by now left.
  destruct (g b a); [|reflexivity].
  f_equal. apply IH. intros c Hc. apply E. now right.
Qed.

Lemma sort_ext_in {A} (f g : A -> A -> bool) l :
  (forall a b, In a l -> In b l -> f a b = g a b) -> sort f l = sort g l.
Proof.
  induction l as [|a l IH]; intros E; [reflexivity|].
  cbn [sort fold_right]. fold (sort f l). fold (sort g l).
  rewrite IH by (intros; apply E; now right).
  apply insert_ext_in. intros b Hb. apply sort_In in Hb.
  apply E; [now right|now left].
Qed.

Lemma pt_Forall (P : Point -> Prop) l i :
  P (mkPoint 0 0) -> Forall P l -> P (pt l i).
Proof.
  intros P0 F. unfold pt. destruct (nth_in_or_default i l (mkPoint 0 0)) as [H| ->];
    [|assumption].
  rewrite Forall_forall in F. now apply F.
Qed.

Lemma bounded_by_origin B : 0 <= B -> bounded_by B (mkPoint 0 0).
Proof. unfold bounded_by. simpl. lia. Qed.

(** The hull of the code is the hull of the sweep with exact cross
    products. *)
Lemma convexHull_binary64 B points :
  B * B < 2 ^ 50 -> Forall (bounded_by B) points ->
  Binary64.convexHull points = convexHull points.
Proof.
  intros HB F. unfold Binary64.convexHull, convexHull.
  destruct (length points <? 3)%nat eqn:L; [reflexivity|].
  apply Nat.ltb_ge in L.
  assert (N : points <> []) by (intros ->; simpl in L; lia).
  destruct (hull_start_spec points N) as [Hs _].
  assert (Bs : bounded_by B (hull_start points))
    by (rewrite Forall_forall in F; now apply F).
  assert (B0 : 0 <= B).
  { destruct points as [|p ?]; [congruence|].
    inversion F as [|? ? [Hp _] _]; subst. lia. }
  rewrite (sort_ext_in (Binary64.hull_before (hull_start points))
             (hull_before (hull_start points))).
  2:{ intros a b Ha Hb. rewrite Forall_forall in F.
      apply (hull_before_binary64 B); auto. }
  set (sorted := sort (hull_before (hull_start points)) points).
  assert (Fs : Forall (bounded_by B) sorted).
  { apply Forall_forall. intros p Hp. apply sort_In in Hp.
    rewrite Forall_forall in F. now apply F. }
  f_equal. apply (sweep_binary64 B HB).
  - clear -Fs. revert Fs. generalize sorted. intros l Fl.
    apply Forall_forall. intros p Hp.
    rewrite Forall_forall in Fl. apply Fl.
    destruct l as [|? [|? l]]; simpl in Hp; try contradiction.
    simpl. auto.
  - constructor; [|constructor; [|constructor]];
      apply pt_Forall; auto using bounded_by_origin.
Qed.

Section Area.
Variable B : Z.
Variable contour : list Point.
Hypothesis B_nonneg : 0 <= B.
Hypothesis in_range : Forall (bounded_by B) contour.

Lemma pt_bounded i : bounded_by B (pt contour i).
Proof. apply pt_Forall; auto using bounded_by_origin. Qed.

(** The partial sums of the area: integers, each at most 2 B^2 away
    from the one before. *)
Lemma area_fold n l :
  forall a z,
    represents a z ->
    Z.abs z + 2 * Z.of_nat (length l) * (B * B) < 2 ^ 53 ->
    let r :=
      fold_left
        (fun area i =>
           let j := ((i + 1) mod n)%nat in
           area + px (pt contour i) * py (pt contour j)
           - px (pt contour j) * py (pt contour i))
        l z in
    represents
      (fold_left
         (fun area i =>
            let j := ((i + 1) mod n)%nat in
            let area :=
              (area + Binary64.x (pt contour i)
                      * Binary64.y (pt contour j))%float in
            (area - Binary64.x (pt contour j)
                    * Binary64.y (pt contour i))%float)
         l a) r
    /\ Z.abs r <= Z.abs z + 2 * Z.of_nat (length l) * (B * B).
Proof.
  induction l as [|i l IH]; intros a z R Hz; cbn [fold_left length] in *.
  - split; [exact R|]. simpl. lia.
  - rewrite Nat2Z.inj_succ in Hz |- *.
    set (j := ((i + 1) mod n)%nat).
    destruct (pt_bounded i) as [Xi Yi]. destruct (pt_bounded j) as [Xj Yj].
    assert (P1 : Z.abs (px (pt contour i) * py (pt contour j)) <= B * B)
      by (apply abs_mul_le; assumption).
    assert (P2 : Z.abs (px (pt contour j) * py (pt contour i)) <= B * B)
      by (apply abs_mul_le; assumption).
    assert (BB : B <= B * B) by nia.
    assert (L0 : 0 <= Z.of_nat (length l) * (B * B)) by nia.
    assert (R1 : forall p q, Z.abs (px p) <= B -> Z.abs (py q) <= B ->
                   represents (Binary64.x p * Binary64.y q) (px p * py q)).
    { intros p q Hp Hq.
      assert (Z.abs (px p * py q) <= B * B) by (apply abs_mul_le; assumption).
      apply represents_mul; [apply represents_of_Z|apply represents_of_Z|];
        lia. }
    assert (S1 : represents
                   (a + Binary64.x (pt contour i) * Binary64.y (pt contour j))
                   (z + px (pt contour i) * py (pt contour j))).
    { apply represents_add; auto; lia. }
    assert (S2 : represents
                   (a + Binary64.x (pt contour i) * Binary64.y (pt contour j)
                    - Binary64.x (pt contour j) * Binary64.y (pt contour i))
                   (z + px (pt contour i) * py (pt contour j)
                    - px (pt contour j) * py (pt contour i))).
    { apply represents_sub; auto; lia. }
    destruct (IH _ _ S2) as [R' Hr]; [lia|].
    split; [exact R'|]. lia.
Qed.

Lemma area_sum :
  2 * Z.of_nat (length contour) * (B * B) < 2 ^ 53 ->
  Binary64.calculateArea contour = calculateArea contour
  /\ Z.abs (shoelace contour) < 2 ^ 53.
Proof.
  intros H. unfold Binary64.calculateArea, calculateArea, shoelace.
  destruct (area_fold (length contour) (seq 0 (length contour)) 0%float 0)
    as [R Hr].
  - left. reflexivity.
  - rewrite length_seq. simpl Z.abs. lia.
  - rewrite length_seq in Hr. simpl Z.abs in Hr.
    split; [|lia].
    unfold Math_abs. f_equal. apply represents_abs; [exact R|lia].
Qed.

End Area.

Lemma bounded_by_nonneg B (l : list Point) :
  l <> [] -> Forall (bounded_by B) l -> 0 <= B.
Proof.
  destruct l as [|p ?]; [congruence|]. intros _ F.
  inversion F as [|? ? [Hp _] _]; subst. lia.
Qed.

(** The area the code computes is the rounded shoelace sum, for a
    contour whose length and coordinates keep every partial sum below
    2^53. *)
Lemma calculateArea_binary64 B contour :
  Forall (bounded_by B) contour ->
  2 * Z.of_nat (length contour) * (B * B) < 2 ^ 53 ->
  Binary64.calculateArea contour = calculateArea contour
  /\ Z.abs (shoelace contour) < 2 ^ 53.
Proof.
  intros F H. destruct contour as [|p l] eqn:E.
  - split; [reflexivity|]. simpl. lia.
  - rewrite <- E in *. apply (area_sum B); try assumption.
    apply (bounded_by_nonneg B contour); [now rewrite E|assumption].
Qed.

Section Distance.
Variable B : Z.
Hypothesis B_small : B * B < 2 ^ 50.

(** The distance of the code is the distance with the integer
    numerator, and so are the scan, the recursion and the polygon. *)
Lemma perpendicularDistance_binary64 p s e :
  bounded_by B p -> bounded_by B s -> bounded_by B e ->
  Binary64.perpendicularDistance p s e = perpendicularDistance p s e.
Proof.
  intros Hp Hs He. pose proof (bound_53 B B_small) as B53.
  unfold Binary64.perpendicularDistance, perpendicularDistance.
  rewrite (dist_represents B B_small s e Hs He).
  rewrite (dist_represents B B_small s p Hs Hp).
  rewrite !Z.pow_2_r.
  destruct (_ =? 0)%float; [reflexivity|].
  f_equal. unfold Math_abs.
  pose proof (x_represents B B_small _ Hp).
  pose proof (y_represents B B_small _ Hp).
  pose proof (x_represents B B_small _ Hs).
  pose proof (y_represents B B_small _ Hs).
  pose proof (x_represents B B_small _ He).
  pose proof (y_represents B B_small _ He).
  destruct Hp as [Px Py], Hs as [Sx Sy], He as [Ex Ey].
  assert (P1 : Z.abs ((py e - py s) * px p) <= (2 * B) * B)
    by (apply abs_mul_le; lia).
  assert (P2 : Z.abs ((px e - px s) * py p) <= (2 * B) * B)
    by (apply abs_mul_le; lia).
  assert (P3 : Z.abs (px e * py s) <= B * B) by (apply abs_mul_le; lia).
  assert (P4 : Z.abs (py e * px s) <= B * B) by (apply abs_mul_le; lia).
  apply represents_abs; [|lia].
  apply represents_sub; try lia.
  - apply represents_add; try lia.
    + apply represents_sub; try lia;
        (apply represents_mul;
         [now apply (diff_represents B B_small)|assumption|lia]).
    + apply represents_mul; [assumption|assumption|lia].
  - apply represents_mul; [assumption|assumption|lia].
Qed.

Variable points : list Point.
Hypothesis in_range : Forall (bounded_by B) points.

Lemma farthest_binary64 s e :
  points <> [] ->
  Binary64.farthest points s e = farthest points s e.
Proof.
  intros N. pose proof (bounded_by_nonneg B points N in_range) as B0.
  unfold Binary64.farthest, farthest.
  generalize (0%float, s). generalize (seq (s + 1) (e - s - 1)).
  induction l as [|i l IH]; intros acc; [reflexivity|].
  cbn [fold_left]. rewrite <- IH. f_equal.
  destruct acc as [maxDist maxIndex].
  rewrite perpendicularDistance_binary64
    by (apply pt_Forall; auto using bounded_by_origin).
  reflexivity.
Qed.

Lemma rdp_binary64 eps :
  points <> [] ->
  forall depth s e, Binary64.rdp depth points s e eps = rdp depth points s e eps.
Proof.
  intros N. induction depth as [|d IH]; intros s e; [reflexivity|].
  cbn [Binary64.rdp rdp]. rewrite farthest_binary64 by assumption.
  destruct (e - s <? 2)%nat; [reflexivity|].
  destruct (farthest points s e) as [M m].
  destruct (gt M eps); [|reflexivity].
  now rewrite !IH.
Qed.

Lemma approximatePolygon_binary64 eps :
  Binary64.approximatePolygon points eps = approximatePolygon points eps.
Proof.
  unfold Binary64.approximatePolygon, approximatePolygon.
  destruct (length points <? 3)%nat eqn:L; [reflexivity|].
  apply Nat.ltb_ge in L.
  rewrite rdp_binary64; [reflexivity|].
  intros E. rewrite E in L. simpl in L. lia.
Qed.

End Distance.

Lemma within_binary64 B points eps :
  B * B < 2 ^ 50 -> Forall (bounded_by B) points -> points <> [] ->
  forall indices,
    within points eps indices -> Binary64.within points eps indices.
Proof.
  intros HB F N. pose proof (bounded_by_nonneg B points N F) as B0.
  induction indices as [|a [|b l] IH]; intros W; try exact Logic.I.
  destruct W as [W1 W2]. split; [|now apply IH].
  intros i Hi.
  rewrite (perpendicularDistance_binary64 B HB)
    by (apply pt_Forall; auto using bounded_by_origin).
  now apply W1.
Qed.

(** ** What the code computes on coordinates in range *)

(** C9, as stated, fails: on four points with coordinates near 2^28
    the cross product of the turn at the third one is 1 and is computed
    as 0, the sweep drops the point, and the triangle it returns leaves
    this input point strictly outside. *)
Lemma convexHull_counterexample :
  (3 <= length far_points)%nat
  /\ In (mkPoint 268435456 134217727) far_points
  /\ ~ contains (Binary64.convexHull far_points)
        (mkPoint 268435456 134217727).
Proof.
  split; [simpl; lia|]. split; [simpl; tauto|].
  intros C.
  assert (H : Binary64.convexHull far_points
              = [mkPoint 0 0; mkPoint 134217728 0;
                 mkPoint 268435457 134217728])
    by (vm_compute; reflexivity).
  rewrite H in C.
  specialize (C (mkPoint 134217728 0) (mkPoint 268435457 134217728)).
  assert (E : polygon_edge
                [mkPoint 0 0; mkPoint 134217728 0;
                 mkPoint 268435457 134217728]
                (mkPoint 134217728 0) (mkPoint 268435457 134217728))
    by (exists 1%nat; simpl; auto).
  apply C in E. vm_compute in E. now apply E.
Qed.

(** C9, amended.  For every set of 3 points or more whose coordinates
    are at most 2^20 in absolute value, the polygon returned by
    [convexHull] is convex, its vertices are input points, and every
    input point lies inside it or on its boundary: on the inner side of
    each of its edges or on the edge.  A hull of three vertices or more
    repeats none of them; a hull of two (the points are on one line) is
    the segment that holds every input point. *)
Theorem convexHull_correct (points : list Point) :
  Forall (bounded_by (2 ^ 20)) points ->
  (3 <= length points)%nat ->
  let hull := Binary64.convexHull points in
  incl hull points
  /\ convex hull
  /\ (forall p, In p points -> contains hull p)
  /\ ((3 <= length hull)%nat -> NoDup hull)
  /\ ((length hull < 3)%nat ->
      forall p, In p points -> between (pt hull 0) (pt hull 1) p).
Proof.
  intros F Hn hull. unfold hull.
  rewrite (convexHull_binary64 (2 ^ 20)) by (assumption || reflexivity).
  now apply exact_hull_correct.
Qed.

Lemma convexHull_correct_witness :
  Forall (bounded_by (2 ^ 20)) zigzag4
  /\ (3 <= length zigzag4)%nat
  /\ incl (Binary64.convexHull zigzag4) zigzag4
  /\ convex (Binary64.convexHull zigzag4)
  /\ NoDup (Binary64.convexHull zigzag4).
Proof.
  assert (F : Forall (bounded_by (2 ^ 20)) zigzag4)
    by (repeat constructor; simpl; lia).
  assert (Hn : (3 <= length zigzag4)%nat) by (simpl; lia).
  split; [exact F|]. split; [exact Hn|].
  destruct (convexHull_correct zigzag4 F Hn) as (H1 & H2 & _ & H4 & _).
  split; [exact H1|]. split; [exact H2|].
  apply H4. vm_compute. lia.
Defined.

(** X18.  On points whose coordinates are at most 2^20 in absolute
    value, a hull of three vertices or more turns strictly left at every
    vertex, the first one and the last one as well: no three consecutive
    vertices are on one line. *)
Theorem convexHull_strict (points : list Point) :
  Forall (bounded_by (2 ^ 20)) points ->
  (3 <= length points)%nat ->
  let hull := Binary64.convexHull points in
  (3 <= length hull)%nat ->
  left_turns (hull ++ firstn 2 hull).
Proof.
  intros F Hn hull. unfold hull.
  rewrite (convexHull_binary64 (2 ^ 20)) by (assumption || reflexivity).
  now apply exact_hull_strict.
Qed.

Lemma convexHull_strict_witness :
  Forall (bounded_by (2 ^ 20)) zigzag4
  /\ (3 <= length zigzag4)%nat
  /\ (3 <= length (Binary64.convexHull zigzag4))%nat
  /\ left_turns (Binary64.convexHull zigzag4
                 ++ firstn 2 (Binary64.convexHull zigzag4)).
Proof.
  assert (F : Forall (bounded_by (2 ^ 20)) zigzag4)
    by (repeat constructor; simpl; lia).
  assert (Hn : (3 <= length zigzag4)%nat) by (simpl; lia).
  assert (Hh : (3 <= length (Binary64.convexHull zigzag4))%nat)
    by (vm_compute; lia).
  split; [exact F|]. split; [exact Hn|]. split; [exact Hh|].
  exact (convexHull_strict zigzag4 F Hn Hh).
Defined.

(** X12.  The area does not depend on the vertex the polygon starts at,
    for a polygon whose length and coordinates keep the sum of the code
    below 2^53: [n] vertices with coordinates up to [B], where
    2 n B^2 < 2^53. *)
Theorem calculateArea_rotate (B : Z) (l1 l2 : list Point) :
  Forall (bounded_by B) (l1 ++ l2) ->
  2 * Z.of_nat (length (l1 ++ l2)) * (B * B) < 2 ^ 53 ->
  Binary64.calculateArea (l1 ++ l2) = Binary64.calculateArea (l2 ++ l1).
Proof.
  intros F H.
  assert (F' : Forall (bounded_by B) (l2 ++ l1)).
  { apply Forall_app in F. apply Forall_app. tauto. }
  assert (H' : 2 * Z.of_nat (length (l2 ++ l1)) * (B * B) < 2 ^ 53).
  { rewrite length_app, Nat.add_comm, <- length_app. exact H. }
  destruct (calculateArea_binary64 B _ F H) as [-> _].
  destruct (calculateArea_binary64 B _ F' H') as [-> _].
  apply exact_area_rotate.
Qed.

Lemma calculateArea_rotate_witness :
  Forall (bounded_by 20) ([mkPoint 0 0; mkPoint 5 1]
                          ++ [mkPoint 10 0; mkPoint 15 0])
  /\ Binary64.calculateArea ([mkPoint 0 0; mkPoint 5 1]
                             ++ [mkPoint 10 0; mkPoint 15 0])
     = Binary64.calculateArea ([mkPoint 10 0; mkPoint 15 0]
                               ++ [mkPoint 0 0; mkPoint 5 1]).
Proof.
  assert (F : Forall (bounded_by 20) ([mkPoint 0 0; mkPoint 5 1]
                                      ++ [mkPoint 10 0; mkPoint 15 0]))
    by (repeat constructor; simpl; lia).
  split; [exact F|].
  apply (calculateArea_rotate 20 _ _ F). simpl. lia.
Defined.

(** X13.  Moving the polygon leaves its area as it is, when the polygon
    and the moved polygon both keep the sum of the code below 2^53. *)
Theorem calculateArea_translate (B dx dy : Z) (contour : list Point) :
  Forall (bounded_by B) contour ->
  Forall (bounded_by B) (map (translate dx dy) contour) ->
  2 * Z.of_nat (length contour) * (B * B) < 2 ^ 53 ->
  Binary64.calculateArea (map (translate dx dy) contour)
  = Binary64.calculateArea contour.
Proof.
  intros F F' H.
  destruct (calculateArea_binary64 B _ F H) as [-> _].
  destruct (calculateArea_binary64 B _ F') as [-> _];
    [now rewrite length_map|].
  apply exact_area_translate.
Qed.

Lemma calculateArea_translate_witness :
  Forall (bounded_by 20) zigzag4
  /\ Forall (bounded_by 20) (map (translate 3 (-2)) zigzag4)
  /\ Binary64.calculateArea (map (translate 3 (-2)) zigzag4)
     = Binary64.calculateArea zigzag4.
Proof.
  assert (F : Forall (bounded_by 20) zigzag4)
    by (repeat constructor; simpl; lia).
  assert (F' : Forall (bounded_by 20) (map (translate 3 (-2)) zigzag4))
    by (repeat constructor; simpl; lia).
  split; [exact F|]. split; [exact F'|].
  apply (calculateArea_translate 20 3 (-2) zigzag4 F F'). simpl. lia.
Defined.

(** X14.  The area does not depend on the direction in which the
    polygon is walked, for a polygon whose length and coordinates keep
    the sum of the code below 2^53. *)
Theorem calculateArea_rev (B : Z) (contour : list Point) :
  Forall (bounded_by B) contour ->
  2 * Z.of_nat (length contour) * (B * B) < 2 ^ 53 ->
  Binary64.calculateArea (rev contour) = Binary64.calculateArea contour.
Proof.
  intros F H.
  destruct (calculateArea_binary64 B _ F H) as [-> S].
  destruct (calculateArea_binary64 B (rev contour)) as [-> _].
  - now apply Forall_rev.
  - now rewrite length_rev.
  - now apply exact_area_rev.
Qed.

Lemma calculateArea_rev_witness :
  Forall (bounded_by 20) zigzag4
  /\ Binary64.calculateArea (rev zigzag4) = Binary64.calculateArea zigzag4.
Proof.
  assert (F : Forall (bounded_by 20) zigzag4)
    by (repeat constructor; simpl; lia).
  split; [exact F|].
  apply (calculateArea_rev 20 zigzag4 F). simpl. lia.
Defined.

(** X16.  The polygon [approximatePolygon] returns is the contour with
    points left out, and what is left out is within the tolerance:
    between two consecutive points of the polygon, which are contour
    points in the order of the contour, no contour point is farther than
    the tolerance from the chord they span.  The coordinates are at most
    [B] in absolute value, with B^2 < 2^50. *)
Theorem approximatePolygon_within (B : Z) (contour : list Point)
    (eps : float) (polygon : list Point) :
  B * B < 2 ^ 50 ->
  Forall (bounded_by B) contour ->
  Binary64.approximatePolygon contour eps = Some polygon ->
  exists indices,
    selection contour polygon indices
    /\ Binary64.within contour eps indices.
Proof.
  intros HB F H.
  rewrite (approximatePolygon_binary64 B HB contour F) in H.
  destruct (exact_polygon_indices _ _ _ H) as (indices & S & W).
  exists indices. split; [exact S|].
  destruct contour as [|p l] eqn:E.
  - destruct S as (_ & _ & Fi & _).
    destruct indices as [|a [|b ?]]; try exact Logic.I.
    inversion Fi as [|? ? Ha _]; subst. simpl in Ha. lia.
  - rewrite <- E in *.
    apply (within_binary64 B); try assumption. now rewrite E.
Qed.

Lemma approximatePolygon_within_witness :
  20 * 20 < 2 ^ 50
  /\ Forall (bounded_by 20) zigzag4
  /\ Binary64.approximatePolygon zigzag4 0.5
     = Some [mkPoint 0 0; mkPoint 5 1; mkPoint 15 0]
  /\ exists indices,
       selection zigzag4 [mkPoint 0 0; mkPoint 5 1; mkPoint 15 0] indices
       /\ Binary64.within zigzag4 0.5 indices.
Proof.
  assert (HB : 20 * 20 < 2 ^ 50) by reflexivity.
  assert (F : Forall (bounded_by 20) zigzag4)
    by (repeat constructor; simpl; lia).
  assert (A : Binary64.approximatePolygon zigzag4 0.5
              = Some [mkPoint 0 0; mkPoint 5 1; mkPoint 15 0])
    by (vm_compute; reflexivity).
  split; [exact HB|]. split; [exact F|]. split; [exact A|].
  exact (approximatePolygon_within 20 _ _ _ HB F A).
Defined.

(** X29.  The simplification goes with the polygon when it is moved:
    the polygon of the moved contour is the moved polygon, when the
    coordinates of both are at most [B] in absolute value, with
    B^2 < 2^50. *)
Theorem approximatePolygon_translate (B dx dy : Z) (contour : list Point)
    (eps : float) :
  B * B < 2 ^ 50 ->
  Forall (bounded_by B) contour ->
  Forall (bounded_by B) (map (translate dx dy) contour) ->
  Binary64.approximatePolygon (map (translate dx dy) contour) eps
  = option_map (map (translate dx dy))
      (Binary64.approximatePolygon contour eps).
Proof.
  intros HB F F'.
  rewrite !(approximatePolygon_binary64 B HB) by assumption.
  apply exact_polygon_translate.
Qed.

Lemma approximatePolygon_translate_witness :
  20 * 20 < 2 ^ 50
  /\ Forall (bounded_by 20) zigzag4
  /\ Forall (bounded_by 20) (map (translate 3 (-2)) zigzag4)
  /\ Binary64.approximatePolygon (map (translate 3 (-2)) zigzag4) 0.5
     = option_map (map (translate 3 (-2)))
         (Binary64.approximatePolygon zigzag4 0.5).
Proof.
  assert (HB : 20 * 20 < 2 ^ 50) by reflexivity.
  assert (F : Forall (bounded_by 20) zigzag4)
    by (repeat constructor; simpl; lia).
  assert (F' : Forall (bounded_by 20) (map (translate 3 (-2)) zigzag4))
    by (repeat constructor; simpl; lia).
  split; [exact HB|]. split; [exact F|]. split; [exact F'|].
  exact (approximatePolygon_translate 20 3 (-2) zigzag4 0.5 HB F F').
Defined.
